(** * Alert Manager: the page logic of [alarms_page.tsx] and
    [alerts_filters_panel.tsx], embedded and verified.

    The React component keeps its state in [useState] cells and derives
    everything else (visible rules, filtered alerts, groups, facet options)
    by pure recomputation.  The embedding follows that shape: one record for
    the cells, one state transformer per handler, one pure function per
    derived value. *)

From Stdlib Require Import Ascii.
From stdpp Require Import gmap strings list sorting pretty.

Set Warnings "-register-all,-clear-no-such-hyp".

(** ** JavaScript primitives used by the page *)

Module Js.

(** A JavaScript string is held as its UTF-8 byte sequence.  Equality,
    emptiness, concatenation and substring search on the bytes are those
    on the UTF-16 code units of the string.  The order of the code units,
    which [sort] uses, is not the order of the bytes; it is [le] below. *)

(** *** Case conversion

    [toLowerCase] and [toUpperCase] follow the Unicode tables the engine
    ships and are taken from the engine.  On ASCII text they are the two
    maps below, whatever the engine. *)
Definition lowerUnit (c : ascii) : ascii :=
  let n := Ascii.N_of_ascii c in
  if ((65 <=? n) && (n <=? 90))%N then Ascii.ascii_of_N (n + 32) else c.

Fixpoint asciiLower (s : string) : string :=
  match s with
  | EmptyString => EmptyString
  | String c s' => String (lowerUnit c) (asciiLower s')
  end.

Definition upperUnit (c : ascii) : ascii :=
  let n := Ascii.N_of_ascii c in
  if ((97 <=? n) && (n <=? 122))%N then Ascii.ascii_of_N (n - 32) else c.

Fixpoint asciiUpper (s : string) : string :=
  match s with
  | EmptyString => EmptyString
  | String c s' => String (upperUnit c) (asciiUpper s')
  end.

Fixpoint isAscii (s : string) : bool :=
  match s with
  | EmptyString => true
  | String c s' => (Ascii.N_of_ascii c <? 128)%N && isAscii s'
  end.

(** What the page takes from the JavaScript engine: the two case
    conversions, and the text [String(f)] gives for the built-in function
    named [name] (the standard fixes its shape, not its spacing). *)
Class Engine : Type := {
  toLowerCase : string → string;
  toUpperCase : string → string;
  nativeSource : string → string;
  toLowerCase_ascii : ∀ s, isAscii s = true → toLowerCase s = asciiLower s;
  toUpperCase_ascii : ∀ s, isAscii s = true → toUpperCase s = asciiUpper s
}.

(** An engine to run examples with.  It converts ASCII letters only, which
    is what every engine does on ASCII text, and prints built-in functions
    the way V8 does. *)
Definition asciiEngine : Engine :=
  {| toLowerCase := asciiLower;
     toUpperCase := asciiUpper;
     nativeSource := fun name => "function " +:+ name +:+ "() { [native code] }";
     toLowerCase_ascii := fun _ _ => eq_refl;
     toUpperCase_ascii := fun _ _ => eq_refl |}.

Fixpoint startsWith (s q : string) : bool :=
  match q, s with
  | EmptyString, _ => true
  | String _ _, EmptyString => false
  | String a q', String b s' => if Ascii.eqb a b then startsWith s' q' else false
  end.

(** [s.includes(q)]: [q] occurs in [s] at some offset. *)
Fixpoint includes (s q : string) : bool :=
  startsWith s q ||
  match s with
  | EmptyString => false
  | String _ s' => includes s' q
  end.

(** Truthiness of a string: only the empty string is falsy. *)
Definition truthy (s : string) : bool := negb (String.eqb s "").

(** Truthiness of [string | undefined] (also [string | null]). *)
Definition truthyOpt (o : option string) : bool :=
  match o with
  | Some s => truthy s
  | None => false
  end.

(** [arr.includes(x)] on an array of strings. *)
Definition arrayIncludes (arr : list string) (x : string) : bool :=
  existsb (String.eqb x) arr.

(** *** The order of code units

    [sort] compares strings unit by unit.  [codeUnits] reads the UTF-16
    code units off the UTF-8 bytes: a character of one, two or three bytes
    is one unit, a character of four bytes is a surrogate pair.  Bytes that
    are no UTF-8 at all are taken as units of their own. *)
Fixpoint codeUnits (s : string) : list N :=
  match s with
  | EmptyString => []
  | String b0 s1 =>
      let n0 := Ascii.N_of_ascii b0 in
      if (n0 <? 192)%N then n0 :: codeUnits s1
      else
        match s1 with
        | EmptyString => [n0]
        | String b1 s2 =>
            let n1 := Ascii.N_of_ascii b1 in
            if (n0 <? 224)%N then
              ((n0 mod 32) * 64 + n1 mod 64)%N :: codeUnits s2
            else
              match s2 with
              | EmptyString => [n0; n1]
              | String b2 s3 =>
                  let n2 := Ascii.N_of_ascii b2 in
                  if (n0 <? 240)%N then
                    ((n0 mod 16) * 4096 + (n1 mod 64) * 64 + n2 mod 64)%N
                      :: codeUnits s3
                  else
                    match s3 with
                    | EmptyString => [n0; n1; n2]
                    | String b3 s4 =>
                        let n3 := Ascii.N_of_ascii b3 in
                        let point :=
                          ((n0 mod 8) * 262144 + (n1 mod 64) * 4096
                           + (n2 mod 64) * 64 + n3 mod 64)%N in
                        let offset := (point - 65536)%N in
                        (55296 + offset / 1024)%N :: (56320 + offset mod 1024)%N
                          :: codeUnits s4
                    end
              end
        end
  end.

(** Lexicographic comparison; a proper prefix comes first. *)
Fixpoint unitsLeb (u v : list N) : bool :=
  match u, v with
  | [], _ => true
  | _ :: _, [] => false
  | x :: u', y :: v' => (x <? y)%N || ((x =? y)%N && unitsLeb u' v')
  end.

Definition le (s t : string) : Prop :=
  unitsLeb (codeUnits s) (codeUnits t) = true.

#[global] Instance le_dec : RelDecision le :=
  fun s t => decide (unitsLeb (codeUnits s) (codeUnits t) = true).

(** [Array.prototype.sort()] without comparator on strings: ascending
    order of code units, a proper prefix before its extensions. *)
Definition sort (arr : list string) : list string := merge_sort le arr.

(** *** Reading a property of a plain object

    [obj[key]] on an object whose own properties are strings finds the own
    property, or else what [Object.prototype] has under that name, or else
    [undefined]. *)
Inductive Value : Type :=
| VUndefined
| VStr (s : string)
| VInherited (member : string).

#[global] Instance Value_eq_dec : EqDecision Value.
Proof. solve_decision. Defined.

(** The properties of [Object.prototype], Annex B included.  All are
    functions but [__proto__], an accessor that gives the prototype of the
    object read, here [Object.prototype] itself. *)
Definition objectPrototype : list string :=
  ["constructor"; "hasOwnProperty"; "isPrototypeOf"; "propertyIsEnumerable";
   "toLocaleString"; "toString"; "valueOf"; "__proto__"; "__defineGetter__";
   "__defineSetter__"; "__lookupGetter__"; "__lookupSetter__"].

Definition inherited (name : string) : bool := arrayIncludes objectPrototype name.
Arguments inherited : simpl never.

Definition get (obj : gmap string string) (key : string) : Value :=
  match obj !! key with
  | Some s => VStr s
  | None => if inherited key then VInherited key else VUndefined
  end.

(** Functions and objects are truthy. *)
Definition truthyValue (v : Value) : bool :=
  match v with
  | VUndefined => false
  | VStr s => truthy s
  | VInherited _ => true
  end.

(** [ToString], which [sort] compares by and property names are made
    with.  [Object.prototype.constructor] is the function [Object]; the
    other functions are named like their property. *)
Definition toText `{Engine} (v : Value) : string :=
  match v with
  | VUndefined => "undefined"
  | VStr s => s
  | VInherited member =>
      if String.eqb member "__proto__" then "[object Object]"
      else if String.eqb member "constructor" then nativeSource "Object"
      else nativeSource member
  end.

(** [values.includes(v)] on an array of strings: only a string is found. *)
Definition arrayIncludesValue (arr : list string) (v : Value) : bool :=
  match v with
  | VStr s => arrayIncludes arr s
  | _ => false
  end.

Definition leValue `{Engine} (x y : Value) : Prop := le (toText x) (toText y).

#[global] Instance leValue_dec `{Engine} : RelDecision leValue :=
  fun x y => decide (le (toText x) (toText y)).

(** [sort()] on values: by their text; the sort is stable. *)
Definition sortValues `{Engine} (arr : list Value) : list Value :=
  merge_sort leValue arr.

(** [obj[name] = v] with [v] a string or a number: the setter of
    [__proto__] ignores such a value, any other name becomes an own
    property. *)
Definition assign {V} (obj : gmap string V) (name : string) (v : V) : gmap string V :=
  if String.eqb name "__proto__" then obj else <[name := v]> obj.

(** Opaque payloads ([raw], mock fields) are JSON values. *)
Inductive Json : Type :=
| JNull
| JBool (b : bool)
| JNum (n : Z)
| JStr (s : string)
| JArr (items : list Json)
| JObj (props : list (string * Json)).

(** [Object.keys] / [Object.entries] of a record of strings to values. *)
Definition keys {V} (o : gmap string V) : list string := (map_to_list o).*1.
Definition entries {V} (o : gmap string V) : list (string * V) := map_to_list o.

End Js.

(** [Set<string>]: membership plus insertion order, which is the order
    [Array.from] reads it back in. *)
Module JsSet.
Definition t := list string.
Definition empty : t := [].
Definition has (x : string) (s : t) : bool := Js.arrayIncludes s x.
Definition add (x : string) (s : t) : t := if has x s then s else s ++ [x].
Definition toArray (s : t) : list string := s.

(** A set declared [Set<string>] holds whatever is added to it; [add] on
    values compares as [SameValueZero] does: strings by content, an
    inherited member with itself. *)
Definition addValue (x : Js.Value) (s : list Js.Value) : list Js.Value :=
  if decide (x ∈ s) then s else s ++ [x].
End JsSet.

(** [Map<string, T[]>]: entries in insertion order of their keys. *)
Module JsMap.
Section Def.
Context {V : Type}.
Definition t := list (string * V).
Definition empty : t := [].

Definition has (k : string) (m : t) : bool :=
  existsb (fun e => String.eqb k e.1) m.

Fixpoint get (k : string) (m : t) : option V :=
  match m with
  | [] => None
  | e :: m' => if String.eqb k e.1 then Some e.2 else get k m'
  end.

(** Replace the value under an existing key, keeping its position. *)
Fixpoint update (k : string) (f : V -> V) (m : t) : t :=
  match m with
  | [] => []
  | e :: m' =>
      if String.eqb k e.1 then (e.1, f e.2) :: m' else e :: update k f m'
  end.

Definition set (k : string) (v : V) (m : t) : t :=
  if has k m then update k (fun _ => v) m else m ++ [(k, v)].

Definition entries (m : t) : list (string * V) := m.
End Def.
Arguments t : clear implicits.
End JsMap.

(** ** Record model *)

Module Alert.
(** Modelled from the spec: the [UnifiedAlert] declaration of [core]
    (section 3, Alert); [message] is read with [?.] and may be absent. *)
Record t : Type := mk {
  id : string;
  datasourceId : string;
  datasourceType : string;
  name : string;
  state : string;
  severity : string;
  message : option string;
  startTime : string;
  lastUpdated : string;
  labels : gmap string string;
  annotations : gmap string string;
  raw : Js.Json
}.
End Alert.

Inductive MonitorStatus : Type :=
| StatusActive
| StatusPending
| StatusMuted
| StatusDisabled.

Module Rule.
(** Modelled from the spec: the [UnifiedRule] declaration of [core]
    (section 3, Rule); the UI-only derived fields travel together in
    [mock]. *)
Record t : Type := mk {
  id : string;
  datasourceId : string;
  datasourceType : string;
  name : string;
  enabled : bool;
  severity : string;
  query : option string;
  condition : string;
  threshold : Js.Json;
  labels : gmap string string;
  annotations : gmap string string;
  monitorType : string;
  status : MonitorStatus;
  healthStatus : string;
  group : option string;
  createdBy : string;
  createdAt : string;
  lastModified : string;
  mock : Js.Json;
  raw : Js.Json
}.

(** [{ ...r, status: s }] *)
Definition withStatus (s : MonitorStatus) (r : t) : t :=
  mk (id r) (datasourceId r) (datasourceType r) (name r) (enabled r)
     (severity r) (query r) (condition r) (threshold r) (labels r)
     (annotations r) (monitorType r) s (healthStatus r) (group r)
     (createdBy r) (createdAt r) (lastModified r) (mock r) (raw r).
End Rule.

Module Datasource.
Record t : Type := mk {
  id : string;
  name : string;
  type : string;
  url : string;
  enabled : bool
}.
End Datasource.

Inductive GroupBy : Type :=
| GroupNone
| GroupDatasource
| GroupState.

Module AlertFilterState.
Record t : Type := mk {
  state : list string;
  severity : list string;
  datasourceType : list string;
  datasourceId : list string;
  labels : gmap string (list string);
  groupBy : GroupBy
}.
End AlertFilterState.

Definition emptyAlertFilters : AlertFilterState.t :=
  AlertFilterState.mk [] [] [] [] ∅ GroupNone.

Module SavedSearch.
(** [FilterState] is declared in [monitors_filters_panel], outside the
    sources at hand; the page only stores and restores it. *)
Record t (FilterState : Type) : Type := mk {
  id : string;
  name : string;
  query : string;
  filters : FilterState
}.
Arguments mk {FilterState}.
Arguments id {FilterState}.
Arguments name {FilterState}.
Arguments query {FilterState}.
Arguments filters {FilterState}.
End SavedSearch.

(** ** Page state: the [useState] cells of [AlarmsPage]

    The cells that only steer the rendering (selected tab, open dialogs,
    collapsed panels, expanded groups) take no part in the logic below. *)

Module PageState.
Record t (FilterState : Type) : Type := mk {
  alerts : list Alert.t;
  rules : list Rule.t;
  deletedRuleIds : JsSet.t;
  datasources : list Datasource.t;
  loading : bool;
  searchQuery : string;
  filters : FilterState;
  savedSearches : list (SavedSearch.t FilterState);
  alertSearchQuery : string;
  alertFilters : AlertFilterState.t
}.
Arguments mk {FilterState}.
Arguments alerts {FilterState}.
Arguments rules {FilterState}.
Arguments deletedRuleIds {FilterState}.
Arguments datasources {FilterState}.
Arguments loading {FilterState}.
Arguments searchQuery {FilterState}.
Arguments filters {FilterState}.
Arguments savedSearches {FilterState}.
Arguments alertSearchQuery {FilterState}.
Arguments alertFilters {FilterState}.

Section Setters.
Context {F : Type}.
Implicit Type st : t F.

(** State setters; those called with an updater ([setX(prev => ...)])
    take the updater. *)
Definition setAlerts (a : list Alert.t) st : t F :=
  mk a (rules st) (deletedRuleIds st) (datasources st) (loading st)
     (searchQuery st) (filters st) (savedSearches st)
     (alertSearchQuery st) (alertFilters st).

Definition setRules (f : list Rule.t -> list Rule.t) st : t F :=
  mk (alerts st) (f (rules st)) (deletedRuleIds st) (datasources st)
     (loading st) (searchQuery st) (filters st) (savedSearches st)
     (alertSearchQuery st) (alertFilters st).

Definition setDeletedRuleIds (f : JsSet.t -> JsSet.t) st : t F :=
  mk (alerts st) (rules st) (f (deletedRuleIds st)) (datasources st)
     (loading st) (searchQuery st) (filters st) (savedSearches st)
     (alertSearchQuery st) (alertFilters st).

Definition setDatasources (d : list Datasource.t) st : t F :=
  mk (alerts st) (rules st) (deletedRuleIds st) d (loading st)
     (searchQuery st) (filters st) (savedSearches st)
     (alertSearchQuery st) (alertFilters st).

Definition setLoading (b : bool) st : t F :=
  mk (alerts st) (rules st) (deletedRuleIds st) (datasources st) b
     (searchQuery st) (filters st) (savedSearches st)
     (alertSearchQuery st) (alertFilters st).

Definition setSearchQuery (q : string) st : t F :=
  mk (alerts st) (rules st) (deletedRuleIds st) (datasources st)
     (loading st) q (filters st) (savedSearches st)
     (alertSearchQuery st) (alertFilters st).

Definition setFilters (f : F) st : t F :=
  mk (alerts st) (rules st) (deletedRuleIds st) (datasources st)
     (loading st) (searchQuery st) f (savedSearches st)
     (alertSearchQuery st) (alertFilters st).

Definition setSavedSearches
    (f : list (SavedSearch.t F) -> list (SavedSearch.t F)) st : t F :=
  mk (alerts st) (rules st) (deletedRuleIds st) (datasources st)
     (loading st) (searchQuery st) (filters st) (f (savedSearches st))
     (alertSearchQuery st) (alertFilters st).

(** The cells as [useState] initialises them; [emptyFilters] comes from
    [monitors_filters_panel]. *)
Definition initial (emptyFilters : F) : t F :=
  mk [] [] JsSet.empty [] true "" emptyFilters [] "" emptyAlertFilters.
End Setters.
End PageState.

(** ** Local mutations of the rule list *)

Section RuleOps.
Context {F : Type}.
Implicit Type st : PageState.t F.

(** [rules.filter(r => !deletedRuleIds.has(r.id))] *)
Definition visibleRules st : list Rule.t :=
  List.filter (fun r => negb (JsSet.has (Rule.id r) (PageState.deletedRuleIds st)))
              (PageState.rules st).

Definition handleDeleteRules (ids : list string) st : PageState.t F :=
  PageState.setDeletedRuleIds
    (fun prev =>
       let next := prev in
       fold_left (fun next id => JsSet.add id next) ids next)
    st.

Definition handleSilenceRule (id : string) st : PageState.t F :=
  PageState.setRules
    (fun prev =>
       map (fun r =>
              if String.eqb (Rule.id r) id then
                let newStatus :=
                  match Rule.status r with
                  | StatusMuted => StatusActive
                  | _ => StatusMuted
                  end in
                Rule.withStatus newStatus r
              else r)
           prev)
    st.

(** [now] is the reading of [Date.now()]; [stampCreated] and
    [stampModified] are the two [new Date().toISOString()] readings. *)
Definition handleCloneRule (monitor : Rule.t) (now : Z)
    (stampCreated stampModified : string) st : PageState.t F :=
  let clone :=
    Rule.mk ("clone-" +:+ pretty now)
            (Rule.datasourceId monitor) (Rule.datasourceType monitor)
            (Rule.name monitor +:+ " (Copy)")
            (Rule.enabled monitor) (Rule.severity monitor)
            (Rule.query monitor) (Rule.condition monitor)
            (Rule.threshold monitor) (Rule.labels monitor)
            (Rule.annotations monitor) (Rule.monitorType monitor)
            (Rule.status monitor) (Rule.healthStatus monitor)
            (Rule.group monitor)
            "current-user" stampCreated stampModified
            (Rule.mock monitor) (Rule.raw monitor) in
  PageState.setRules (fun prev => clone :: prev) st.
End RuleOps.

(** ** Saved searches *)

Section SavedSearches.
Context {F : Type}.
Implicit Type st : PageState.t F.

(** [promptResult] is what [prompt] returned ([None] when dismissed),
    [now] the reading of [Date.now()]; [{ ...filters }] is a copy with the
    same properties. *)
Definition saveCurrentSearch (promptResult : option string) (now : Z) st
    : PageState.t F :=
  match promptResult with
  | Some name =>
      if negb (Js.truthy name) then st
      else
        PageState.setSavedSearches
          (fun prev =>
             prev ++ [SavedSearch.mk ("ss-" +:+ pretty now) name
                        (PageState.searchQuery st) (PageState.filters st)])
          st
  | None => st
  end.

Definition loadSavedSearch (ss : SavedSearch.t F) st : PageState.t F :=
  PageState.setFilters (SavedSearch.filters ss)
    (PageState.setSearchQuery (SavedSearch.query ss) st).

Definition deleteSavedSearch (id : string) st : PageState.t F :=
  PageState.setSavedSearches
    (fun prev => List.filter (fun s => negb (String.eqb (SavedSearch.id s) id)) prev)
    st.
End SavedSearches.

(** ** Filter evaluator for alerts ([filteredAlerts]) *)

(** The predicate of the free-text [filter]; [query] is already lowered. *)
Definition matchesQuery {engine : Js.Engine} (query : string) (alert : Alert.t) : bool :=
  Js.includes (Js.toLowerCase (Alert.name alert)) query
  || match Alert.message alert with
     | Some m => Js.includes (Js.toLowerCase m) query
     | None => false
     end
  || Js.includes (Js.toLowerCase (Alert.state alert)) query
  || Js.includes (Js.toLowerCase (Alert.severity alert)) query.

(** [labelVal && values.includes(labelVal)] with
    [labelVal = alert.labels[key]].  The selection holds strings, as
    declared: a member the alert inherits under [key] is truthy but not
    found in it. *)
Definition labelPasses (key : string) (values : list string) (alert : Alert.t)
    : bool :=
  let labelVal := Js.get (Alert.labels alert) key in
  Js.truthyValue labelVal && Js.arrayIncludesValue values labelVal.

Definition filteredAlerts {engine : Js.Engine}
    (alerts : list Alert.t) (alertSearchQuery : string)
    (alertFilters : AlertFilterState.t) : list Alert.t :=
  let result := alerts in
  let result :=
    if Js.truthy alertSearchQuery then
      let query := Js.toLowerCase alertSearchQuery in
      List.filter (matchesQuery query) result
    else result in
  let result :=
    if 0 <? length (AlertFilterState.state alertFilters) then
      List.filter
        (fun alert =>
           Js.arrayIncludes (AlertFilterState.state alertFilters) (Alert.state alert))
        result
    else result in
  let result :=
    if 0 <? length (AlertFilterState.severity alertFilters) then
      List.filter
        (fun alert =>
           Js.arrayIncludes (AlertFilterState.severity alertFilters)
             (Alert.severity alert))
        result
    else result in
  let result :=
    if 0 <? length (AlertFilterState.datasourceType alertFilters) then
      List.filter
        (fun alert =>
           Js.arrayIncludes (AlertFilterState.datasourceType alertFilters)
             (Alert.datasourceType alert))
        result
    else result in
  let result :=
    if 0 <? length (AlertFilterState.datasourceId alertFilters) then
      List.filter
        (fun alert =>
           Js.arrayIncludes (AlertFilterState.datasourceId alertFilters)
             (Alert.datasourceId alert))
        result
    else result in
  fold_left
    (fun result '(key, values) =>
       if 0 <? length values then List.filter (labelPasses key values) result
       else result)
    (Js.entries (AlertFilterState.labels alertFilters))
    result.

(** ** Grouping engine ([groupedAlerts], [groupedRules]) *)

(** One turn of the [forEach] body shared by both grouping loops: create
    the bucket on first sight of its key, then push the record onto it. *)
Definition groupStep {A} (keyOf : A -> string) (groups : JsMap.t (list A))
    (x : A) : JsMap.t (list A) :=
  let groupKey := keyOf x in
  let groups :=
    if negb (JsMap.has groupKey groups) then JsMap.set groupKey [] groups
    else groups in
  JsMap.update groupKey (fun members => members ++ [x]) groups.

Definition alertGroupKey (groupBy : GroupBy) (alert : Alert.t) : string :=
  match groupBy with
  | GroupDatasource => Alert.datasourceId alert
  | GroupState => Alert.state alert
  | GroupNone => "ungrouped"
  end.

(** [None] is the [null] returned when grouping is switched off. *)
Definition groupedAlerts (filteredAlerts : list Alert.t) (groupBy : GroupBy)
    : option (JsMap.t (list Alert.t)) :=
  match groupBy with
  | GroupNone => None
  | _ =>
      Some (fold_left (groupStep (alertGroupKey groupBy)) filteredAlerts
              JsMap.empty)
  end.

(** [reduce] of the breakdown columns: [acc[k] = (acc[k] || 0) + 1]. *)
Definition breakdown (field : Alert.t -> string) (groupAlerts : list Alert.t)
    : gmap string nat :=
  fold_left
    (fun acc alert => <[field alert := default 0 (acc !! field alert) + 1]> acc)
    groupAlerts ∅.

Module AlertGroupRow.
Record t : Type := mk {
  groupKey : string;
  count : nat;
  alerts : list Alert.t;
  stateBreakdown : gmap string nat;
  severityBreakdown : gmap string nat
}.
End AlertGroupRow.

(** The rows handed to the grouped table. *)
Definition alertGroupRows (groupedAlerts : JsMap.t (list Alert.t))
    : list AlertGroupRow.t :=
  map (fun '(groupKey, groupAlerts) =>
         AlertGroupRow.mk groupKey (length groupAlerts) groupAlerts
           (breakdown Alert.state groupAlerts)
           (breakdown Alert.severity groupAlerts))
      (JsMap.entries groupedAlerts).

Module RuleGroup.
Record t : Type := mk {
  groupName : string;
  rules : list Rule.t;
  ruleCount : nat;
  enabledCount : nat;
  disabledCount : nat
}.
End RuleGroup.

(** [rule.group || 'Ungrouped'] *)
Definition ruleGroupName (rule : Rule.t) : string :=
  if Js.truthyOpt (Rule.group rule) then default "" (Rule.group rule)
  else "Ungrouped".

Definition groupedRules (filteredRules : list Rule.t) : list RuleGroup.t :=
  let groups := fold_left (groupStep ruleGroupName) filteredRules JsMap.empty in
  map (fun '(groupName, rules) =>
         let enabledCount := length (List.filter Rule.enabled rules) in
         let disabledCount := length rules - enabledCount in
         RuleGroup.mk groupName rules (length rules) enabledCount disabledCount)
      (JsMap.entries groups).

(** ** Facet index ([collectUniqueValues], [collectLabelKeys],
    [collectLabelValues]) *)

Definition collectUniqueValues (alerts : list Alert.t)
    (field : Alert.t -> string) : list string :=
  let set :=
    fold_left
      (fun set a => let val := field a in
                    if Js.truthy val then JsSet.add val set else set)
      alerts JsSet.empty in
  Js.sort (JsSet.toArray set).

Definition collectLabelKeys (alerts : list Alert.t) : list string :=
  let keys :=
    fold_left
      (fun keys a =>
         fold_left (fun keys k => JsSet.add k keys) (Js.keys (Alert.labels a)) keys)
      alerts JsSet.empty in
  Js.sort (JsSet.toArray keys).

(** The values are declared strings; [a.labels[key]] gives what the object
    or its prototype has under [key], and every truthy one is added. *)
Definition collectLabelValues {engine : Js.Engine} (alerts : list Alert.t)
    (key : string) : list Js.Value :=
  let set :=
    fold_left
      (fun set a =>
         let v := Js.get (Alert.labels a) key in
         if Js.truthyValue v then JsSet.addValue v set else set)
      alerts [] in
  Js.sortValues set.

(** ** Initial load ([fetchData])

    An [async] body is a computation over the page cells and the console
    that either completes or throws; the three API calls are given by what
    their promises settle to. *)

Module Async.
Inductive Settled (A : Type) : Type :=
| Fulfilled (a : A)
| Rejected (reason : Js.Json).
Arguments Fulfilled {A}.
Arguments Rejected {A}.

Record World (F : Type) : Type := mkWorld {
  page : PageState.t F;
  console : list (string * Js.Json)
}.
Arguments mkWorld {F}.
Arguments page {F}.
Arguments console {F}.

Definition Eff (F A : Type) : Type := World F -> Settled A * World F.

Section Ops.
Context {F : Type}.

Definition ret {A} (a : A) : Eff F A := fun w => (Fulfilled a, w).

Definition throw {A} (e : Js.Json) : Eff F A := fun w => (Rejected e, w).

Definition bind {A B} (m : Eff F A) (k : A -> Eff F B) : Eff F B :=
  fun w =>
    match m w with
    | (Fulfilled a, w') => k a w'
    | (Rejected e, w') => (Rejected e, w')
    end.

(** A state setter call. *)
Definition modify (f : PageState.t F -> PageState.t F) : Eff F unit :=
  fun w => (Fulfilled tt, mkWorld (f (page w)) (console w)).

(** [console.error(msg, e)] *)
Definition consoleError (msg : string) (e : Js.Json) : Eff F unit :=
  fun w => (Fulfilled tt, mkWorld (page w) (console w ++ [(msg, e)])).

(** [await] of an already settled promise. *)
Definition await {A} (p : Settled A) : Eff F A :=
  fun w => (p, w).

(** [try { body } catch (e) { handler(e) } finally { fin }]: [fin] runs
    on every path; when it completes, the outcome of the [try]/[catch]
    part stands. *)
Definition tryCatchFinally (body : Eff F unit)
    (handler : Js.Json -> Eff F unit) (fin : Eff F unit) : Eff F unit :=
  fun w =>
    let guarded :=
      match body w with
      | (Fulfilled a, w1) => (Fulfilled a, w1)
      | (Rejected e, w1) => handler e w1
      end in
    match fin guarded.2 with
    | (Fulfilled _, w2) => (guarded.1, w2)
    | (Rejected e, w2) => (Rejected e, w2)
    end.
End Ops.

(** [Promise.all([p1, p2, p3])]: fulfilled with all three values when all
    three are fulfilled, and otherwise rejected with the reason of the
    promise that is rejected first.  [t1], [t2] and [t3] are the moments
    at which the three promises settle; the event loop settles one promise
    at a time, and for equal moments the promise written first is taken. *)
Definition promiseAll3 {A B C} (p1 : Settled A) (p2 : Settled B)
    (p3 : Settled C) (t1 t2 t3 : nat) : Settled (A * B * C) :=
  match p1, p2, p3 with
  | Fulfilled a, Fulfilled b, Fulfilled c => Fulfilled (a, b, c)
  | Rejected e1, Fulfilled _, Fulfilled _ => Rejected e1
  | Fulfilled _, Rejected e2, Fulfilled _ => Rejected e2
  | Fulfilled _, Fulfilled _, Rejected e3 => Rejected e3
  | Rejected e1, Rejected e2, Fulfilled _ => Rejected (if t2 <? t1 then e2 else e1)
  | Rejected e1, Fulfilled _, Rejected e3 => Rejected (if t3 <? t1 then e3 else e1)
  | Fulfilled _, Rejected e2, Rejected e3 => Rejected (if t3 <? t2 then e3 else e2)
  | Rejected e1, Rejected e2, Rejected e3 =>
      Rejected (if t2 <? t1 then (if t3 <? t2 then e3 else e2)
                else (if t3 <? t1 then e3 else e1))
  end.
End Async.

Notation "x <- m ;; k" := (Async.bind m (fun x => k))
  (at level 100, m at level 99, k at level 200, right associativity).
Notation "m ;;; k" := (Async.bind m (fun _ => k))
  (at level 100, k at level 200, right associativity).

(** What the three endpoints answer, and the moments at which the three
    answers arrive. *)
Module ApiClient.
Record t : Type := mk {
  listAlerts : Async.Settled (list Alert.t);
  listRules : Async.Settled (list Rule.t);
  listDatasources : Async.Settled (list Datasource.t);
  settledAt : nat * nat * nat
}.
End ApiClient.

Definition fetchData {F} (apiClient : ApiClient.t) : Async.Eff F unit :=
  Async.modify (PageState.setLoading true) ;;;
  Async.tryCatchFinally
    (res <- Async.await
              (Async.promiseAll3 (ApiClient.listAlerts apiClient)
                 (ApiClient.listRules apiClient)
                 (ApiClient.listDatasources apiClient)
                 (ApiClient.settledAt apiClient).1.1
                 (ApiClient.settledAt apiClient).1.2
                 (ApiClient.settledAt apiClient).2) ;;
     let '(a, r, d) := res in
     Async.modify (PageState.setAlerts a) ;;;
     Async.modify (PageState.setRules (fun _ => r)) ;;;
     Async.modify (PageState.setDatasources d))
    (fun e => Async.consoleError "Failed to fetch data" e)
    (Async.modify (PageState.setLoading false)).

(** The page right after mounting, before the effect has run. *)
Definition mounted {F} (emptyFilters : F) : Async.World F :=
  Async.mkWorld (PageState.initial emptyFilters) [].

(** ** Sample data

    The records of the scenarios in the specification, used to run the
    operations on concrete inputs. *)

Module Sample.
Definition rule (id name createdBy : string) (status : MonitorStatus)
    (group : option string) : Rule.t :=
  Rule.mk id "ds-2" "prometheus" name true "high" (Some "up == 0") "> 0"
          Js.JNull ∅ ∅ "metric" status "healthy" group createdBy
          "2024-01-01T00:00:00.000Z" "2024-01-01T00:00:00.000Z"
          Js.JNull Js.JNull.

Definition r1 : Rule.t := rule "r1" "X" "u1" StatusActive None.
Definition r2 : Rule.t := rule "r2" "Y" "u2" StatusMuted (Some "infra").
Definition r3 : Rule.t := rule "r3" "Z" "u1" StatusPending (Some "").

(** A rule made by an earlier clone, at clock reading 1700000000000. *)
Definition cloned : Rule.t :=
  rule "clone-1700000000000" "X (Copy)" "current-user" StatusActive None.

Definition alert (id datasourceId state severity : string)
    (labels : gmap string string) : Alert.t :=
  Alert.mk id datasourceId "prometheus" ("alert " +:+ id) state severity
           None "2024-01-01T00:00:00.000Z" "2024-01-01T00:00:00.000Z"
           labels ∅ Js.JNull.

Definition a1 : Alert.t := alert "a1" "ds-1" "active" "critical" {[ "service" := "a" ]}.
Definition a2 : Alert.t := alert "a2" "ds-2" "active" "low" {[ "service" := "b" ]}.
Definition a3 : Alert.t := alert "a3" "ds-1" "resolved" "low" ∅.
(** An alert whose [env] label is present but empty. *)
Definition a4 : Alert.t := alert "a4" "ds-1" "active" "low" {[ "env" := "" ]}.

(** A stand-in for the rule filter state: the selected severities. *)
Definition Filters : Type := list string.

Definition page : PageState.t Filters :=
  PageState.mk [a1; a2; a3] [r1; r2] JsSet.empty [] false "cpu" ["high"] []
               "" emptyAlertFilters.

(** Two saves one millisecond apart, and two saves within the same
    millisecond; each with the prompt answer, the clock reading, and the
    query and filters active at that moment. *)
Definition savesApart : list (option string * Z * string * Filters) :=
  [(Some "first", 1700000000000%Z, "cpu", ["high"]);
   (Some "second", 1700000000001%Z, "disk", [])].

Definition savesTogether : list (option string * Z * string * Filters) :=
  [(Some "first", 1700000000000%Z, "cpu", ["high"]);
   (Some "second", 1700000000000%Z, "disk", [])].
End Sample.

(** ** Vocabulary of the properties

    The predicates and reference functions the theorems are stated with. *)

(** Every cell but [rules] is the same in both states. *)
Definition sameButRules {F} (st st' : PageState.t F) : Prop :=
  PageState.alerts st' = PageState.alerts st ∧
  PageState.deletedRuleIds st' = PageState.deletedRuleIds st ∧
  PageState.datasources st' = PageState.datasources st ∧
  PageState.loading st' = PageState.loading st ∧
  PageState.searchQuery st' = PageState.searchQuery st ∧
  PageState.filters st' = PageState.filters st ∧
  PageState.savedSearches st' = PageState.savedSearches st ∧
  PageState.alertSearchQuery st' = PageState.alertSearchQuery st ∧
  PageState.alertFilters st' = PageState.alertFilters st.

(** Every field but [status] is the same in both rules. *)
Definition sameButStatus (r r' : Rule.t) : Prop :=
  Rule.id r' = Rule.id r ∧
  Rule.datasourceId r' = Rule.datasourceId r ∧
  Rule.datasourceType r' = Rule.datasourceType r ∧
  Rule.name r' = Rule.name r ∧
  Rule.enabled r' = Rule.enabled r ∧
  Rule.severity r' = Rule.severity r ∧
  Rule.query r' = Rule.query r ∧
  Rule.condition r' = Rule.condition r ∧
  Rule.threshold r' = Rule.threshold r ∧
  Rule.labels r' = Rule.labels r ∧
  Rule.annotations r' = Rule.annotations r ∧
  Rule.monitorType r' = Rule.monitorType r ∧
  Rule.healthStatus r' = Rule.healthStatus r ∧
  Rule.group r' = Rule.group r ∧
  Rule.createdBy r' = Rule.createdBy r ∧
  Rule.createdAt r' = Rule.createdAt r ∧
  Rule.lastModified r' = Rule.lastModified r ∧
  Rule.mock r' = Rule.mock r ∧
  Rule.raw r' = Rule.raw r.

(** The status a rule has after the toggle. *)
Definition toggled (s : MonitorStatus) : MonitorStatus :=
  match s with
  | StatusMuted => StatusActive
  | StatusActive | StatusPending | StatusDisabled => StatusMuted
  end.

(** The fields a clone takes over from its original. *)
Definition sameCopiedFields (r r' : Rule.t) : Prop :=
  Rule.datasourceId r' = Rule.datasourceId r ∧
  Rule.datasourceType r' = Rule.datasourceType r ∧
  Rule.enabled r' = Rule.enabled r ∧
  Rule.severity r' = Rule.severity r ∧
  Rule.query r' = Rule.query r ∧
  Rule.condition r' = Rule.condition r ∧
  Rule.threshold r' = Rule.threshold r ∧
  Rule.labels r' = Rule.labels r ∧
  Rule.annotations r' = Rule.annotations r ∧
  Rule.monitorType r' = Rule.monitorType r ∧
  Rule.status r' = Rule.status r ∧
  Rule.healthStatus r' = Rule.healthStatus r ∧
  Rule.group r' = Rule.group r ∧
  Rule.mock r' = Rule.mock r ∧
  Rule.raw r' = Rule.raw r.

(** Every cell but the active query and filters is the same. *)
Definition sameButSearch {F} (st st' : PageState.t F) : Prop :=
  PageState.alerts st' = PageState.alerts st ∧
  PageState.rules st' = PageState.rules st ∧
  PageState.deletedRuleIds st' = PageState.deletedRuleIds st ∧
  PageState.datasources st' = PageState.datasources st ∧
  PageState.loading st' = PageState.loading st ∧
  PageState.savedSearches st' = PageState.savedSearches st ∧
  PageState.alertSearchQuery st' = PageState.alertSearchQuery st ∧
  PageState.alertFilters st' = PageState.alertFilters st.

(** A run of saves: before each one the user may have changed the active
    query and filters; each save comes with the answer to the prompt and
    the clock reading. *)
Definition saveStep {F} (st : PageState.t F)
    (op : option string * Z * string * F) : PageState.t F :=
  let '(promptResult, now, q, f) := op in
  saveCurrentSearch promptResult now
    (PageState.setFilters f (PageState.setSearchQuery q st)).

Definition clockOf {F} (op : option string * Z * string * F) : Z := op.1.1.2.

Definition rejected {A} (p : Async.Settled A) : Prop :=
  ∃ reason, p = Async.Rejected reason.

(** The textual fields the free-text query is matched against. *)
Definition textFields (a : Alert.t) : list string :=
  [Alert.name a] ++ option_list (Alert.message a)
  ++ [Alert.state a; Alert.severity a].

(** [field] contains [q], letter case aside. *)
Definition containsIgnoringCase {engine : Js.Engine} (field q : string) : Prop :=
  ∃ pre post, Js.toLowerCase field = pre +:+ Js.toLowerCase q +:+ post.

Definition facetAllows (selected : list string) (value : string) : Prop :=
  selected ≠ [] → value ∈ selected.

(** The constraints an alert has to meet, with the label constraint as the
    code applies it: the label has to be there, non-empty, and selected. *)
Definition satisfies {engine : Js.Engine}
    (q : string) (fs : AlertFilterState.t) (a : Alert.t) : Prop :=
  (q ≠ "" → ∃ field, field ∈ textFields a ∧ containsIgnoringCase field q) ∧
  facetAllows (AlertFilterState.state fs) (Alert.state a) ∧
  facetAllows (AlertFilterState.severity fs) (Alert.severity a) ∧
  facetAllows (AlertFilterState.datasourceType fs) (Alert.datasourceType a) ∧
  facetAllows (AlertFilterState.datasourceId fs) (Alert.datasourceId a) ∧
  (∀ key values, AlertFilterState.labels fs !! key = Some values → values ≠ [] →
     ∃ v, Alert.labels a !! key = Some v ∧ v ≠ "" ∧ v ∈ values).

(** The same with the label constraint as the specification words it: the
    label has to be there and selected. *)
Definition satisfiesAsStated {engine : Js.Engine}
    (q : string) (fs : AlertFilterState.t) (a : Alert.t)
    : Prop :=
  (q ≠ "" → ∃ field, field ∈ textFields a ∧ containsIgnoringCase field q) ∧
  facetAllows (AlertFilterState.state fs) (Alert.state a) ∧
  facetAllows (AlertFilterState.severity fs) (Alert.severity a) ∧
  facetAllows (AlertFilterState.datasourceType fs) (Alert.datasourceType a) ∧
  facetAllows (AlertFilterState.datasourceId fs) (Alert.datasourceId a) ∧
  (∀ key values, AlertFilterState.labels fs !! key = Some values → values ≠ [] →
     ∃ v, Alert.labels a !! key = Some v ∧ v ∈ values).

(** One boolean test per stage of [filteredAlerts]. *)
Definition queryStage {engine : Js.Engine} (q : string) (a : Alert.t) : bool :=
  negb (Js.truthy q) || matchesQuery (Js.toLowerCase q) a.

Definition facetStage (selected : list string) (value : string) : bool :=
  negb (0 <? length selected) || Js.arrayIncludes selected value.

Definition labelStage (a : Alert.t) (e : string * list string) : bool :=
  negb (0 <? length e.2) || labelPasses e.1 e.2 a.

Definition passes {engine : Js.Engine}
    (q : string) (fs : AlertFilterState.t) (a : Alert.t) : bool :=
  queryStage q a
  && facetStage (AlertFilterState.state fs) (Alert.state a)
  && facetStage (AlertFilterState.severity fs) (Alert.severity a)
  && facetStage (AlertFilterState.datasourceType fs) (Alert.datasourceType a)
  && facetStage (AlertFilterState.datasourceId fs) (Alert.datasourceId a)
  && forallb (labelStage a) (Js.entries (AlertFilterState.labels fs)).


(** The option list of a label key: ascending by text, without repetition,
    holding exactly the truthy values that reading [key] gives on some
    alert.  The strings among them are the non-empty labels carried under
    [key]; a member of [Object.prototype] is among them when [key] names
    it and some alert does not carry [key]. *)
Definition labelOptions {engine : Js.Engine} (vs : list Js.Value)
    (alerts : list Alert.t) (key : string) : Prop :=
  Sorted Js.leValue vs ∧ NoDup vs ∧
  (∀ v, v ∈ vs → Js.truthyValue v = true) ∧
  (∀ v, v ∈ vs ↔
        Js.truthyValue v = true ∧ ∃ a, a ∈ alerts ∧ Js.get (Alert.labels a) key = v) ∧
  (∀ s, Js.VStr s ∈ vs ↔ s ≠ "" ∧ ∃ a, a ∈ alerts ∧ Alert.labels a !! key = Some s) ∧
  (∀ m, Js.VInherited m ∈ vs ↔
        m = key ∧ key ∈ Js.objectPrototype ∧
        ∃ a, a ∈ alerts ∧ Alert.labels a !! key = None).

(** The distinct keys of a key sequence, each at the place of its first
    appearance. *)
Fixpoint firstAppearance (ks : list string) : list string :=
  match ks with
  | [] => []
  | k :: ks' =>
      k :: List.filter (fun k' => negb (String.eqb k' k)) (firstAppearance ks')
  end.

(** The members of the bucket of [k]: the records with that key, in the
    order of the input. *)
Definition membersOf {A} (keyOf : A → string) (R : list A) (k : string) : list A :=
  List.filter (fun x => String.eqb (keyOf x) k) R.

Definition bucketsOf {A} (keyOf : A → string) (R : list A)
    : list (string * list A) :=
  (fun k => (k, membersOf keyOf R k)) <$> firstAppearance (keyOf <$> R).

(** In the key sequence [ks], [k1] shows up before [k2] does. *)
Definition appearsBefore (ks : list string) (k1 k2 : string) : Prop :=
  ∃ p, ks !! p = Some k1 ∧ ∀ p', p' ≤ p → ks !! p' ≠ Some k2.

(** [buckets] is the partition of [R] by [keyOf]: the keys are the distinct
    keys of [R] in order of first appearance, so that of two buckets the
    earlier one has the key seen first in [R]; a bucket holds the records
    with its key, in input order; together the buckets hold the records of
    [R], each as often as [R] does; and every record of [R] lies in one
    bucket and no other. *)
Definition partitions {A} (keyOf : A → string) (R : list A)
    (buckets : list (string * list A)) : Prop :=
  buckets.*1 = firstAppearance (keyOf <$> R) ∧
  (∀ i j bi bj, i < j → buckets !! i = Some bi → buckets !! j = Some bj →
     appearsBefore (keyOf <$> R) bi.1 bj.1) ∧
  (∀ i k members, buckets !! i = Some (k, members) →
     members = List.filter (fun x => String.eqb (keyOf x) k) R) ∧
  concat buckets.*2 ≡ₚ R ∧
  sum_list (length <$> buckets.*2) = length R ∧
  (∀ r, r ∈ R →
     ∃ i, (∃ b, buckets !! i = Some b ∧ r ∈ b.2) ∧
          (∀ j b, buckets !! j = Some b → r ∈ b.2 → j = i)).

(** ** Further page logic of [alarms_page.tsx] *)

(** [set.delete(x)] on a [Set<string>]. *)
Definition JsSet_delete (x : string) (s : JsSet.t) : JsSet.t :=
  List.filter (fun y => negb (String.eqb y x)) s.

(** The updater handed to [setExpandedGroupIds] by [toggleGroupExpansion]. *)
Definition toggleGroupExpansion (groupId : string) (prev : JsSet.t) : JsSet.t :=
  let next := prev in
  if JsSet.has groupId next then JsSet_delete groupId next
  else JsSet.add groupId next.

(** [new Map(datasources.map(d => [d.id, d.name]))]: the pairs are set one
    after the other. *)
Definition dsNameMap (datasources : list Datasource.t) : JsMap.t string :=
  fold_left (fun m d => JsMap.set (Datasource.id d) (Datasource.name d) m)
            datasources JsMap.empty.

(** [dsNameMap.get(id) || id], the name shown for a datasource id. *)
Definition displayName (dsNameMap : JsMap.t string) (id : string) : string :=
  if Js.truthyOpt (JsMap.get id dsNameMap) then default "" (JsMap.get id dsNameMap)
  else id.

(** The template records come from [ai_monitor_wizard], outside the sources
    at hand; these are the fields the page reads.  The two durations are
    passed on as they come. *)
Module AlertTemplate.
Record t : Type := mk {
  name : string;
  severity : string;
  query : string;
  condition : string;
  labels : gmap string string;
  annotations : gmap string string;
  description : string;
  evaluationInterval : Js.Json;
  forDuration : Js.Json
}.
End AlertTemplate.

(** The UI-only fields of a rule made on the page, as one object. *)
Definition localMock (description aiSummary : string)
    (evaluationInterval pendingPeriod firingPeriod : Js.Json) : Js.Json :=
  Js.JObj
    [("notificationDestinations", Js.JArr []);
     ("description", Js.JStr description);
     ("aiSummary", Js.JStr aiSummary);
     ("evaluationInterval", evaluationInterval);
     ("pendingPeriod", pendingPeriod);
     ("firingPeriod", firingPeriod);
     ("alertHistory", Js.JArr []);
     ("conditionPreviewData", Js.JArr []);
     ("notificationRouting", Js.JArr []);
     ("suppressionRules", Js.JArr [])].

(** The two dialog flags of the page, [showCreateMonitor] and
    [showAiWizard]; the handlers that make rules close their dialog. *)
Module Dialogs.
Record t : Type := mk {
  showCreateMonitor : bool;
  showAiWizard : bool
}.
End Dialogs.

Section LocalCreation.
Context {F : Type}.
Implicit Type st : PageState.t F.

(** [stamp] is the reading of [new Date().toISOString()], taken once
    before the templates are mapped; [clock i] is the reading of
    [Date.now()] taken inside the map for the template at index [i]. *)
Definition handleAiCreateMonitors (templates : list AlertTemplate.t)
    (clock : nat → Z) (stamp : string) st (dialogs : Dialogs.t)
    : PageState.t F * Dialogs.t :=
  let newRules :=
    imap (fun i t =>
            Rule.mk ("ai-" +:+ pretty (clock i) +:+ "-" +:+ pretty i)
                    "ds-2" "prometheus" (AlertTemplate.name t) true
                    (AlertTemplate.severity t) (Some (AlertTemplate.query t))
                    (AlertTemplate.condition t) Js.JNull
                    (AlertTemplate.labels t) (AlertTemplate.annotations t)
                    "metric" StatusActive "healthy" None
                    "ai-wizard" stamp stamp
                    (localMock (AlertTemplate.description t)
                       ("Auto-generated by AI Monitor wizard. "
                        +:+ AlertTemplate.description t)
                       (AlertTemplate.evaluationInterval t)
                       (AlertTemplate.forDuration t) (AlertTemplate.forDuration t))
                    (Js.JObj []))
         templates in
  (PageState.setRules (fun prev => newRules ++ prev) st,
   Dialogs.mk (Dialogs.showCreateMonitor dialogs) false).
End LocalCreation.

(** The form state comes from [create_monitor], outside the sources at
    hand; these are the fields the page reads.  The threshold value is a
    JavaScript number: its type, its rendering in a template and its JSON
    form are left open. *)
Module KeyValue.
Record t : Type := mk {
  key : string;
  value : string
}.
End KeyValue.

Module MonitorForm.
Record t (Num : Type) : Type := mk {
  name : string;
  enabled : bool;
  severity : string;
  query : string;
  thresholdOperator : string;
  thresholdValue : Num;
  thresholdUnit : string;
  labels : list KeyValue.t;
  annotations : list KeyValue.t;
  evaluationInterval : Js.Json;
  pendingPeriod : Js.Json;
  firingPeriod : Js.Json
}.
Arguments mk {Num}.
Arguments name {Num}.
Arguments enabled {Num}.
Arguments severity {Num}.
Arguments query {Num}.
Arguments thresholdOperator {Num}.
Arguments thresholdValue {Num}.
Arguments thresholdUnit {Num}.
Arguments labels {Num}.
Arguments annotations {Num}.
Arguments evaluationInterval {Num}.
Arguments pendingPeriod {Num}.
Arguments firingPeriod {Num}.
End MonitorForm.

(** The loop that turns the key/value rows of the form into an object:
    [if (l.key && l.value) obj[l.key] = l.value].  The assignment stores
    nothing under [__proto__]. *)
Definition rowsToObject (rows : list KeyValue.t) : gmap string string :=
  fold_left
    (fun obj l =>
       if Js.truthy (KeyValue.key l) && Js.truthy (KeyValue.value l)
       then Js.assign obj (KeyValue.key l) (KeyValue.value l)
       else obj)
    rows ∅.

Section CreateMonitor.
Context {F Num : Type}.
Context (renderNumber : Num → string) (numberJson : Num → Js.Json).
Implicit Type st : PageState.t F.

(** [now] is the reading of [Date.now()], [stamp] that of
    [new Date().toISOString()]; [description] is no member of
    [Object.prototype], so [annotationsObj.description] is an own property
    or [undefined]. *)
Definition handleCreateMonitor (formState : MonitorForm.t Num) (now : Z)
    (stamp : string) st (dialogs : Dialogs.t) : PageState.t F * Dialogs.t :=
  let labelsObj := rowsToObject (MonitorForm.labels formState) in
  let annotationsObj := rowsToObject (MonitorForm.annotations formState) in
  let newRule :=
    Rule.mk ("new-" +:+ pretty now) "ds-2" "prometheus"
            (MonitorForm.name formState) (MonitorForm.enabled formState)
            (MonitorForm.severity formState) (Some (MonitorForm.query formState))
            (MonitorForm.thresholdOperator formState +:+ " "
             +:+ renderNumber (MonitorForm.thresholdValue formState)
             +:+ MonitorForm.thresholdUnit formState)
            (Js.JObj
               [("operator", Js.JStr (MonitorForm.thresholdOperator formState));
                ("value", numberJson (MonitorForm.thresholdValue formState));
                ("unit", Js.JStr (MonitorForm.thresholdUnit formState))])
            labelsObj annotationsObj "metric"
            (if MonitorForm.enabled formState then StatusActive else StatusDisabled)
            "healthy" None "current-user" stamp stamp
            (localMock
               (if Js.truthyOpt (annotationsObj !! "description")
                then default "" (annotationsObj !! "description") else "")
               "Newly created monitor. No historical data available yet."
               (MonitorForm.evaluationInterval formState)
               (MonitorForm.pendingPeriod formState)
               (MonitorForm.firingPeriod formState))
            (Js.JObj []) in
  (PageState.setRules (fun prev => newRule :: prev) st,
   Dialogs.mk false (Dialogs.showAiWizard dialogs)).
End CreateMonitor.

(** ** Vocabulary of the further properties *)

(** The part of a string after its last dash; the string itself when it
    has none. *)
Fixpoint hasDash (s : string) : bool :=
  match s with
  | EmptyString => false
  | String c s' => Ascii.eqb c "-" || hasDash s'
  end.

Fixpoint afterLastDash (s : string) : string :=
  match s with
  | EmptyString => EmptyString
  | String c s' =>
      if hasDash s' then afterLastDash s'
      else if Ascii.eqb c "-" then s' else s
  end.

(** How many records of [l] have the key [k]. *)
Definition occurrences {A} (keyOf : A → string) (l : list A) (k : string) : nat :=
  length (List.filter (fun x => String.eqb (keyOf x) k) l).

(** The sum of the counts of a count object. *)
Definition total (counts : gmap string nat) : nat :=
  map_fold (fun _ n acc => n + acc) 0 counts.

(** The form row that decides the entry of [k], for [k] other than
    [__proto__]: the last one with that key whose key and value are both
    non-empty. *)
Definition decidingRow (rows : list KeyValue.t) (k : string) : option KeyValue.t :=
  last (List.filter
          (fun l => String.eqb (KeyValue.key l) k
                    && (Js.truthy (KeyValue.key l) && Js.truthy (KeyValue.value l)))
          rows).

(** More sample data: datasources, templates and a form. *)
Module Fixture.
Definition ds1 : Datasource.t :=
  Datasource.mk "ds-1" "OpenSearch prod" "opensearch" "https://os.example" true.
Definition ds2 : Datasource.t :=
  Datasource.mk "ds-2" "" "prometheus" "https://prom.example" true.
Definition ds1' : Datasource.t :=
  Datasource.mk "ds-1" "OpenSearch (renamed)" "opensearch" "https://os.example" true.

Definition template (name description : string) : AlertTemplate.t :=
  AlertTemplate.mk name "high" "up == 0" "== 0" {[ "team" := "sre" ]} ∅
                   description (Js.JStr "1m") (Js.JStr "5m").

Definition form (enabled : bool) : MonitorForm.t Z :=
  MonitorForm.mk "Disk full" enabled "critical" "disk_used > 90" ">" 90%Z "%"
    [KeyValue.mk "team" "sre"; KeyValue.mk "" "x"; KeyValue.mk "env" "";
     KeyValue.mk "team" "db"]
    [KeyValue.mk "description" "Disk is filling up"]
    (Js.JStr "1m") (Js.JStr "5m") (Js.JStr "5m").
End Fixture.

(** ** The filter panel ([alerts_filters_panel]) *)

(** [Object.values] of a record. *)
Definition Js_values {V} (o : gmap string V) : list V := (map_to_list o).*2.

Definition activeFilterCount (filters : AlertFilterState.t) : nat :=
  let count := 0 in
  let count := count + length (AlertFilterState.state filters) in
  let count := count + length (AlertFilterState.severity filters) in
  let count := count + length (AlertFilterState.datasourceType filters) in
  let count := count + length (AlertFilterState.datasourceId filters) in
  fold_left (fun count vals => count + length vals)
            (Js_values (AlertFilterState.labels filters)) count.

Module FacetCounts.
Record t : Type := mk {
  state : gmap string nat;
  severity : gmap string nat;
  datasourceType : gmap string nat;
  datasourceId : gmap string nat
}.
End FacetCounts.

(** What a label counter holds under a name: a number, or a text once the
    count has gone through a member of [Object.prototype]. *)
Inductive Count : Type :=
| CNum (n : nat)
| CText (s : string).

(** [(counter[name] || 0) + 1] on a plain object: an own number is
    incremented, an own text gets ["1"] appended, and when the name is not
    an own property but a member of [Object.prototype], that member is
    turned into text and gets ["1"] appended. *)
Definition bump {engine : Js.Engine} (counter : gmap string Count) (name : string)
    : Count :=
  match counter !! name with
  | Some (CNum n) => CNum (n + 1)
  | Some (CText s) => if Js.truthy s then CText (s +:+ "1") else CNum 1
  | None =>
      if Js.inherited name then CText (Js.toText (Js.VInherited name) +:+ "1")
      else CNum 1
  end.

(** The object [labelCounts]: its own properties, and the object that took
    the place of its prototype, if one did. *)
Module LabelCounts.
Record t : Type := mk {
  own : gmap string (gmap string Count);
  proto : option (gmap string Count)
}.

Definition empty : t := mk ∅ None.

(** The place [labelCounts[key]] is stored in and read from inside the
    loop: [__proto__] goes through the accessor, which sets and gets the
    prototype; any other key is an own property. *)
Definition slot (key : string) (labelCounts : t) : option (gmap string Count) :=
  if String.eqb key "__proto__" then proto labelCounts else own labelCounts !! key.

Definition write (key : string) (counter : gmap string Count) (labelCounts : t) : t :=
  if String.eqb key "__proto__" then mk (own labelCounts) (Some counter)
  else mk (<[key := counter]> (own labelCounts)) (proto labelCounts).

(** [labelCounts[key]] after [labelCounts[key] = {}] *)
Definition counter (key : string) (labelCounts : t) : gmap string Count :=
  default ∅ (slot key labelCounts).
End LabelCounts.

(** The body of the inner label loop:
    [if (v) labelCounts[key][v] = (labelCounts[key][v] || 0) + 1]
    with [v = a.labels[key]]; as a property name [v] is turned into
    text. *)
Definition countTurn {engine : Js.Engine} (key : string)
    (labelCounts : LabelCounts.t) (a : Alert.t) : LabelCounts.t :=
  let v := Js.get (Alert.labels a) key in
  if Js.truthyValue v then
    let counter := LabelCounts.counter key labelCounts in
    let name := Js.toText v in
    LabelCounts.write key (Js.assign counter name (bump counter name)) labelCounts
  else labelCounts.

(** The [useMemo] of [facetCounts]: one pass over the alerts for the four
    standard facets, then one pass per label key.  The result is the pair
    [{ counts, labelCounts }]. *)
Definition facetCounts {engine : Js.Engine} (alerts : list Alert.t)
    (labelKeys : list string) : FacetCounts.t * LabelCounts.t :=
  let counts :=
    fold_left
      (fun counts a =>
         FacetCounts.mk
           (<[Alert.state a :=
                default 0 (FacetCounts.state counts !! Alert.state a) + 1]>
              (FacetCounts.state counts))
           (<[Alert.severity a :=
                default 0 (FacetCounts.severity counts !! Alert.severity a) + 1]>
              (FacetCounts.severity counts))
           (<[Alert.datasourceType a :=
                default 0 (FacetCounts.datasourceType counts !! Alert.datasourceType a) + 1]>
              (FacetCounts.datasourceType counts))
           (<[Alert.datasourceId a :=
                default 0 (FacetCounts.datasourceId counts !! Alert.datasourceId a) + 1]>
              (FacetCounts.datasourceId counts)))
      alerts (FacetCounts.mk ∅ ∅ ∅ ∅) in
  let labelCounts :=
    fold_left
      (fun labelCounts key =>
         let labelCounts := LabelCounts.write key ∅ labelCounts in
         fold_left (countTurn key) alerts labelCounts)
      labelKeys LabelCounts.empty in
  (counts, labelCounts).

(** [counts[opt] || 0], the number shown next to an option. *)
Definition shownCount (counts : gmap string nat) (opt : string) : nat :=
  default 0 (counts !! opt).

(** [facetCounts.labelCounts[key] || {}], read when the group of [key] is
    drawn.  The result is a counter when [key] is one the loop went
    through, and the empty object when nothing is found.  [None] stands
    for what else the read can find up the prototype chain, none of it a
    counter: a count stored in the object that took the place of the
    prototype, or a member of [Object.prototype]. *)
Definition labelCountsOf (labelCounts : LabelCounts.t) (key : string)
    : option (gmap string Count) :=
  if String.eqb key "__proto__" then LabelCounts.proto labelCounts
  else
    match LabelCounts.own labelCounts !! key with
    | Some counter => Some counter
    | None =>
        let inProto :=
          match LabelCounts.proto labelCounts with
          | Some p => bool_decide (is_Some (p !! key))
          | None => false
          end in
        if inProto || Js.inherited key then None else Some ∅
    end.

(** What stands next to an option of a label group. *)
Inductive Shown : Type :=
| ShownNumber (n : nat)
| ShownText (s : string)
| ShownMember (member : string).

(** [counts[name] || 0] on a label counter *)
Definition shownLabelCount (counts : gmap string Count) (name : string) : Shown :=
  match counts !! name with
  | Some (CNum n) => ShownNumber n
  | Some (CText s) => if Js.truthy s then ShownText s else ShownNumber 0
  | None => if Js.inherited name then ShownMember name else ShownNumber 0
  end.

(** The selection a facet checkbox hands to [onChange] when clicked. *)
Definition facetCheckboxChange (selected : list string) (opt : string)
    : list string :=
  let isActive := Js.arrayIncludes selected opt in
  if isActive then List.filter (fun s => negb (String.eqb s opt)) selected
  else selected ++ [opt].

(** The key and value of an [updateFilter] call. *)
Inductive FilterEdit : Type :=
| EditState (value : list string)
| EditSeverity (value : list string)
| EditDatasourceType (value : list string)
| EditDatasourceId (value : list string)
| EditLabels (value : gmap string (list string))
| EditGroupBy (value : GroupBy).

(** [{ ...filters, [key]: value }], the state handed to [onFiltersChange]. *)
Definition updateFilter (filters : AlertFilterState.t) (edit : FilterEdit)
    : AlertFilterState.t :=
  match edit with
  | EditState value =>
      AlertFilterState.mk value (AlertFilterState.severity filters)
        (AlertFilterState.datasourceType filters)
        (AlertFilterState.datasourceId filters)
        (AlertFilterState.labels filters) (AlertFilterState.groupBy filters)
  | EditSeverity value =>
      AlertFilterState.mk (AlertFilterState.state filters) value
        (AlertFilterState.datasourceType filters)
        (AlertFilterState.datasourceId filters)
        (AlertFilterState.labels filters) (AlertFilterState.groupBy filters)
  | EditDatasourceType value =>
      AlertFilterState.mk (AlertFilterState.state filters)
        (AlertFilterState.severity filters) value
        (AlertFilterState.datasourceId filters)
        (AlertFilterState.labels filters) (AlertFilterState.groupBy filters)
  | EditDatasourceId value =>
      AlertFilterState.mk (AlertFilterState.state filters)
        (AlertFilterState.severity filters)
        (AlertFilterState.datasourceType filters) value
        (AlertFilterState.labels filters) (AlertFilterState.groupBy filters)
  | EditLabels value =>
      AlertFilterState.mk (AlertFilterState.state filters)
        (AlertFilterState.severity filters)
        (AlertFilterState.datasourceType filters)
        (AlertFilterState.datasourceId filters) value
        (AlertFilterState.groupBy filters)
  | EditGroupBy value =>
      AlertFilterState.mk (AlertFilterState.state filters)
        (AlertFilterState.severity filters)
        (AlertFilterState.datasourceType filters)
        (AlertFilterState.datasourceId filters)
        (AlertFilterState.labels filters) value
  end.

(** [{ ...filters, labels: { ...filters.labels, [key]: values } }] *)
Definition updateLabelFilter (filters : AlertFilterState.t) (key : string)
    (values : list string) : AlertFilterState.t :=
  AlertFilterState.mk (AlertFilterState.state filters)
    (AlertFilterState.severity filters)
    (AlertFilterState.datasourceType filters)
    (AlertFilterState.datasourceId filters)
    (<[key := values]> (AlertFilterState.labels filters))
    (AlertFilterState.groupBy filters).

Definition clearAllFilters : AlertFilterState.t := emptyAlertFilters.

(** [filters.labels[key] || []], the selection handed to the group of a
    label key when it is drawn.  [None] when the read finds a member of
    [Object.prototype] instead of an array: the group then cannot be drawn
    ([selected.includes] is not a function). *)
Definition selectedLabels (filters : AlertFilterState.t) (key : string)
    : option (list string) :=
  match AlertFilterState.labels filters !! key with
  | Some values => Some values
  | None => if Js.inherited key then None else Some []
  end.

(** What the panel can hand to [onFiltersChange] from the state [filters],
    the alerts at hand being [alerts]: a click on a checkbox of a standard
    facet (the backend group is drawn by the earlier revision of the panel
    only), a click on a checkbox of a label group, a choice of grouping,
    and the Clear button.  The options of a label group are the values
    collected for its key.  A click needs the group drawn, so the read of
    the selection has to give an array; the options of such a group are
    strings ([drawn_label_group_offers_strings]). *)
Inductive panelStep {engine : Js.Engine} (alerts : list Alert.t)
    (filters : AlertFilterState.t) : AlertFilterState.t → Prop :=
| ClickState (opt : string) :
    opt ∈ collectUniqueValues alerts Alert.state →
    panelStep alerts filters
      (updateFilter filters
         (EditState (facetCheckboxChange (AlertFilterState.state filters) opt)))
| ClickSeverity (opt : string) :
    opt ∈ collectUniqueValues alerts Alert.severity →
    panelStep alerts filters
      (updateFilter filters
         (EditSeverity (facetCheckboxChange (AlertFilterState.severity filters) opt)))
| ClickBackend (opt : string) :
    opt ∈ collectUniqueValues alerts Alert.datasourceType →
    panelStep alerts filters
      (updateFilter filters
         (EditDatasourceType
            (facetCheckboxChange (AlertFilterState.datasourceType filters) opt)))
| ClickDatasource (opt : string) :
    opt ∈ collectUniqueValues alerts Alert.datasourceId →
    panelStep alerts filters
      (updateFilter filters
         (EditDatasourceId
            (facetCheckboxChange (AlertFilterState.datasourceId filters) opt)))
| ClickLabel (key opt : string) (selected : list string) :
    key ∈ collectLabelKeys alerts →
    Js.VStr opt ∈ collectLabelValues alerts key →
    selectedLabels filters key = Some selected →
    panelStep alerts filters
      (updateLabelFilter filters key (facetCheckboxChange selected opt))
| ChooseGroupBy (g : GroupBy) :
    panelStep alerts filters (updateFilter filters (EditGroupBy g))
| ClearAll :
    panelStep alerts filters clearAllFilters.

(** The filter states the panel can bring about, starting from the empty
    one the page is mounted with; the alerts may change between clicks. *)
Inductive panelReachable {engine : Js.Engine} : AlertFilterState.t → Prop :=
| reach_start : panelReachable emptyAlertFilters
| reach_step (alerts : list Alert.t) (filters filters' : AlertFilterState.t) :
    panelReachable filters → panelStep alerts filters filters' →
    panelReachable filters'.

(** No label selection holds the empty string. *)
Definition noEmptyLabelSelected (filters : AlertFilterState.t) : Prop :=
  ∀ key values, AlertFilterState.labels filters !! key = Some values → "" ∉ values.

(** No label key with a selection is named like a member of
    [Object.prototype]. *)
Definition noMemberKeySelected (filters : AlertFilterState.t) : Prop :=
  ∀ key, is_Some (AlertFilterState.labels filters !! key) → Js.inherited key = false.

(** The label of an alert under [key], empty when it has none. *)
Definition labelOf (key : string) (a : Alert.t) : string :=
  default "" (Alert.labels a !! key).

(** A filter state with one value selected in one standard facet. *)
Definition onlyState (v : string) (g : GroupBy) : AlertFilterState.t :=
  AlertFilterState.mk [v] [] [] [] ∅ g.
Definition onlyLabel (key v : string) (g : GroupBy) : AlertFilterState.t :=
  AlertFilterState.mk [] [] [] [] {[ key := [v] ]} g.

(** ** The rules tab of the earlier page ([part_001]) *)

(** The number of bytes the first character takes: the count its first
    byte announces, as in [Js.codeUnits]. *)
Definition firstCharBytes (s : string) : nat :=
  match s with
  | EmptyString => 0
  | String c _ =>
      let n := Ascii.N_of_ascii c in
      if (n <? 192)%N then 1 else if (n <? 224)%N then 2
      else if (n <? 240)%N then 3 else 4
  end.

Fixpoint splitAt (n : nat) (s : string) : string * string :=
  match n, s with
  | S n', String c s' => let '(first, rest) := splitAt n' s' in (String c first, rest)
  | _, _ => (EmptyString, s)
  end.

(** [s.charAt(0).toUpperCase() + s.slice(1)].  [charAt(0)] is the first
    code unit, [slice(1)] the units after it.  The first unit is the first
    character when that takes up to three bytes.  When it takes four, the
    first unit is half of a surrogate pair: no case conversion changes it,
    and joined with the rest it gives [s] back. *)
Definition capitalised {engine : Js.Engine} (s : string) : string :=
  let bytes := firstCharBytes s in
  if bytes =? 4 then s
  else
    let '(first, rest) := splitAt bytes s in
    Js.toUpperCase first +:+ rest.

(** [opt?.toLowerCase().includes(query)] on an optional field. *)
Definition optIncludes {engine : Js.Engine}
    (field : option string) (query : string) : bool :=
  match field with
  | Some s => Js.includes (Js.toLowerCase s) query
  | None => false
  end.

(** The cells are [rules], [searchQuery], [statusFilter], [severityFilter]
    and [backendFilter]; the callback leaves at the first check that
    fails. *)
Definition filteredRules {engine : Js.Engine} (rules : list Rule.t) (searchQuery : string)
    (statusFilter severityFilter backendFilter : list string) : list Rule.t :=
  List.filter
    (fun rule =>
       if (if Js.truthy searchQuery then
             let query := Js.toLowerCase searchQuery in
             let matchesSearch :=
               Js.includes (Js.toLowerCase (Rule.name rule)) query
               || optIncludes (Rule.query rule) query
               || optIncludes (Rule.group rule) query in
             negb matchesSearch
           else false)
       then false
       else if (if 0 <? length statusFilter then
                  let status := if Rule.enabled rule then "enabled" else "disabled" in
                  negb (Js.arrayIncludes statusFilter status)
                else false)
       then false
       else if (if 0 <? length severityFilter then
                  negb (Js.arrayIncludes severityFilter (Rule.severity rule))
                else false)
       then false
       else if (if 0 <? length backendFilter then
                  negb (Js.arrayIncludes backendFilter (Rule.datasourceType rule))
                else false)
       then false
       else true)
    rules.

(** An option of a selectable list; [checked] is ['on'] or [undefined]. *)
Module SelectableOption.
Record t : Type := mk {
  label : string;
  checked : option string
}.
End SelectableOption.

Definition statusOptions (statusFilter : list string) : list SelectableOption.t :=
  [SelectableOption.mk "Enabled"
     (if Js.arrayIncludes statusFilter "enabled" then Some "on" else None);
   SelectableOption.mk "Disabled"
     (if Js.arrayIncludes statusFilter "disabled" then Some "on" else None)].

(** [Array.from(new Set(values))] *)
Definition distinctValues (values : list string) : list string :=
  JsSet.toArray (fold_left (fun set v => JsSet.add v set) values JsSet.empty).

Definition severityOptions {engine : Js.Engine}
    (rules : list Rule.t) (severityFilter : list string)
    : list SelectableOption.t :=
  let severities := distinctValues (map Rule.severity rules) in
  map (fun s =>
         SelectableOption.mk (capitalised s)
           (if Js.arrayIncludes severityFilter s then Some "on" else None))
      severities.

Definition backendOptions {engine : Js.Engine}
    (rules : list Rule.t) (backendFilter : list string)
    : list SelectableOption.t :=
  let backends := distinctValues (map Rule.datasourceType rules) in
  map (fun b =>
         SelectableOption.mk (capitalised b)
           (if Js.arrayIncludes backendFilter b then Some "on" else None))
      backends.

(** [o.checked === 'on'] *)
Definition isOn (o : SelectableOption.t) : bool :=
  match SelectableOption.checked o with
  | Some c => String.eqb c "on"
  | None => false
  end.

(** The three change handlers; each returns the selection it stores. *)
Definition handleStatusFilterChange {engine : Js.Engine}
    (options : list SelectableOption.t)
    : list string :=
  let selected :=
    map (fun o => Js.toLowerCase (SelectableOption.label o)) (List.filter isOn options) in
  selected.

Definition handleSeverityFilterChange {engine : Js.Engine}
    (options : list SelectableOption.t)
    : list string :=
  let selected :=
    map (fun o => Js.toLowerCase (SelectableOption.label o)) (List.filter isOn options) in
  selected.

Definition handleBackendFilterChange {engine : Js.Engine}
    (options : list SelectableOption.t)
    : list string :=
  let selected :=
    map (fun o => Js.toLowerCase (SelectableOption.label o)) (List.filter isOn options) in
  selected.

Definition ruleActiveFilterCount (statusFilter severityFilter backendFilter : list string)
    : nat :=
  length statusFilter + length severityFilter + length backendFilter.

(** What [renderTable] shows on the rules tab. *)
Inductive RulesView : Type :=
| NoRulesPrompt
| NoMatchingRulesPrompt
| GroupedRulesTable (items : list RuleGroup.t)
| FlatRulesTable (items : list Rule.t).

Definition renderRulesTable (loading : bool) (rules filteredRules : list Rule.t)
    (searchQuery : string) (activeFilterCount : nat) (groupByEnabled : bool)
    (groupedRules : list RuleGroup.t) : RulesView :=
  if negb loading && (length rules =? 0) then NoRulesPrompt
  else if negb loading && (length filteredRules =? 0)
          && (Js.truthy searchQuery || (0 <? activeFilterCount))
  then NoMatchingRulesPrompt
  else if groupByEnabled then GroupedRulesTable groupedRules
  else FlatRulesTable filteredRules.

(** What [renderTable] shows on the alerts tab of [alarms_page.tsx]. *)
Inductive AlertsView : Type :=
| NoActiveAlertsPrompt
| NoMatchingAlertsPrompt
| GroupedAlertsTable (items : list AlertGroupRow.t)
| FlatAlertsTable (items : list Alert.t).

Definition renderAlertsTable (loading : bool) (alerts filteredAlerts : list Alert.t)
    (groupedAlerts : option (JsMap.t (list Alert.t))) : AlertsView :=
  if negb loading && (length filteredAlerts =? 0) then
    if length alerts =? 0 then NoActiveAlertsPrompt else NoMatchingAlertsPrompt
  else
    match groupedAlerts with
    | Some groups => GroupedAlertsTable (alertGroupRows groups)
    | None => FlatAlertsTable filteredAlerts
    end.

(** The constraints a rule has to meet on the rules tab. *)
Definition ruleTextFields (rule : Rule.t) : list string :=
  [Rule.name rule] ++ option_list (Rule.query rule) ++ option_list (Rule.group rule).

Definition ruleSatisfies {engine : Js.Engine}
    (q : string) (statusFilter severityFilter backendFilter : list string)
    (rule : Rule.t) : Prop :=
  (q ≠ "" → ∃ field, field ∈ ruleTextFields rule ∧ containsIgnoringCase field q) ∧
  facetAllows statusFilter (if Rule.enabled rule then "enabled" else "disabled") ∧
  facetAllows severityFilter (Rule.severity rule) ∧
  facetAllows backendFilter (Rule.datasourceType rule).

(** The name an alert is counted under for [key], if it is counted. *)
Definition countedAs {engine : Js.Engine} (key : string) (a : Alert.t) : option string :=
  let v := Js.get (Alert.labels a) key in
  if Js.truthyValue v then Some (Js.toText v) else None.

(** The counter the inner loop builds for [key], seen on its own. *)
Definition counterTurn {engine : Js.Engine} (key : string)
    (counter : gmap string Count) (a : Alert.t) : gmap string Count :=
  let v := Js.get (Alert.labels a) key in
  if Js.truthyValue v then
    Js.assign counter (Js.toText v) (bump counter (Js.toText v))
  else counter.

Definition countLabel {engine : Js.Engine} (key : string) (alerts : list Alert.t)
    : gmap string Count :=
  fold_left (counterTurn key) alerts ∅.

(** How many alerts are counted under [name] for [key]. *)
Definition timesCounted {engine : Js.Engine} (key : string) (alerts : list Alert.t)
    (name : string) : nat :=
  length (List.filter (fun a => bool_decide (countedAs key a = Some name)) alerts).

(** The items of the nested tables of the grouped alert table, by expanded
    group id: [Object.fromEntries] over the expanded ids, each with
    [groupedAlerts.get(groupId) || []]. *)
Definition expandedRowItems (groupedAlerts : JsMap.t (list Alert.t))
    (expandedGroupIds : JsSet.t) : gmap string (list Alert.t) :=
  fold_left
    (fun obj '(groupId, items) => <[groupId := items]> obj)
    (map (fun groupId => (groupId, default [] (JsMap.get groupId groupedAlerts)))
         (JsSet.toArray expandedGroupIds))
    ∅.

(** * Properties *)

(** ** Membership tests *)

(** Case analysis on membership in a list that is written out. *)
Ltac elem_cases H :=
  repeat (apply elem_of_cons in H as [-> | H]);
  try (by apply elem_of_nil in H).

Lemma arrayIncludes_true (arr : list string) (x : string) :
  Js.arrayIncludes arr x = true ↔ x ∈ arr.
Proof.
  unfold Js.arrayIncludes. rewrite existsb_exists. split.
  - intros (y & Hy & Heq). apply String.eqb_eq in Heq. subst y.
    by apply list_elem_of_In.
  - intros Hx. exists x. split; [by apply list_elem_of_In | apply String.eqb_refl].
Qed.

Lemma arrayIncludes_false (arr : list string) (x : string) :
  Js.arrayIncludes arr x = false ↔ x ∉ arr.
Proof.
  rewrite <- arrayIncludes_true. destruct (Js.arrayIncludes arr x); naive_solver.
Qed.

Lemma truthy_true (s : string) : Js.truthy s = true ↔ s ≠ "".
Proof.
  unfold Js.truthy. rewrite negb_true_iff. apply String.eqb_neq.
Qed.

Lemma truthy_false (s : string) : Js.truthy s = false ↔ s = "".
Proof.
  unfold Js.truthy. rewrite negb_false_iff. apply String.eqb_eq.
Qed.

Lemma JsSet_has_true (x : string) (s : JsSet.t) :
  JsSet.has x s = true ↔ x ∈ s.
Proof. apply arrayIncludes_true. Qed.

Lemma JsSet_elem_of_add (x y : string) (s : JsSet.t) :
  x ∈ JsSet.add y s ↔ x = y ∨ x ∈ s.
Proof.
  unfold JsSet.add. destruct (JsSet.has y s) eqn:Hy.
  - apply JsSet_has_true in Hy. naive_solver.
  - rewrite elem_of_app, list_elem_of_singleton. naive_solver.
Qed.

Lemma JsSet_add_present (y : string) (s : JsSet.t) :
  y ∈ s → JsSet.add y s = s.
Proof.
  intros Hy. unfold JsSet.add. apply JsSet_has_true in Hy. by rewrite Hy.
Qed.

Lemma JsSet_NoDup_add (y : string) (s : JsSet.t) :
  NoDup s → NoDup (JsSet.add y s).
Proof.
  intros Hs. unfold JsSet.add. destruct (JsSet.has y s) eqn:Hy; [done|].
  apply arrayIncludes_false in Hy.
  apply NoDup_app. split_and!; [done| |apply NoDup_singleton].
  intros x Hx ->%list_elem_of_singleton. done.
Qed.

Lemma JsSet_elem_of_add_all (x : string) (ids : list string) (s : JsSet.t) :
  x ∈ fold_left (fun next id => JsSet.add id next) ids s ↔ x ∈ ids ∨ x ∈ s.
Proof.
  revert s. induction ids as [|id ids IH]; intros s; simpl.
  - rewrite elem_of_nil. naive_solver.
  - rewrite IH, JsSet_elem_of_add, elem_of_cons. naive_solver.
Qed.

Lemma JsSet_add_all_present (ids : list string) (s : JsSet.t) :
  (∀ id, id ∈ ids → id ∈ s) →
  fold_left (fun next id => JsSet.add id next) ids s = s.
Proof.
  revert s. induction ids as [|id ids IH]; intros s Hall; simpl; [done|].
  rewrite JsSet_add_present by (apply Hall; left).
  apply IH. intros id' Hid'. apply Hall. by right.
Qed.

Lemma filter_filter_andb {A} (f g : A → bool) (l : list A) :
  List.filter g (List.filter f l) = List.filter (fun x => f x && g x) l.
Proof.
  induction l as [|x l IH]; simpl; [done|].
  destruct (f x); simpl; [destruct (g x)|]; by rewrite IH.
Qed.

Lemma map_fixes {A} (f : A → A) (l : list A) :
  (∀ x, x ∈ l → f x = x) → map f l = l.
Proof.
  induction l as [|x l IH]; intros Hf; simpl; [done|].
  rewrite Hf by left. rewrite IH; [done|]. intros y Hy. apply Hf. by right.
Qed.

Lemma elem_of_List_filter {A} (f : A → bool) (l : list A) (x : A) :
  x ∈ List.filter f l ↔ x ∈ l ∧ f x = true.
Proof. rewrite !list_elem_of_In. apply List.filter_In. Qed.

Lemma List_filter_ext {A} (f g : A → bool) (l : list A) :
  (∀ x, x ∈ l → f x = g x) → List.filter f l = List.filter g l.
Proof.
  intros Hext. apply List.filter_ext_in. intros x Hx. apply Hext.
  by apply list_elem_of_In.
Qed.

(** ** Silencing a rule *)

Lemma silence_lookup {F} (id : string) (st : PageState.t F) (i : nat) :
  PageState.rules (handleSilenceRule id st) !! i =
  (fun r => if String.eqb (Rule.id r) id
            then Rule.withStatus (toggled (Rule.status r)) r else r)
    <$> PageState.rules st !! i.
Proof.
  unfold handleSilenceRule. simpl. rewrite list_lookup_fmap.
  destruct (PageState.rules st !! i) as [r|]; simpl; [|done].
  destruct (String.eqb (Rule.id r) id); [|done].
  by destruct (Rule.status r).
Qed.

(** C7. Silence/unsilence(id) toggles the status of the rule carrying that
    id: a muted rule becomes active, a rule in any other status becomes
    muted.  When no rule carries the id the page state comes back as it was;
    the handler is a total function, it has no failing path. *)
Theorem silence_toggles_status {F} (id : string) (st : PageState.t F) :
  (∀ i r, PageState.rules st !! i = Some r → Rule.id r = id →
     ∃ r', PageState.rules (handleSilenceRule id st) !! i = Some r' ∧
           (Rule.status r = StatusMuted → Rule.status r' = StatusActive) ∧
           (Rule.status r ≠ StatusMuted → Rule.status r' = StatusMuted)) ∧
  ((∀ r, r ∈ PageState.rules st → Rule.id r ≠ id) →
     handleSilenceRule id st = st).
Proof.
  split.
  - intros i r Hi Hid. rewrite silence_lookup, Hi. simpl.
    apply String.eqb_eq in Hid. rewrite Hid.
    eexists. split; [done|]. simpl.
    destruct (Rule.status r); naive_solver.
  - intros Hno. destruct st as [al rs del ds ld q fl sv aq af].
    unfold handleSilenceRule, PageState.setRules. simpl in *. f_equal.
    apply map_fixes. intros r Hr. apply Hno in Hr.
    apply String.eqb_neq in Hr. by rewrite Hr.
Qed.

Lemma silence_toggles_status_witness :
  (∃ r', PageState.rules (handleSilenceRule "r2" Sample.page) !! 1 = Some r' ∧
         Rule.status r' = StatusActive) ∧
  (∃ r', PageState.rules (handleSilenceRule "r1" Sample.page) !! 0 = Some r' ∧
         Rule.status r' = StatusMuted) ∧
  handleSilenceRule "r9" Sample.page = Sample.page.
Proof.
  split_and!.
  - destruct (proj1 (silence_toggles_status "r2" Sample.page) 1 Sample.r2
                eq_refl eq_refl) as (r' & Hr' & Hmuted & _).
    exists r'. split; [exact Hr' | apply Hmuted; reflexivity].
  - destruct (proj1 (silence_toggles_status "r1" Sample.page) 0 Sample.r1
                eq_refl eq_refl) as (r' & Hr' & _ & Hother).
    exists r'. split; [exact Hr' | apply Hother; discriminate].
  - apply (proj2 (silence_toggles_status "r9" Sample.page)).
    intros r Hr. vm_compute in Hr. elem_cases Hr; discriminate.
Defined.

(** C10. Silence/unsilence(id) touches nothing but the [status] field of
    the rules carrying the id: the list keeps its length and its order,
    a rule with another id is returned as it was, a rule with the id keeps
    all its other fields, and no other cell of the page changes. *)
Theorem silence_changes_status_only {F} (id : string) (st : PageState.t F) :
  length (PageState.rules (handleSilenceRule id st)) = length (PageState.rules st) ∧
  (∀ i r, PageState.rules st !! i = Some r →
     ∃ r', PageState.rules (handleSilenceRule id st) !! i = Some r' ∧
           sameButStatus r r' ∧
           (Rule.id r ≠ id → r' = r)) ∧
  sameButRules st (handleSilenceRule id st).
Proof.
  split_and!.
  - unfold handleSilenceRule. simpl. apply length_fmap.
  - intros i r Hi. rewrite silence_lookup, Hi. simpl.
    eexists. split; [done|].
    destruct (String.eqb (Rule.id r) id) eqn:Hid.
    + split; [by repeat split|]. apply String.eqb_eq in Hid. done.
    + split; [by repeat split | done].
  - by repeat split.
Qed.

Lemma silence_changes_status_only_witness :
  ∃ r', PageState.rules (handleSilenceRule "r2" Sample.page) !! 0 = Some r' ∧
        sameButStatus Sample.r1 r' ∧ r' = Sample.r1.
Proof.
  destruct (proj1 (proj2 (silence_changes_status_only "r2" Sample.page))
              0 Sample.r1 eq_refl) as (r' & Hr' & Hsame & Hother).
  exists r'. split_and!; [exact Hr' | exact Hsame | apply Hother; discriminate].
Defined.

(** ** Deleting rules *)

Lemma delete_deleted_ids {F} (ids : list string) (st : PageState.t F) (x : string) :
  x ∈ PageState.deletedRuleIds (handleDeleteRules ids st) ↔
  x ∈ ids ∨ x ∈ PageState.deletedRuleIds st.
Proof. unfold handleDeleteRules. simpl. apply JsSet_elem_of_add_all. Qed.

Lemma JsSet_has_add_all (x : string) (ids : list string) (s : JsSet.t) :
  JsSet.has x (fold_left (fun next id => JsSet.add id next) ids s) =
  Js.arrayIncludes ids x || JsSet.has x s.
Proof.
  apply eq_true_iff_eq.
  rewrite orb_true_iff, !JsSet_has_true, arrayIncludes_true.
  apply JsSet_elem_of_add_all.
Qed.

(** C5. Delete(ids) hides the rules carrying one of the ids from the
    visible list, and only those, while the fetched rule list is left as it
    was; deleting ids that are all deleted already returns the page state
    unchanged, so a repeated delete changes neither list. *)
Theorem delete_is_tombstone {F} (ids : list string) (st : PageState.t F) :
  PageState.rules (handleDeleteRules ids st) = PageState.rules st ∧
  visibleRules (handleDeleteRules ids st) =
    List.filter (fun r => negb (Js.arrayIncludes ids (Rule.id r))) (visibleRules st) ∧
  (∀ r, r ∈ visibleRules (handleDeleteRules ids st) → Rule.id r ∉ ids) ∧
  ((∀ id, id ∈ ids → id ∈ PageState.deletedRuleIds st) →
     handleDeleteRules ids st = st) ∧
  handleDeleteRules ids (handleDeleteRules ids st) = handleDeleteRules ids st.
Proof.
  assert (Hvis : visibleRules (handleDeleteRules ids st) =
    List.filter (fun r => negb (Js.arrayIncludes ids (Rule.id r))) (visibleRules st)).
  { unfold visibleRules, handleDeleteRules. simpl.
    rewrite filter_filter_andb. apply List.filter_ext. intros r.
    rewrite JsSet_has_add_all, negb_orb. apply andb_comm. }
  assert (Hidem : ∀ st0 : PageState.t F,
    (∀ id, id ∈ ids → id ∈ PageState.deletedRuleIds st0) →
    handleDeleteRules ids st0 = st0).
  { intros st0 Hall. destruct st0 as [al rs del ds ld q fl sv aq af].
    unfold handleDeleteRules, PageState.setDeletedRuleIds. simpl in *. f_equal.
    by apply JsSet_add_all_present. }
  split_and!.
  - done.
  - exact Hvis.
  - intros r Hr. rewrite Hvis in Hr. apply elem_of_List_filter in Hr as [_ Hr].
    apply negb_true_iff in Hr. by apply arrayIncludes_false in Hr.
  - apply Hidem.
  - apply Hidem. intros id Hid. apply delete_deleted_ids. by left.
Qed.

Lemma delete_is_tombstone_witness :
  visibleRules (handleDeleteRules ["r1"] Sample.page) = [Sample.r2] ∧
  PageState.rules (handleDeleteRules ["r1"] Sample.page) = [Sample.r1; Sample.r2] ∧
  handleDeleteRules ["r1"] (handleDeleteRules ["r1"] Sample.page) =
    handleDeleteRules ["r1"] Sample.page.
Proof.
  pose proof (delete_is_tombstone ["r1"] Sample.page) as (Hrules & Hvis & _ & Hno & _).
  pose proof (Hno' := proj1 (proj2 (proj2 (proj2
    (delete_is_tombstone ["r1"] (handleDeleteRules ["r1"] Sample.page)))))).
  split_and!.
  - rewrite Hvis. reflexivity.
  - rewrite Hrules. reflexivity.
  - apply Hno'. intros id Hid. apply list_elem_of_singleton in Hid as ->.
    vm_compute. left.
Defined.

(** ** Cloning a rule *)

(** C6, as amended.  Clone(r) puts at the head of the rule list a rule with
    id [clone-<clock reading>], name [r.name ++ " (Copy)"], creator
    [current-user], the two fresh time stamps, and every other field of
    [r]; the rest of the list and the other cells stay as they were.  The
    id differs from [r]'s unless [r] already carries that very id, and the
    creator differs from [r]'s unless [r] was created by [current-user]. *)
Theorem clone_prepends_copy {F} (monitor : Rule.t) (now : Z)
    (stampCreated stampModified : string) (st : PageState.t F) :
  ∃ clone,
    PageState.rules (handleCloneRule monitor now stampCreated stampModified st) =
      clone :: PageState.rules st ∧
    Rule.id clone = "clone-" +:+ pretty now ∧
    (Rule.id monitor ≠ "clone-" +:+ pretty now → Rule.id clone ≠ Rule.id monitor) ∧
    Rule.name clone = Rule.name monitor +:+ " (Copy)" ∧
    Rule.createdBy clone = "current-user" ∧
    (Rule.createdBy monitor ≠ "current-user" →
       Rule.createdBy clone ≠ Rule.createdBy monitor) ∧
    Rule.createdAt clone = stampCreated ∧
    Rule.lastModified clone = stampModified ∧
    sameCopiedFields monitor clone ∧
    sameButRules st (handleCloneRule monitor now stampCreated stampModified st).
Proof.
  eexists. split; [reflexivity|]. simpl.
  split_and!; try done; try (by repeat split); intros Hne Heq; by apply Hne.
Qed.

Lemma clone_prepends_copy_witness :
  ∃ clone,
    PageState.rules
      (handleCloneRule Sample.r1 1700000000000 "2023-11-14T22:13:20.000Z"
         "2023-11-14T22:13:20.001Z" Sample.page) = [clone; Sample.r1; Sample.r2] ∧
    Rule.id clone ≠ "r1" ∧ Rule.name clone = "X (Copy)" ∧
    Rule.createdBy clone ≠ "u1".
Proof.
  destruct (clone_prepends_copy Sample.r1 1700000000000
              "2023-11-14T22:13:20.000Z" "2023-11-14T22:13:20.001Z" Sample.page)
    as (clone & Hrules & _ & Hid & Hname & _ & Hby & _).
  exists clone. split_and!.
  - exact Hrules.
  - apply Hid. vm_compute. discriminate.
  - exact Hname.
  - apply Hby. discriminate.
Defined.

(** C6 as stated fails on a rule that is itself a clone made at the same
    clock reading by the same actor: the copy carries the original's id and
    the original's creator. *)
Lemma clone_same_id_and_creator :
  ∃ clone rest,
    PageState.rules
      (handleCloneRule Sample.cloned 1700000000000 "2023-11-14T22:13:20.000Z"
         "2023-11-14T22:13:20.000Z" Sample.page) = clone :: rest ∧
    Rule.id clone = Rule.id Sample.cloned ∧
    Rule.createdBy clone = Rule.createdBy Sample.cloned.
Proof. eexists _, _. split; [reflexivity|]. split; reflexivity. Qed.

(** ** Saved searches *)

Lemma save_refused {F} (now : Z) (st : PageState.t F) :
  saveCurrentSearch None now st = st ∧ saveCurrentSearch (Some "") now st = st.
Proof. done. Qed.

Lemma save_appends {F} (name : string) (now : Z) (st : PageState.t F) :
  name ≠ "" →
  PageState.savedSearches (saveCurrentSearch (Some name) now st) =
  PageState.savedSearches st ++
    [SavedSearch.mk ("ss-" +:+ pretty now) name (PageState.searchQuery st)
       (PageState.filters st)].
Proof.
  intros Hname. apply truthy_true in Hname.
  unfold saveCurrentSearch. by rewrite Hname.
Qed.

(** C4, as amended.  For every non-empty name, saving the search appends
    one entry holding that name and the query and filter state active at
    that moment; loading that entry later, into any page state, sets the
    active query and filter state to exactly the saved ones, whatever they
    were before, and changes no other cell.  With the empty name, or with
    the prompt dismissed, the save is refused: the page state, and with it
    the store, stays as it was. *)
Theorem save_then_load_restores {F} (name : string) (now : Z) (st : PageState.t F) :
  (name ≠ "" →
   ∃ ss,
     PageState.savedSearches (saveCurrentSearch (Some name) now st) =
       PageState.savedSearches st ++ [ss] ∧
     SavedSearch.name ss = name ∧
     ∀ later : PageState.t F,
       PageState.searchQuery (loadSavedSearch ss later) = PageState.searchQuery st ∧
       PageState.filters (loadSavedSearch ss later) = PageState.filters st ∧
       sameButSearch later (loadSavedSearch ss later)) ∧
  saveCurrentSearch (Some "") now st = st ∧
  saveCurrentSearch None now st = st.
Proof.
  split; [|done].
  intros Hname. eexists. split; [by apply save_appends|].
  split; [done|]. intros later. by repeat split.
Qed.

Lemma save_then_load_restores_witness :
  ∃ ss,
    PageState.savedSearches (saveCurrentSearch (Some "mine") 7 Sample.page) = [ss] ∧
    PageState.searchQuery
      (loadSavedSearch ss (PageState.setFilters [] (PageState.setSearchQuery "disk" Sample.page)))
      = "cpu" ∧
    PageState.filters
      (loadSavedSearch ss (PageState.setFilters [] (PageState.setSearchQuery "disk" Sample.page)))
      = ["high"].
Proof.
  destruct (save_then_load_restores "mine" 7 Sample.page) as [Hround _].
  destruct Hround as (ss & Hsaved & _ & Hload); [discriminate|].
  exists ss. split; [exact Hsaved|].
  destruct (Hload (PageState.setFilters [] (PageState.setSearchQuery "disk" Sample.page)))
    as (Hq & Hf & _).
  split; [exact Hq | exact Hf].
Defined.

(** C4 as stated fails for the empty name: the save is refused, the store
    stays empty and there is no entry to load, while the active query and
    filters are not the empty ones. *)
Lemma save_empty_name_stores_nothing :
  PageState.savedSearches (saveCurrentSearch (Some "") 7 Sample.page) = [] ∧
  PageState.searchQuery Sample.page = "cpu" ∧
  PageState.filters Sample.page = ["high"].
Proof. by split_and!. Qed.

Lemma ss_id_inj (n m : Z) : "ss-" +:+ pretty n = "ss-" +:+ pretty m → n = m.
Proof. intros Heq. apply (inj _) in Heq. by apply (inj pretty). Qed.

Lemma saveStep_ids {F} (st : PageState.t F) (op : option string * Z * string * F) :
  SavedSearch.id <$> PageState.savedSearches (saveStep st op) =
    SavedSearch.id <$> PageState.savedSearches st ∨
  SavedSearch.id <$> PageState.savedSearches (saveStep st op) =
    (SavedSearch.id <$> PageState.savedSearches st) ++ ["ss-" +:+ pretty (clockOf op)].
Proof.
  destruct op as [[[[name|] now] q] f]; simpl; [|by left].
  destruct (Js.truthy name); simpl; [right|by left].
  by rewrite fmap_app.
Qed.

Lemma saveAll_ids {F} (ops : list (option string * Z * string * F))
    (st : PageState.t F) (used : list Z) :
  NoDup (used ++ (clockOf <$> ops)) →
  NoDup (SavedSearch.id <$> PageState.savedSearches st) →
  (∀ x, x ∈ SavedSearch.id <$> PageState.savedSearches st →
        ∃ n, n ∈ used ∧ x = "ss-" +:+ pretty n) →
  NoDup (SavedSearch.id <$> PageState.savedSearches (fold_left saveStep ops st)).
Proof.
  revert st used. induction ops as [|op ops IH]; intros st used Hclk Hnd Hused; simpl.
  - done.
  - rewrite fmap_cons, cons_middle, app_assoc in Hclk.
    apply (IH _ (used ++ [clockOf op])); [done| |].
    + destruct (saveStep_ids st op) as [-> | ->]; [done|].
      apply NoDup_app. split_and!; [done| |apply NoDup_singleton].
      intros x Hx ->%list_elem_of_singleton.
      destruct (Hused _ Hx) as (n & Hn & Heq). apply ss_id_inj in Heq. subst n.
      apply NoDup_app in Hclk as [Hclk _]. apply NoDup_app in Hclk as (_ & Hdisj & _).
      apply (Hdisj _ Hn). by left.
    + intros x Hx. destruct (saveStep_ids st op) as [Heq | Heq]; rewrite Heq in Hx.
      * destruct (Hused _ Hx) as (n & Hn & ->). exists n. split; [|done].
        apply elem_of_app. by left.
      * apply elem_of_app in Hx as [Hx | ->%list_elem_of_singleton].
        -- destruct (Hused _ Hx) as (n & Hn & ->). exists n. split; [|done].
           apply elem_of_app. by left.
        -- exists (clockOf op). split; [|done]. apply elem_of_app. right. by left.
Qed.

(** C8, as amended.  A save gives the new entry the id [ss-<clock reading>],
    made by the store from the clock and not taken from the caller; after
    any run of saves from the empty store whose clock readings are pairwise
    distinct, no two stored entries have the same id. *)
Theorem saved_search_ids_distinct {F} (emptyFilters : F)
    (ops : list (option string * Z * string * F)) :
  NoDup (clockOf <$> ops) →
  NoDup (SavedSearch.id <$>
           PageState.savedSearches
             (fold_left saveStep ops (PageState.initial emptyFilters))) ∧
  ∀ (name : string) (now : Z) (st : PageState.t F),
    name ≠ "" →
    SavedSearch.id <$> PageState.savedSearches (saveCurrentSearch (Some name) now st) =
      (SavedSearch.id <$> PageState.savedSearches st) ++ ["ss-" +:+ pretty now].
Proof.
  intros Hclk. split.
  - apply (saveAll_ids ops _ []); [done|apply NoDup_nil_2|].
    intros x Hx. by apply elem_of_nil in Hx.
  - intros name now st Hname. rewrite save_appends by done. by rewrite fmap_app.
Qed.

Lemma saved_search_ids_distinct_witness :
  NoDup (SavedSearch.id <$>
           PageState.savedSearches
             (fold_left saveStep Sample.savesApart (PageState.initial []))).
Proof.
  apply (saved_search_ids_distinct ([] : Sample.Filters) Sample.savesApart).
  vm_compute. apply NoDup_cons. split; [|apply NoDup_singleton].
  intros Hin. apply list_elem_of_singleton in Hin. discriminate.
Defined.

(** C8 as stated fails when two saves read the same clock value: both
    entries get the id [ss-1700000000000]. *)
Lemma saves_at_same_reading_share_id :
  SavedSearch.id <$>
    PageState.savedSearches
      (fold_left saveStep Sample.savesTogether (PageState.initial []))
  = ["ss-1700000000000"; "ss-1700000000000"] ∧
  ¬ NoDup (SavedSearch.id <$>
             PageState.savedSearches
               (fold_left saveStep Sample.savesTogether (PageState.initial []))).
Proof.
  split; [reflexivity|]. intros Hnd.
  apply NoDup_cons in Hnd as [Hnew _]. apply Hnew. left.
Qed.

(** ** Initial load *)

Lemma promiseAll3_rejected {A B C} (p1 : Async.Settled A) (p2 : Async.Settled B)
    (p3 : Async.Settled C) (t1 t2 t3 : nat) :
  rejected p1 ∨ rejected p2 ∨ rejected p3 →
  rejected (Async.promiseAll3 p1 p2 p3 t1 t2 t3).
Proof.
  intros [[e ->] | [[e ->] | [e ->]]]; unfold rejected; simpl.
  - destruct p2, p3; eauto.
  - destruct p1, p3; eauto.
  - destruct p1, p2; eauto.
Qed.

(** Of several rejections the first to arrive is kept. *)
Example promiseAll3_first_rejection :
  Async.promiseAll3 (A := unit) (B := unit) (C := unit)
    (Async.Rejected (Js.JStr "slow")) (Async.Fulfilled tt)
    (Async.Rejected (Js.JStr "quick")) 9 5 2
  = Async.Rejected (Js.JStr "quick").
Proof. reflexivity. Qed.

(** Whatever the page holds when a failing load starts, the load completes
    normally, logs once, clears [loading] and leaves the collections. *)
Lemma fetchData_failure_from {F} (apiClient : ApiClient.t) (w : Async.World F) :
  rejected (ApiClient.listAlerts apiClient) ∨
  rejected (ApiClient.listRules apiClient) ∨
  rejected (ApiClient.listDatasources apiClient) →
  ∃ reason,
    fetchData apiClient w =
    (Async.Fulfilled tt,
     Async.mkWorld (PageState.setLoading false (PageState.setLoading true (Async.page w)))
       (Async.console w ++ [("Failed to fetch data", reason)])).
Proof.
  intros Hrej.
  apply (promiseAll3_rejected _ _ _ (ApiClient.settledAt apiClient).1.1
           (ApiClient.settledAt apiClient).1.2 (ApiClient.settledAt apiClient).2)
    in Hrej as [reason Hrej].
  exists reason. unfold fetchData, Async.bind, Async.tryCatchFinally, Async.await.
  simpl. rewrite Hrej. reflexivity.
Qed.

(** C9. When one of the three initial fetches fails, [fetchData] does not
    throw: it completes, the failure is logged to the console, [loading] is
    cleared, and alerts, rules and datasources are still the empty lists
    the page was mounted with. *)
Theorem fetch_failure_leaves_empty_lists {F} (emptyFilters : F)
    (apiClient : ApiClient.t) :
  rejected (ApiClient.listAlerts apiClient) ∨
  rejected (ApiClient.listRules apiClient) ∨
  rejected (ApiClient.listDatasources apiClient) →
  ∃ w' reason,
    fetchData apiClient (mounted emptyFilters) = (Async.Fulfilled tt, w') ∧
    Async.console w' = [("Failed to fetch data", reason)] ∧
    PageState.loading (Async.page w') = false ∧
    PageState.alerts (Async.page w') = [] ∧
    PageState.rules (Async.page w') = [] ∧
    PageState.datasources (Async.page w') = [].
Proof.
  intros Hrej.
  destruct (fetchData_failure_from apiClient (mounted emptyFilters) Hrej)
    as [reason Hrun].
  eexists _, reason. split; [exact Hrun|]. by split_and!.
Qed.

Lemma fetch_failure_leaves_empty_lists_witness :
  ∃ w' reason,
    fetchData
      (ApiClient.mk (Async.Fulfilled [Sample.a1])
         (Async.Rejected (Js.JStr "502 Bad Gateway")) (Async.Fulfilled []) (3, 1, 2))
      (mounted ([] : Sample.Filters)) = (Async.Fulfilled tt, w') ∧
    Async.console w' = [("Failed to fetch data", reason)] ∧
    PageState.loading (Async.page w') = false ∧
    PageState.alerts (Async.page w') = [] ∧
    PageState.rules (Async.page w') = [] ∧
    PageState.datasources (Async.page w') = [].
Proof.
  apply (fetch_failure_leaves_empty_lists ([] : Sample.Filters)
           (ApiClient.mk (Async.Fulfilled [Sample.a1])
              (Async.Rejected (Js.JStr "502 Bad Gateway")) (Async.Fulfilled [])
              (3, 1, 2))).
  right. left. exists (Js.JStr "502 Bad Gateway"). reflexivity.
Defined.

(** The successful load, for comparison: the three lists are stored. *)
Lemma fetchData_success {F} (a : list Alert.t) (r : list Rule.t)
    (d : list Datasource.t) (w : Async.World F) :
  ∃ w',
    fetchData
      (ApiClient.mk (Async.Fulfilled a) (Async.Fulfilled r) (Async.Fulfilled d) (1, 2, 3)) w
      = (Async.Fulfilled tt, w') ∧
    Async.console w' = Async.console w ∧
    PageState.loading (Async.page w') = false ∧
    PageState.alerts (Async.page w') = a ∧
    PageState.rules (Async.page w') = r ∧
    PageState.datasources (Async.page w') = d.
Proof. eexists. split; [reflexivity|]. by split_and!. Qed.

(** ** Substring search *)

Lemma startsWith_spec (s q : string) :
  Js.startsWith s q = true ↔ ∃ post, s = q +:+ post.
Proof.
  revert s. induction q as [|a q IH]; intros s; simpl.
  - destruct s; split; eauto.
  - destruct s as [|b s]; simpl.
    + split; [done | by intros [post ?]].
    + destruct (Ascii.eqb a b) eqn:Hab.
      * apply Ascii.eqb_eq in Hab. subst b. rewrite IH. split.
        -- intros [post ->]. by exists post.
        -- intros [post Heq]. exists post. by injection Heq.
      * apply Ascii.eqb_neq in Hab. split; [done|].
        intros [post Heq]. injection Heq as Hb _. by destruct Hab.
Qed.

Lemma includes_spec (s q : string) :
  Js.includes s q = true ↔ ∃ pre post, s = pre +:+ q +:+ post.
Proof.
  induction s as [|c s IH].
  - change (Js.includes "" q) with (Js.startsWith "" q || false).
    rewrite orb_false_r, startsWith_spec. split.
    + intros [post Heq]. by exists "", post.
    + intros (pre & post & Heq). destruct pre; [by exists post|done].
  - change (Js.includes (String c s) q)
      with (Js.startsWith (String c s) q || Js.includes s q).
    rewrite orb_true_iff, startsWith_spec, IH. split.
    + intros [[post Heq] | (pre & post & Heq)].
      * by exists "", post.
      * exists (String c pre), post. simpl. by rewrite Heq.
    + intros (pre & post & Heq). destruct pre as [|c' pre]; simpl in Heq.
      * left. by exists post.
      * right. exists pre, post. by injection Heq.
Qed.

(** ** The facet index *)

Section SetFold.
Context {A B : Type} (step : list B → A → list B) (adds : A → B → Prop).
Hypothesis step_elem : ∀ s a x, x ∈ step s a ↔ x ∈ s ∨ adds a x.
Hypothesis step_NoDup : ∀ s a, NoDup s → NoDup (step s a).

Lemma fold_set_elem (l : list A) (s : list B) (x : B) :
  x ∈ fold_left step l s ↔ x ∈ s ∨ ∃ a, a ∈ l ∧ adds a x.
Proof using step_elem.
  revert s. induction l as [|a l IH]; intros s; simpl.
  - split; [by left|]. intros [? | (a & Ha & _)]; [done|].
    by apply elem_of_nil in Ha.
  - rewrite IH, step_elem. split.
    + intros [[? | ?] | (b & Hb & ?)].
      * by left.
      * right. exists a. split; [left | done].
      * right. exists b. split; [by right | done].
    + intros [? | (b & Hb & ?)]; [by left; left|].
      apply elem_of_cons in Hb as [-> | Hb]; [by left; right|].
      right. by exists b.
Qed.

Lemma fold_set_NoDup (l : list A) (s : list B) :
  NoDup s → NoDup (fold_left step l s).
Proof using step_NoDup.
  revert s. induction l as [|a l IH]; intros s Hs; simpl; [done|].
  by apply IH, step_NoDup.
Qed.
End SetFold.

Lemma JsSet_NoDup_add_all (ids : list string) (s : JsSet.t) :
  NoDup s → NoDup (fold_left (fun next id => JsSet.add id next) ids s).
Proof.
  apply (fold_set_NoDup (fun next id => JsSet.add id next)).
  intros s' a. apply JsSet_NoDup_add.
Qed.

Lemma addValue_elem (x y : Js.Value) (s : list Js.Value) :
  x ∈ JsSet.addValue y s ↔ x = y ∨ x ∈ s.
Proof.
  unfold JsSet.addValue. destruct (decide (y ∈ s)) as [Hy | Hy].
  - split; [by right|]. by intros [-> | ?].
  - rewrite elem_of_app, list_elem_of_singleton. tauto.
Qed.

Lemma addValue_NoDup (y : Js.Value) (s : list Js.Value) :
  NoDup s → NoDup (JsSet.addValue y s).
Proof.
  intros Hs. unfold JsSet.addValue. destruct (decide (y ∈ s)) as [Hy | Hy]; [done|].
  apply NoDup_app. split_and!; [done | | apply NoDup_singleton].
  intros x Hx Hx'. apply list_elem_of_singleton in Hx'. by subst x.
Qed.

(** The order of code units is a total preorder. *)
Lemma unitsLeb_total (u v : list N) : Js.unitsLeb u v = true ∨ Js.unitsLeb v u = true.
Proof.
  revert v. induction u as [|x u IH]; intros [|y v]; simpl; auto.
  destruct (IH v) as [H | H]; rewrite H, !andb_true_r.
  - destruct (N.ltb_spec x y); [by left|].
    destruct (N.ltb_spec y x); [by right|].
    left. rewrite orb_true_iff. right. apply N.eqb_eq. lia.
  - destruct (N.ltb_spec y x); [by right|].
    destruct (N.ltb_spec x y); [by left|].
    right. rewrite orb_true_iff. right. apply N.eqb_eq. lia.
Qed.

Lemma unitsLeb_trans (u v w : list N) :
  Js.unitsLeb u v = true → Js.unitsLeb v w = true → Js.unitsLeb u w = true.
Proof.
  revert v w. induction u as [|x u IH]; intros [|y v] [|z w]; simpl; try done.
  rewrite !orb_true_iff, !andb_true_iff, !N.ltb_lt, !N.eqb_eq.
  intros [Hxy | [-> Huv]] [Hyz | [<- Hvw]].
  - left. lia.
  - by left.
  - by left.
  - right. split; [done | by apply (IH v)].
Qed.

#[global] Instance Js_le_total : Total Js.le.
Proof. intros s t. apply unitsLeb_total. Qed.

#[global] Instance Js_le_trans : Transitive Js.le.
Proof. intros s t u. apply unitsLeb_trans. Qed.

#[global] Instance Js_le_refl : Reflexive Js.le.
Proof. intros s. by destruct (unitsLeb_total (Js.codeUnits s) (Js.codeUnits s)). Qed.

#[global] Instance Js_leValue_total {engine : Js.Engine} : Total Js.leValue.
Proof. intros x y. apply unitsLeb_total. Qed.

#[global] Instance Js_leValue_trans {engine : Js.Engine} : Transitive Js.leValue.
Proof. intros x y z. apply unitsLeb_trans. Qed.

(** On ASCII text the units are the bytes. *)
Lemma codeUnits_ascii (s : string) :
  Js.isAscii s = true →
  Js.codeUnits s = (fun c => Ascii.N_of_ascii c) <$> String.list_ascii_of_string s.
Proof.
  induction s as [|c s IH]; simpl; [done|].
  intros [Hc Hs]%andb_true_iff. apply N.ltb_lt in Hc.
  destruct (N.ltb_spec (Ascii.N_of_ascii c) 192) as [_ | Hge]; [|lia].
  by rewrite IH.
Qed.

(** Three characters that the order of the bytes and the order of the code
    units rank differently: [z] (one unit, 007A), a character beyond
    U+FFFF (a surrogate pair, D83D DE00) and a character above U+E000 (one
    unit, FF5E). *)
Example sort_by_code_units :
  Js.codeUnits "é" = [233]%N ∧
  Js.codeUnits "€" = [8364]%N ∧
  Js.codeUnits "😀" = [55357; 56832]%N ∧
  Js.codeUnits "～" = [65374]%N ∧
  Js.sort ["～"; "😀"; "z"] = ["z"; "😀"; "～"] ∧
  merge_sort String.le ["～"; "😀"; "z"] = ["z"; "～"; "😀"].
Proof. vm_compute. by split_and!. Qed.

Lemma sort_Sorted (l : list string) : Sorted Js.le (Js.sort l).
Proof. apply (Sorted_merge_sort Js.le). Qed.

Lemma sort_elem (l : list string) (x : string) : x ∈ Js.sort l ↔ x ∈ l.
Proof. unfold Js.sort. by rewrite merge_sort_Permutation. Qed.

Lemma sort_NoDup (l : list string) : NoDup l → NoDup (Js.sort l).
Proof. unfold Js.sort. by rewrite merge_sort_Permutation. Qed.

Lemma keys_elem {V} (o : gmap string V) (k : string) : k ∈ Js.keys o ↔ k ∈ dom o.
Proof.
  unfold Js.keys. rewrite elem_of_dom, list_elem_of_fmap. split.
  - intros ([k' v] & -> & Hin). apply elem_of_map_to_list in Hin. by exists v.
  - intros [v Hv]. exists (k, v). split; [done | by apply elem_of_map_to_list].
Qed.


(** Reading a property: the three cases of [Js.get]. *)
Lemma get_own (obj : gmap string string) (key s : string) :
  Js.get obj key = Js.VStr s ↔ obj !! key = Some s.
Proof.
  unfold Js.get. destruct (obj !! key) as [w|].
  - split; by intros [= ->].
  - destruct (Js.inherited key); by split.
Qed.

Lemma get_inherited (obj : gmap string string) (key m : string) :
  Js.get obj key = Js.VInherited m ↔
  m = key ∧ key ∈ Js.objectPrototype ∧ obj !! key = None.
Proof.
  unfold Js.get. destruct (obj !! key) as [w|].
  - split; [done | by intros (_ & _ & ?)].
  - destruct (Js.inherited key) eqn:Hin.
    + apply arrayIncludes_true in Hin. split; [by intros [= <-] | by intros (-> & _)].
    + apply arrayIncludes_false in Hin. split; [done | by intros (_ & ? & _)].
Qed.

Lemma get_undefined (obj : gmap string string) (key : string) :
  Js.get obj key = Js.VUndefined ↔ (key ∉ Js.objectPrototype) ∧ obj !! key = None.
Proof.
  unfold Js.get. destruct (obj !! key) as [w|].
  - split; [done | by intros (_ & ?)].
  - destruct (Js.inherited key) eqn:Hin.
    + apply arrayIncludes_true in Hin. split; [done | by intros (? & _)].
    + apply arrayIncludes_false in Hin. by split.
Qed.

Lemma collectLabelValues_elem {engine : Js.Engine} (alerts : list Alert.t)
    (key : string) (v : Js.Value) :
  v ∈ collectLabelValues alerts key ↔
  Js.truthyValue v = true ∧ ∃ a, a ∈ alerts ∧ Js.get (Alert.labels a) key = v.
Proof.
  unfold collectLabelValues, Js.sortValues. rewrite merge_sort_Permutation.
  set (step := fun (set : list Js.Value) a =>
                 if Js.truthyValue (Js.get (Alert.labels a) key)
                 then JsSet.addValue (Js.get (Alert.labels a) key) set else set).
  rewrite (fold_set_elem step
             (fun a x => Js.truthyValue x = true ∧ Js.get (Alert.labels a) key = x)).
  - rewrite elem_of_nil. naive_solver.
  - intros s a x. unfold step.
    destruct (Js.truthyValue (Js.get (Alert.labels a) key)) eqn:Ht.
    + rewrite addValue_elem. split.
      * intros [-> | ?]; [by right | by left].
      * intros [? | [_ <-]]; [by right | by left].
    + split; [by left|]. intros [? | [Hx <-]]; [done | congruence].
Qed.

Lemma collectLabelValues_options {engine : Js.Engine} (alerts : list Alert.t)
    (key : string) :
  labelOptions (collectLabelValues alerts key) alerts key.
Proof.
  unfold labelOptions. split_and!.
  - apply (Sorted_merge_sort Js.leValue).
  - unfold collectLabelValues, Js.sortValues. rewrite merge_sort_Permutation.
    apply (fold_set_NoDup
             (fun (set : list Js.Value) a =>
                if Js.truthyValue (Js.get (Alert.labels a) key)
                then JsSet.addValue (Js.get (Alert.labels a) key) set else set));
      [|apply NoDup_nil_2].
    intros s a Hs. destruct (Js.truthyValue (Js.get (Alert.labels a) key)); [|done].
    by apply addValue_NoDup.
  - intros v Hv. by apply collectLabelValues_elem in Hv as [Hv _].
  - apply collectLabelValues_elem.
  - intros s. rewrite collectLabelValues_elem. simpl. rewrite truthy_true.
    by setoid_rewrite get_own.
  - intros m. rewrite collectLabelValues_elem. simpl.
    setoid_rewrite get_inherited. naive_solver.
Qed.

Lemma collectLabelKeys_union (alerts : list Alert.t) :
  Sorted Js.le (collectLabelKeys alerts) ∧
  NoDup (collectLabelKeys alerts) ∧
  ∀ k, k ∈ collectLabelKeys alerts ↔ ∃ a, a ∈ alerts ∧ k ∈ dom (Alert.labels a).
Proof.
  unfold collectLabelKeys, JsSet.toArray.
  set (step := fun (keys : JsSet.t) a =>
                 fold_left (fun keys k => JsSet.add k keys)
                   (Js.keys (Alert.labels a)) keys).
  split_and!.
  - apply sort_Sorted.
  - apply sort_NoDup, (fold_set_NoDup step); [|apply NoDup_nil_2].
    intros s a Hs. by apply JsSet_NoDup_add_all.
  - intros k. rewrite sort_elem.
    rewrite (fold_set_elem step (fun a x => x ∈ dom (Alert.labels a))).
    + unfold JsSet.empty. rewrite elem_of_nil. naive_solver.
    + intros s a x. unfold step.
      rewrite JsSet_elem_of_add_all, keys_elem. naive_solver.
Qed.


Example facet_index_scenario :
  let engine : Js.Engine := Js.asciiEngine in
  collectUniqueValues [Sample.a1; Sample.a2; Sample.a3; Sample.a4] Alert.severity
    = ["critical"; "low"] ∧
  collectLabelKeys [Sample.a1; Sample.a2; Sample.a3; Sample.a4] = ["env"; "service"] ∧
  collectLabelValues [Sample.a1; Sample.a2; Sample.a3; Sample.a4] "service"
    = [Js.VStr "a"; Js.VStr "b"] ∧
  collectLabelValues [Sample.a1; Sample.a2; Sample.a3; Sample.a4] "env" = [].
Proof. vm_compute. by split_and!. Qed.

(** A label key named like a member of [Object.prototype]: the alert that
    does not carry it contributes the member itself, here the function
    [Object], which is sorted by its source text. *)
Example facet_index_inherited_member :
  let engine : Js.Engine := Js.asciiEngine in
  collectLabelValues
    [Sample.alert "b1" "ds-1" "active" "low" {[ "constructor" := "x" ]}; Sample.a3]
    "constructor"
  = [Js.VInherited "constructor"; Js.VStr "x"].
Proof. vm_compute. reflexivity. Qed.

(** ** The alert filter *)

Lemma guarded_filter {A} (c : bool) (p : A → bool) (l : list A) :
  (if c then List.filter p l else l) = List.filter (fun x => negb c || p x) l.
Proof.
  destruct c; simpl; [done|]. induction l as [|x l IH]; simpl; congruence.
Qed.

Lemma label_stages_fold (es : list (string * list string)) (l : list Alert.t) :
  fold_left
    (fun result '(key, values) =>
       if 0 <? length values then List.filter (labelPasses key values) result
       else result) es l
  = List.filter (fun a => forallb (labelStage a) es) l.
Proof.
  revert l. induction es as [|[key values] es IH]; intros l; simpl.
  - induction l as [|x l IHl]; simpl; congruence.
  - rewrite IH, guarded_filter, filter_filter_andb. reflexivity.
Qed.

Lemma filteredAlerts_passes {engine : Js.Engine} (alerts : list Alert.t) (q : string)
    (fs : AlertFilterState.t) :
  filteredAlerts alerts q fs = List.filter (passes q fs) alerts.
Proof.
  unfold filteredAlerts. rewrite label_stages_fold, !guarded_filter.
  rewrite !filter_filter_andb. apply List.filter_ext. intros a.
  unfold passes, queryStage, facetStage. by rewrite !andb_assoc.
Qed.

Lemma queryStage_spec {engine : Js.Engine} (q : string) (a : Alert.t) :
  queryStage q a = true ↔
  (q ≠ "" → ∃ field, field ∈ textFields a ∧ containsIgnoringCase field q).
Proof.
  unfold queryStage, matchesQuery, textFields, containsIgnoringCase.
  rewrite orb_true_iff, negb_true_iff, truthy_false, !orb_true_iff.
  setoid_rewrite <- includes_spec. split.
  - intros [Hq | Hhit] Hne; [done|].
    destruct Hhit as [[[Hn | Hm] | Hs] | Hv].
    + exists (Alert.name a). split; [set_solver | done].
    + destruct (Alert.message a) as [m|] eqn:Hmsg; [|done].
      exists m. split; [simpl; set_solver | done].
    + exists (Alert.state a). split; [set_solver | done].
    + exists (Alert.severity a). split; [set_solver | done].
  - intros Hspec. destruct (decide (q = "")) as [Hq | Hq]; [by left|].
    right. destruct (Hspec Hq) as (field & Hin & Hhit).
    destruct (Alert.message a) as [m|]; simpl in Hin; elem_cases Hin; tauto.
Qed.

Lemma facetStage_spec (selected : list string) (value : string) :
  facetStage selected value = true ↔ facetAllows selected value.
Proof.
  unfold facetStage, facetAllows. rewrite orb_true_iff, arrayIncludes_true.
  destruct selected as [|s selected]; simpl.
  - split; [done | by left].
  - split; [naive_solver | intros H; right; by apply H].
Qed.

Lemma labelPasses_spec (key : string) (values : list string) (a : Alert.t) :
  labelPasses key values a = true ↔
  ∃ v, Alert.labels a !! key = Some v ∧ v ≠ "" ∧ v ∈ values.
Proof.
  unfold labelPasses, Js.get.
  destruct (Alert.labels a !! key) as [w|]; simpl.
  - rewrite andb_true_iff, truthy_true, arrayIncludes_true. split.
    + intros [? ?]. by exists w.
    + by intros (v & [= ->] & ? & ?).
  - destruct (Js.inherited key); simpl;
      (split; [done | by intros (v & ? & _)]).
Qed.

Lemma labelStage_spec (a : Alert.t) (key : string) (values : list string) :
  labelStage a (key, values) = true ↔
  (values ≠ [] → ∃ v, Alert.labels a !! key = Some v ∧ v ≠ "" ∧ v ∈ values).
Proof.
  unfold labelStage. simpl. rewrite orb_true_iff, labelPasses_spec.
  destruct values as [|v0 values]; simpl.
  - split; [done | by left].
  - split; [by intros [? | ?] _ | intros Hspec; right; by apply Hspec].
Qed.

Lemma passes_spec {engine : Js.Engine}
    (q : string) (fs : AlertFilterState.t) (a : Alert.t) :
  passes q fs a = true ↔ satisfies q fs a.
Proof.
  unfold passes, satisfies.
  rewrite !andb_true_iff, queryStage_spec, !facetStage_spec, forallb_forall.
  split.
  - intros (((((Hq & Hst) & Hsev) & Hdt) & Hdi) & Hlab).
    split_and!; try done. intros key values Hkey.
    apply labelStage_spec, Hlab, list_elem_of_In.
    by apply elem_of_map_to_list.
  - intros (Hq & Hst & Hsev & Hdt & Hdi & Hlab).
    split_and!; try done. intros [key values] Hin.
    apply labelStage_spec, Hlab.
    by apply list_elem_of_In, elem_of_map_to_list in Hin.
Qed.

(** The filter keeps exactly the alerts that meet the constraints as the
    code applies them, whatever the filter state. *)
Lemma filteredAlerts_satisfies {engine : Js.Engine} (alerts : list Alert.t)
    (q : string) (fs : AlertFilterState.t) :
  ∃ keep : Alert.t → bool,
    (∀ a, keep a = true ↔ satisfies q fs a) ∧
    filteredAlerts alerts q fs = List.filter keep alerts.
Proof.
  exists (passes q fs). split; [apply passes_spec | apply filteredAlerts_passes].
Qed.


(** A click changes a selection by the clicked option only. *)
Lemma facetCheckboxChange_elem (selected : list string) (opt x : string) :
  x ∈ facetCheckboxChange selected opt → x = opt ∨ x ∈ selected.
Proof.
  unfold facetCheckboxChange. destruct (Js.arrayIncludes selected opt).
  - intros Hx. apply elem_of_List_filter in Hx as [Hx _]. by right.
  - rewrite elem_of_app, list_elem_of_singleton. tauto.
Qed.

(** The panel never selects the empty string under a label key: the
    options of a label group are not empty, and a click adds or removes
    the clicked option only. *)
Lemma panel_keeps_label_selections {engine : Js.Engine} (alerts : list Alert.t)
    (filters filters' : AlertFilterState.t) :
  noEmptyLabelSelected filters → panelStep alerts filters filters' →
  noEmptyLabelSelected filters'.
Proof.
  intros Hoffered Hstep.
  destruct Hstep as [opt _ | opt _ | opt _ | opt _ | key opt selected _ Hopt Hsel | g |];
    try exact Hoffered.
  - intros key' values. simpl.
    destruct (decide (key' = key)) as [-> | Hne].
    + rewrite lookup_insert_eq. intros [= <-] Hin.
      apply facetCheckboxChange_elem in Hin as [Hempty | Hin].
      * apply collectLabelValues_options in Hopt as [Hopt _]. by destruct Hopt.
      * unfold selectedLabels in Hsel.
        destruct (AlertFilterState.labels filters !! key) as [old|] eqn:Hold.
        -- injection Hsel as <-. by apply (Hoffered key old).
        -- destruct (Js.inherited key); [done|]. injection Hsel as <-.
           by apply elem_of_nil in Hin.
    + rewrite lookup_insert_ne by done. apply Hoffered.
  - intros key values Hkey. simpl in Hkey. by rewrite lookup_empty in Hkey.
Qed.

Lemma panel_never_selects_empty {engine : Js.Engine} (filters : AlertFilterState.t) :
  panelReachable filters → noEmptyLabelSelected filters.
Proof.
  induction 1 as [|alerts filters filters' _ IH Hstep].
  - intros key values Hkey. simpl in Hkey. by rewrite lookup_empty in Hkey.
  - by apply (panel_keeps_label_selections alerts filters).
Qed.

(** A label group whose key is named like a member of [Object.prototype]
    cannot be drawn before the key has a selection, and the key gets a
    selection only by a click in its group: such a key never has one.  So
    every group that is drawn has a key that no alert inherits, and its
    options are strings. *)
Lemma panel_never_selects_member_key {engine : Js.Engine}
    (filters : AlertFilterState.t) :
  panelReachable filters → noMemberKeySelected filters.
Proof.
  induction 1 as [|alerts filters filters' _ IH Hstep].
  - intros key [values Hkey]. simpl in Hkey. by rewrite lookup_empty in Hkey.
  - destruct Hstep as [opt _ | opt _ | opt _ | opt _ | key opt selected _ _ Hsel | g |];
      try exact IH.
    + intros key' Hkey'. simpl in Hkey'.
      destruct (decide (key' = key)) as [-> | Hne].
      * unfold selectedLabels in Hsel.
        destruct (AlertFilterState.labels filters !! key) as [old|] eqn:Hold.
        -- apply IH. by rewrite Hold.
        -- by destruct (Js.inherited key).
      * rewrite lookup_insert_ne in Hkey' by done. by apply IH.
    + intros key [values Hkey]. simpl in Hkey. by rewrite lookup_empty in Hkey.
Qed.

Lemma drawn_label_group_offers_strings {engine : Js.Engine} (alerts : list Alert.t)
    (filters : AlertFilterState.t) (key : string) (selected : list string)
    (opt : Js.Value) :
  panelReachable filters →
  selectedLabels filters key = Some selected →
  opt ∈ collectLabelValues alerts key →
  ∃ s, opt = Js.VStr s ∧ s ≠ "".
Proof.
  intros Hreach Hsel Hopt.
  assert (Hkey : Js.inherited key = false).
  { unfold selectedLabels in Hsel.
    destruct (AlertFilterState.labels filters !! key) as [old|] eqn:Hold.
    - apply (panel_never_selects_member_key filters Hreach). by rewrite Hold.
    - by destruct (Js.inherited key). }
  apply collectLabelValues_elem in Hopt as (Htruthy & a & _ & Hget).
  unfold Js.get in Hget. rewrite Hkey in Hget.
  destruct (Alert.labels a !! key) as [s|]; subst opt; [|done].
  exists s. split; [done|]. by apply truthy_true.
Qed.



Example panel_reaches_label_selection :
  let engine : Js.Engine := Js.asciiEngine in
  panelReachable
    (updateLabelFilter emptyAlertFilters "service" (facetCheckboxChange [] "a")).
Proof.
  intros engine.
  apply (reach_step [Sample.a1; Sample.a2; Sample.a3] emptyAlertFilters);
    [apply reach_start|].
  apply (ClickLabel _ _ "service" "a" []).
  - apply (collectLabelKeys_union [Sample.a1; Sample.a2; Sample.a3]).
    exists Sample.a1. split; [left|]. apply elem_of_dom. by exists "a".
  - apply collectLabelValues_options. split; [done|].
    exists Sample.a1. split; [left | reflexivity].
  - reflexivity.
Qed.

(** The label scenario of the specification: selecting [service = a] keeps
    the first alert only. *)
Example filter_label_scenario :
  let engine : Js.Engine := Js.asciiEngine in
  filteredAlerts [Sample.a1; Sample.a2; Sample.a3] ""
    (AlertFilterState.mk [] [] [] [] {[ "service" := ["a"] ]} GroupNone)
  = [Sample.a1].
Proof. vm_compute. reflexivity. Qed.

(** The query is matched through the engine's [toLowerCase]: with an
    engine that lowers [É] to [é], as Unicode has it, the query [café]
    finds the alert named [CAFÉ latency]. *)
Example filter_lowers_beyond_ascii :
  ∃ engine : Js.Engine,
    Js.toLowerCase "CAFÉ latency" = "café latency" ∧
    let cafe :=
      Alert.mk "c1" "ds-1" "prometheus" "CAFÉ latency" "active" "low" None "t" "t"
               ∅ ∅ Js.JNull in
    filteredAlerts [cafe; Sample.a1] "café" emptyAlertFilters = [cafe].
Proof.
  unshelve eexists
    (Js.Build_Engine
       (fun s => if String.eqb s "CAFÉ latency" then "café latency"
                 else Js.asciiLower s)
       Js.asciiUpper (fun name => name) _ _).
  - intros s Hs. cbv beta.
    destruct (String.eqb_spec s "CAFÉ latency") as [-> | _];
      [by vm_compute in Hs | reflexivity].
  - by intros s _.
  - vm_compute. by split_and!.
Qed.

(** Outside the states of the panel: were the empty string selected under
    a label key, an alert carrying that key with the empty value would
    meet the constraints as worded, and the filter would drop it. *)
Remark filter_drops_empty_label :
  let engine : Js.Engine := Js.asciiEngine in
  satisfiesAsStated ""
    (AlertFilterState.mk [] [] [] [] {[ "env" := [""] ]} GroupNone) Sample.a4 ∧
  filteredAlerts [Sample.a4] ""
    (AlertFilterState.mk [] [] [] [] {[ "env" := [""] ]} GroupNone) = [].
Proof.
  split; [|vm_compute; reflexivity].
  unfold satisfiesAsStated, facetAllows. simpl. split_and!; try done.
  intros key values Hkey _. apply lookup_singleton_Some in Hkey as [<- <-].
  exists "". split; [reflexivity | by left].
Qed.

(** ** The grouping engine *)

Example firstAppearance_example :
  firstAppearance ["b"; "a"; "b"; "c"; "a"] = ["b"; "a"; "c"].
Proof. reflexivity. Qed.

Lemma firstAppearance_elem (ks : list string) (k : string) :
  k ∈ firstAppearance ks ↔ k ∈ ks.
Proof.
  induction ks as [|k0 ks IH]; simpl; [done|].
  rewrite !elem_of_cons, elem_of_List_filter, IH, negb_true_iff, String.eqb_neq.
  destruct (decide (k = k0)); naive_solver.
Qed.

Lemma NoDup_List_filter {A} (f : A → bool) (l : list A) :
  NoDup l → NoDup (List.filter f l).
Proof.
  induction 1 as [|x l Hx Hl IH]; simpl; [constructor|].
  destruct (f x); [|done]. constructor; [|done].
  rewrite elem_of_List_filter. tauto.
Qed.

Lemma firstAppearance_NoDup (ks : list string) : NoDup (firstAppearance ks).
Proof.
  induction ks as [|k0 ks IH]; simpl; constructor.
  - rewrite elem_of_List_filter, negb_true_iff, String.eqb_neq. tauto.
  - by apply NoDup_List_filter.
Qed.

Lemma filter_lookup_order {A} (f : A → bool) (l : list A) (i j : nat) (x y : A) :
  i < j → List.filter f l !! i = Some x → List.filter f l !! j = Some y →
  ∃ i' j', i' < j' ∧ l !! i' = Some x ∧ l !! j' = Some y.
Proof.
  revert i j. induction l as [|a l IH]; intros i j Hij Hi Hj; simpl in *.
  - by rewrite lookup_nil in Hi.
  - destruct (f a).
    + destruct i as [|i]; destruct j as [|j]; simpl in *; try lia.
      * injection Hi as ->.
        assert (Hy : y ∈ l).
        { eapply (proj1 (elem_of_List_filter f l y)), list_elem_of_lookup_2, Hj. }
        apply list_elem_of_lookup in Hy as [j' Hj'].
        exists 0, (S j'). split; [lia | done].
      * destruct (IH i j) as (i' & j' & Hlt & Hi' & Hj'); [lia | done..|].
        exists (S i'), (S j'). split; [lia | done].
    + destruct (IH i j) as (i' & j' & Hlt & Hi' & Hj'); [done..|].
      exists (S i'), (S j'). split; [lia | done].
Qed.

(** Of two keys of [firstAppearance ks], the earlier one is seen in [ks]
    before the later one is. *)
Lemma firstAppearance_order (ks : list string) (i j : nat) (ki kj : string) :
  i < j → firstAppearance ks !! i = Some ki → firstAppearance ks !! j = Some kj →
  appearsBefore ks ki kj.
Proof.
  revert i j. induction ks as [|k ks IH]; intros i j Hij Hi Hj; simpl in *.
  - by rewrite lookup_nil in Hi.
  - destruct j as [|j]; [lia|]. simpl in Hj.
    assert (Hne : kj ≠ k).
    { apply list_elem_of_lookup_2, elem_of_List_filter in Hj as [_ Hj].
      by apply negb_true_iff, String.eqb_neq in Hj. }
    destruct i as [|i]; simpl in Hi.
    + injection Hi as ->. exists 0. split; [done|].
      intros p' Hp'. assert (p' = 0) as -> by lia. simpl. congruence.
    + destruct (filter_lookup_order (fun k' => negb (String.eqb k' k))
                  (firstAppearance ks) i j ki kj)
        as (i' & j' & Hlt & Hi' & Hj'); [lia | done..|].
      destruct (IH i' j' Hlt Hi' Hj') as (p & Hp & Hbefore).
      exists (S p). split; [done|].
      intros [|p'] Hp'; simpl; [congruence|]. apply Hbefore. lia.
Qed.

Lemma firstAppearance_snoc (ks : list string) (k : string) :
  firstAppearance (ks ++ [k]) =
  if decide (k ∈ ks) then firstAppearance ks else firstAppearance ks ++ [k].
Proof.
  induction ks as [|k0 ks IH].
  - destruct (decide (k ∈ [])) as [Hin | _]; [|done].
    by apply elem_of_nil in Hin.
  - change (firstAppearance ((k0 :: ks) ++ [k])) with
      (k0 :: List.filter (fun k' => negb (String.eqb k' k0))
               (firstAppearance (ks ++ [k]))).
    rewrite IH. destruct (decide (k ∈ ks)) as [Hin | Hin].
    + destruct (decide (k ∈ k0 :: ks)) as [_ | Hout]; [done|].
      destruct Hout. by right.
    + rewrite List.filter_app. simpl.
      destruct (decide (k = k0)) as [-> | Hne].
      * rewrite String.eqb_refl. simpl. rewrite app_nil_r.
        destruct (decide (k0 ∈ k0 :: ks)) as [_ | Hout]; [done|].
        destruct Hout. left.
      * apply String.eqb_neq in Hne as Hneb. rewrite Hneb. simpl.
        destruct (decide (k ∈ k0 :: ks)) as [Hin' | _]; [|done].
        apply elem_of_cons in Hin' as [? | ?]; done.
Qed.

Lemma JsMap_has_true {V} (k : string) (m : JsMap.t V) :
  JsMap.has k m = true ↔ k ∈ m.*1.
Proof.
  unfold JsMap.has. rewrite existsb_exists, list_elem_of_fmap. split.
  - intros (e & He & Heq). apply String.eqb_eq in Heq. exists e.
    split; [done | by apply list_elem_of_In].
  - intros (e & -> & He). exists e.
    split; [by apply list_elem_of_In | apply String.eqb_refl].
Qed.

Lemma JsMap_update_fresh {V} (k : string) (f : V → V) (m : JsMap.t V) (v : V) :
  k ∉ m.*1 → JsMap.update k f (m ++ [(k, v)]) = m ++ [(k, f v)].
Proof.
  induction m as [|e m IH]; simpl; intros Hk.
  - by rewrite String.eqb_refl.
  - apply not_elem_of_cons in Hk as [Hne Hk].
    apply String.eqb_neq in Hne. rewrite Hne. by rewrite IH.
Qed.

Lemma JsMap_update_tabulated {V} (k : string) (f : V → V) (g : string → V)
    (ks : list string) :
  NoDup ks →
  JsMap.update k f ((fun k' => (k', g k')) <$> ks) =
  (fun k' => (k', if String.eqb k k' then f (g k') else g k')) <$> ks.
Proof.
  induction 1 as [|k0 ks Hk0 Hks IH]; simpl; [done|].
  destruct (String.eqb k k0) eqn:Hk.
  - f_equal. apply String.eqb_eq in Hk. subst k0.
    apply list_fmap_ext. intros i k' Hk'.
    assert (Hne : k ≠ k') by (intros ->; apply Hk0; by eapply list_elem_of_lookup_2).
    apply String.eqb_neq in Hne. by rewrite Hne.
  - f_equal. apply IH.
Qed.

Lemma bucketsOf_keys {A} (keyOf : A → string) (R : list A) :
  (bucketsOf keyOf R).*1 = firstAppearance (keyOf <$> R).
Proof.
  unfold bucketsOf. rewrite <- list_fmap_compose. apply list_fmap_id.
Qed.

Lemma membersOf_snoc {A} (keyOf : A → string) (R : list A) (x : A) (k : string) :
  membersOf keyOf (R ++ [x]) k =
  if String.eqb (keyOf x) k then membersOf keyOf R k ++ [x] else membersOf keyOf R k.
Proof.
  unfold membersOf. rewrite List.filter_app. simpl.
  destruct (String.eqb (keyOf x) k); [done | apply app_nil_r].
Qed.

Lemma membersOf_absent {A} (keyOf : A → string) (R : list A) (k : string) :
  k ∉ keyOf <$> R → membersOf keyOf R k = [].
Proof.
  intros Hk. unfold membersOf. induction R as [|x R IH]; simpl; [done|].
  rewrite fmap_cons in Hk. apply not_elem_of_cons in Hk as [Hne Hk].
  assert (Hne' : keyOf x ≠ k) by congruence.
  apply String.eqb_neq in Hne'. rewrite Hne'. by apply IH.
Qed.

Lemma groupStep_bucketsOf {A} (keyOf : A → string) (R : list A) (x : A) :
  groupStep keyOf (bucketsOf keyOf R) x = bucketsOf keyOf (R ++ [x]).
Proof.
  unfold groupStep.
  assert (Hrhs : bucketsOf keyOf (R ++ [x]) =
    (fun k => (k, membersOf keyOf (R ++ [x]) k))
      <$> (if decide (keyOf x ∈ keyOf <$> R)
           then firstAppearance (keyOf <$> R)
           else firstAppearance (keyOf <$> R) ++ [keyOf x])).
  { unfold bucketsOf. rewrite fmap_app. change (keyOf <$> [x]) with [keyOf x].
    by rewrite firstAppearance_snoc. }
  rewrite Hrhs. clear Hrhs.
  destruct (JsMap.has (keyOf x) (bucketsOf keyOf R)) eqn:Hhas; simpl.
  - apply JsMap_has_true in Hhas.
    rewrite bucketsOf_keys, firstAppearance_elem in Hhas.
    rewrite decide_True by done. unfold bucketsOf.
    rewrite JsMap_update_tabulated by apply firstAppearance_NoDup.
    apply list_fmap_ext. intros i k _. rewrite membersOf_snoc.
    rewrite (String.eqb_sym (keyOf x) k). done.
  - assert (Hfresh : keyOf x ∉ (bucketsOf keyOf R).*1).
    { intros Hin. apply JsMap_has_true in Hin. congruence. }
    unfold JsMap.set. rewrite Hhas. rewrite JsMap_update_fresh by done.
    rewrite bucketsOf_keys, firstAppearance_elem in Hfresh.
    rewrite decide_False by done. rewrite fmap_app. simpl.
    rewrite membersOf_snoc, String.eqb_refl, membersOf_absent by done.
    f_equal. unfold bucketsOf. apply list_fmap_ext. intros i k Hk.
    rewrite membersOf_snoc.
    assert (Hne : keyOf x ≠ k).
    { intros Heq. apply Hfresh. rewrite Heq. apply firstAppearance_elem.
      by eapply list_elem_of_lookup_2. }
    apply String.eqb_neq in Hne. by rewrite Hne.
Qed.

(** The grouping loop builds the buckets of the first-appearance keys. *)
Lemma grouping_loop {A} (keyOf : A → string) (R : list A) :
  fold_left (groupStep keyOf) R JsMap.empty = bucketsOf keyOf R.
Proof.
  induction R as [|x R IH] using rev_ind; [done|].
  by rewrite List.fold_left_app, IH, <- groupStep_bucketsOf.
Qed.

Lemma filter_split_Permutation {A} (f : A → bool) (l : list A) :
  List.filter f l ++ List.filter (fun x => negb (f x)) l ≡ₚ l.
Proof.
  induction l as [|x l IH]; simpl; [done|].
  destruct (f x); simpl.
  - by rewrite IH.
  - by rewrite <- Permutation_middle, IH.
Qed.

Lemma membersOf_without {A} (keyOf : A → string) (R : list A) (k0 k : string) :
  k ≠ k0 →
  membersOf keyOf (List.filter (fun x => negb (String.eqb (keyOf x) k0)) R) k =
  membersOf keyOf R k.
Proof.
  intros Hne. unfold membersOf. rewrite filter_filter_andb.
  apply List.filter_ext. intros x.
  destruct (String.eqb (keyOf x) k) eqn:Hk; [|apply andb_false_r].
  apply String.eqb_eq in Hk. subst k.
  apply String.eqb_neq in Hne. by rewrite Hne.
Qed.

(** Buckets over distinct keys that cover all keys of [R] hold the records
    of [R], each once. *)
Lemma buckets_Permutation {A} (keyOf : A → string) (ks : list string) (R : list A) :
  NoDup ks → (∀ x, x ∈ R → keyOf x ∈ ks) →
  concat (membersOf keyOf R <$> ks) ≡ₚ R.
Proof.
  intros Hks. revert R. induction Hks as [|k0 ks Hk0 Hks IH]; intros R Hcover.
  - destruct R as [|x R]; [done|].
    specialize (Hcover x (list_elem_of_here _ _)). by apply elem_of_nil in Hcover.
  - simpl.
    rewrite <- (filter_split_Permutation (fun x => String.eqb (keyOf x) k0) R) at 3.
    apply Permutation_app; [done|].
    rewrite <- (IH (List.filter (fun x => negb (String.eqb (keyOf x) k0)) R)).
    + apply eq_subrelation; [apply _|]. f_equal.
      apply list_fmap_ext. intros i k Hk. symmetry. apply membersOf_without.
      intros ->. apply Hk0. by eapply list_elem_of_lookup_2.
    + intros x [Hx Hne]%elem_of_List_filter.
      apply negb_true_iff, String.eqb_neq in Hne.
      specialize (Hcover x Hx). apply elem_of_cons in Hcover as [?|?]; done.
Qed.

Lemma length_concat_sum {A} (ls : list (list A)) :
  length (concat ls) = sum_list (length <$> ls).
Proof.
  induction ls as [|l ls IH]; simpl; [done|]. by rewrite length_app, IH.
Qed.

Lemma bucketsOf_lookup {A} (keyOf : A → string) (R : list A) (i : nat)
    (b : string * list A) :
  bucketsOf keyOf R !! i = Some b ↔
  firstAppearance (keyOf <$> R) !! i = Some b.1 ∧ b.2 = membersOf keyOf R b.1.
Proof.
  unfold bucketsOf. rewrite list_lookup_fmap.
  destruct (firstAppearance (keyOf <$> R) !! i) as [k|]; simpl.
  - destruct b as [k' ms]. simpl. split.
    + intros [= -> ->]. done.
    + intros [[= ->] ->]. done.
  - split; [done | by intros [? _]].
Qed.

Lemma bucketsOf_partitions {A} (keyOf : A → string) (R : list A) :
  partitions keyOf R (bucketsOf keyOf R).
Proof.
  assert (Hperm : concat (bucketsOf keyOf R).*2 ≡ₚ R).
  { unfold bucketsOf. rewrite <- list_fmap_compose.
    apply (buckets_Permutation keyOf); [apply firstAppearance_NoDup|].
    intros x Hx. apply firstAppearance_elem, list_elem_of_fmap. by exists x. }
  split_and!.
  - apply bucketsOf_keys.
  - intros i j bi bj Hij [Hi _]%bucketsOf_lookup [Hj _]%bucketsOf_lookup.
    by eapply firstAppearance_order.
  - intros i k members Hi. apply bucketsOf_lookup in Hi as [_ Hms]. exact Hms.
  - exact Hperm.
  - by rewrite <- length_concat_sum, Hperm.
  - intros r Hr.
    assert (Hk : keyOf r ∈ firstAppearance (keyOf <$> R)).
    { apply firstAppearance_elem, list_elem_of_fmap. by exists r. }
    apply list_elem_of_lookup in Hk as [i Hi]. exists i. split.
    + exists (keyOf r, membersOf keyOf R (keyOf r)). split.
      * by apply bucketsOf_lookup.
      * apply elem_of_List_filter. split; [done | apply String.eqb_refl].
    + intros j [k members] [Hj Hms]%bucketsOf_lookup Hin. simpl in *. subst members.
      apply elem_of_List_filter in Hin as [_ Hkey]. apply String.eqb_eq in Hkey.
      subst k. by eapply NoDup_lookup; [apply firstAppearance_NoDup|..].
Qed.

Lemma fmap_fmap_cancel {A B} (f : A → B) (g : B → A) (l : list A) :
  (∀ x, g (f x) = x) → g <$> (f <$> l) = l.
Proof.
  intros Hgf. induction l as [|x l IH]; simpl; [done|].
  rewrite Hgf. f_equal. exact IH.
Qed.

(** C2. Grouping partitions the filtered collection.  For alerts under
    either grouping mode, and for rules under their group name, the
    buckets are keyed by the distinct keys in order of first appearance,
    every record lies in exactly one bucket, the buckets together hold the
    records of the input with nothing added or lost, and the counts shown
    per bucket add up to the length of the input. *)
Theorem grouping_is_partition :
  (∀ (R : list Alert.t) (groupBy : GroupBy),
     groupBy ≠ GroupNone →
     ∃ groups,
       groupedAlerts R groupBy = Some groups ∧
       partitions (alertGroupKey groupBy) R groups ∧
       (fun row => (AlertGroupRow.groupKey row, AlertGroupRow.alerts row))
         <$> alertGroupRows groups = groups ∧
       sum_list (AlertGroupRow.count <$> alertGroupRows groups) = length R) ∧
  (∀ R : list Rule.t,
     partitions ruleGroupName R
       ((fun g => (RuleGroup.groupName g, RuleGroup.rules g)) <$> groupedRules R) ∧
     sum_list (RuleGroup.ruleCount <$> groupedRules R) = length R).
Proof.
  split.
  - intros R groupBy Hmode.
    exists (bucketsOf (alertGroupKey groupBy) R).
    pose proof (bucketsOf_partitions (alertGroupKey groupBy) R) as Hpart.
    split_and!.
    + unfold groupedAlerts. destruct groupBy; [done|..]; by rewrite grouping_loop.
    + exact Hpart.
    + unfold alertGroupRows, JsMap.entries. apply fmap_fmap_cancel. by intros [k ms].
    + destruct Hpart as (_ & _ & _ & _ & <- & _).
      unfold alertGroupRows, JsMap.entries. rewrite <- !list_fmap_compose.
      f_equal. apply list_fmap_ext. by intros i [k ms] _.
  - intros R. unfold groupedRules, JsMap.entries. rewrite grouping_loop.
    pose proof (bucketsOf_partitions ruleGroupName R) as Hpart. split.
    + rewrite fmap_fmap_cancel; [done|]. by intros [k ms].
    + destruct Hpart as (_ & _ & _ & _ & <- & _).
      rewrite <- !list_fmap_compose.
      f_equal. apply list_fmap_ext. by intros i [k ms] _.
Qed.

Lemma grouping_is_partition_witness :
  ∃ groups,
    groupedAlerts [Sample.a1; Sample.a2; Sample.a3] GroupState = Some groups ∧
    partitions (alertGroupKey GroupState) [Sample.a1; Sample.a2; Sample.a3] groups ∧
    sum_list (AlertGroupRow.count <$> alertGroupRows groups) = 3.
Proof.
  destruct (proj1 grouping_is_partition [Sample.a1; Sample.a2; Sample.a3] GroupState)
    as (groups & Hsome & Hpart & _ & Hsum); [discriminate|].
  exists groups. split_and!; [exact Hsome | exact Hpart | exact Hsum].
Defined.

(** The group-by-state scenario of the specification: two buckets, [active]
    with two alerts and [resolved] with one. *)
Example group_by_state_scenario :
  (fun row => (AlertGroupRow.groupKey row, AlertGroupRow.count row,
               Alert.id <$> AlertGroupRow.alerts row))
    <$> from_option alertGroupRows []
          (groupedAlerts [Sample.a1; Sample.a2; Sample.a3] GroupState)
  = [("active", 2, ["a1"; "a2"]); ("resolved", 1, ["a3"])].
Proof. reflexivity. Qed.

Example grouped_rules_scenario :
  (fun g => (RuleGroup.groupName g, RuleGroup.ruleCount g,
             Rule.id <$> RuleGroup.rules g))
    <$> groupedRules [Sample.r2; Sample.r1; Sample.r3]
  = [("infra", 1, ["r2"]); ("Ungrouped", 2, ["r1"; "r3"])].
Proof. reflexivity. Qed.

(** * Further properties *)

(** ** Deleting a saved search *)

Lemma List_filter_sublist {A} (f : A → bool) (l : list A) :
  List.filter f l `sublist_of` l.
Proof.
  induction l as [|x l IH]; simpl; [constructor|].
  destruct (f x); by constructor.
Qed.

Lemma List_filter_all {A} (f : A → bool) (l : list A) :
  (∀ x, x ∈ l → f x = true) → List.filter f l = l.
Proof.
  induction l as [|x l IH]; intros Hall; simpl; [done|].
  rewrite Hall by left. f_equal. apply IH. intros y Hy. apply Hall. by right.
Qed.

Lemma List_filter_none {A} (f : A → bool) (l : list A) :
  (∀ x, x ∈ l → f x = false) → List.filter f l = [].
Proof.
  induction l as [|x l IH]; intros Hnone; simpl; [done|].
  rewrite Hnone by left. apply IH. intros y Hy. apply Hnone. by right.
Qed.

Lemma length_filter_negb {A} (f : A → bool) (l : list A) :
  length (List.filter (fun x => negb (f x)) l) + length (List.filter f l) = length l.
Proof.
  induction l as [|x l IH]; simpl; [done|]. destruct (f x); simpl; lia.
Qed.

(** X1. Deleting a saved search removes exactly the entries carrying the
    id: the store is then the old store without them, the others in their
    order and as often as before.  An id that no entry carries leaves the
    page state as it was; no cell but the store is touched, and a second
    delete of the same id changes nothing more. *)
Theorem delete_saved_search_removes_id {F} (id : string) (st : PageState.t F) :
  PageState.savedSearches (deleteSavedSearch id st)
    = List.filter (fun s => negb (String.eqb (SavedSearch.id s) id))
        (PageState.savedSearches st) ∧
  (∀ s, s ∈ PageState.savedSearches (deleteSavedSearch id st) ↔
        s ∈ PageState.savedSearches st ∧ SavedSearch.id s ≠ id) ∧
  PageState.savedSearches (deleteSavedSearch id st)
    `sublist_of` PageState.savedSearches st ∧
  length (PageState.savedSearches (deleteSavedSearch id st))
    + length (List.filter (fun s => String.eqb (SavedSearch.id s) id)
                (PageState.savedSearches st))
    = length (PageState.savedSearches st) ∧
  ((∀ s, s ∈ PageState.savedSearches st → SavedSearch.id s ≠ id) →
     deleteSavedSearch id st = st) ∧
  (PageState.alerts (deleteSavedSearch id st) = PageState.alerts st ∧
   PageState.rules (deleteSavedSearch id st) = PageState.rules st ∧
   PageState.deletedRuleIds (deleteSavedSearch id st) = PageState.deletedRuleIds st ∧
   PageState.datasources (deleteSavedSearch id st) = PageState.datasources st ∧
   PageState.loading (deleteSavedSearch id st) = PageState.loading st ∧
   PageState.searchQuery (deleteSavedSearch id st) = PageState.searchQuery st ∧
   PageState.filters (deleteSavedSearch id st) = PageState.filters st ∧
   PageState.alertSearchQuery (deleteSavedSearch id st)
     = PageState.alertSearchQuery st ∧
   PageState.alertFilters (deleteSavedSearch id st) = PageState.alertFilters st) ∧
  deleteSavedSearch id (deleteSavedSearch id st) = deleteSavedSearch id st.
Proof.
  assert (Hnoop : ∀ st0 : PageState.t F,
    (∀ s, s ∈ PageState.savedSearches st0 → SavedSearch.id s ≠ id) →
    deleteSavedSearch id st0 = st0).
  { intros st0 Hno. destruct st0 as [al rs del ds ld q fl sv aq af].
    unfold deleteSavedSearch, PageState.setSavedSearches. simpl in *. f_equal.
    apply List_filter_all. intros s Hs.
    by apply negb_true_iff, String.eqb_neq, Hno. }
  assert (Helem : ∀ s, s ∈ PageState.savedSearches (deleteSavedSearch id st) ↔
                       s ∈ PageState.savedSearches st ∧ SavedSearch.id s ≠ id).
  { intros s. unfold deleteSavedSearch. simpl.
    by rewrite elem_of_List_filter, negb_true_iff, String.eqb_neq. }
  split; [reflexivity|]. split; [exact Helem|].
  split; [apply List_filter_sublist|].
  split; [apply (length_filter_negb (fun s => String.eqb (SavedSearch.id s) id))|].
  split; [apply Hnoop|]. split; [by repeat split|].
  apply Hnoop. intros s Hs. by apply Helem in Hs as [_ ?].
Qed.

(** A store of two entries: an id that neither carries removes nothing,
    the id of the first removes the first. *)
Lemma delete_saved_search_removes_id_witness :
  let stored :=
    saveCurrentSearch (Some "second") 1700000000001
      (saveCurrentSearch (Some "first") 1700000000000 Sample.page) in
  SavedSearch.name <$> PageState.savedSearches stored = ["first"; "second"] ∧
  deleteSavedSearch "ss-42" stored = stored ∧
  SavedSearch.name
    <$> PageState.savedSearches (deleteSavedSearch "ss-1700000000000" stored)
  = ["second"].
Proof.
  intros stored. split; [reflexivity|]. split.
  - destruct (delete_saved_search_removes_id "ss-42" stored)
      as (_ & _ & _ & _ & Hunknown & _).
    apply Hunknown. intros s Hs.
    apply elem_of_cons in Hs as [-> | Hs]; [vm_compute; discriminate|].
    apply list_elem_of_singleton in Hs as ->. vm_compute. discriminate.
  - destruct (delete_saved_search_removes_id "ss-1700000000000" stored)
      as (Hexact & _).
    rewrite Hexact. reflexivity.
Defined.

(** X2. Saving a search under a non-empty name and then deleting the id it
    was given brings the page state back, provided no stored entry already
    carried that id; in general the delete also takes every older entry
    with the same id along. *)
Theorem save_then_delete_restores {F} (name : string) (now : Z)
    (st : PageState.t F) :
  name ≠ "" →
  PageState.savedSearches
    (deleteSavedSearch ("ss-" +:+ pretty now) (saveCurrentSearch (Some name) now st))
  = List.filter (fun s => negb (String.eqb (SavedSearch.id s) ("ss-" +:+ pretty now)))
      (PageState.savedSearches st) ∧
  ((∀ s, s ∈ PageState.savedSearches st → SavedSearch.id s ≠ "ss-" +:+ pretty now) →
     deleteSavedSearch ("ss-" +:+ pretty now) (saveCurrentSearch (Some name) now st)
     = st).
Proof.
  intros Hname.
  assert (Hlist : PageState.savedSearches
    (deleteSavedSearch ("ss-" +:+ pretty now) (saveCurrentSearch (Some name) now st))
    = List.filter (fun s => negb (String.eqb (SavedSearch.id s) ("ss-" +:+ pretty now)))
        (PageState.savedSearches st)).
  { unfold deleteSavedSearch, PageState.setSavedSearches at 1.
    cbn [PageState.savedSearches]. rewrite save_appends by done.
    rewrite List.filter_app. simpl. rewrite String.eqb_refl. simpl.
    apply app_nil_r. }
  split; [exact Hlist|]. intros Hfresh.
  assert (Hcells : ∀ st1 st2 : PageState.t F,
    sameButSearch st2 st1 → PageState.searchQuery st1 = PageState.searchQuery st2 →
    PageState.filters st1 = PageState.filters st2 → st1 = st2).
  { intros [] [] Hsame Hq Hf. unfold sameButSearch in Hsame. simpl in *.
    destruct Hsame as (? & ? & ? & ? & ? & ? & ? & ?). congruence. }
  assert (Hsaved : PageState.savedSearches
    (deleteSavedSearch ("ss-" +:+ pretty now) (saveCurrentSearch (Some name) now st))
    = PageState.savedSearches st).
  { rewrite Hlist. apply List_filter_all. intros s Hs.
    by apply negb_true_iff, String.eqb_neq, Hfresh. }
  apply truthy_true in Hname.
  apply Hcells.
  - unfold sameButSearch. rewrite Hsaved.
    unfold saveCurrentSearch, deleteSavedSearch. rewrite Hname. by repeat split.
  - unfold saveCurrentSearch, deleteSavedSearch. by rewrite Hname.
  - unfold saveCurrentSearch, deleteSavedSearch. by rewrite Hname.
Qed.

Lemma save_then_delete_restores_witness :
  deleteSavedSearch "ss-1700000000000"
    (saveCurrentSearch (Some "mine") 1700000000000 Sample.page) = Sample.page.
Proof.
  destruct (save_then_delete_restores "mine" 1700000000000 Sample.page) as [_ Hback];
    [discriminate|].
  apply Hback. intros s Hs. by apply elem_of_nil in Hs.
Defined.

(** ** Expanding and collapsing groups *)

Lemma JsSet_elem_of_delete (x y : string) (s : JsSet.t) :
  x ∈ JsSet_delete y s ↔ x ∈ s ∧ x ≠ y.
Proof.
  unfold JsSet_delete. by rewrite elem_of_List_filter, negb_true_iff, String.eqb_neq.
Qed.

(** X3. Toggling a group flips the membership of that group id in the set
    of expanded groups and of no other id; a set without repetition stays
    so; toggling twice gives back a set with the same members, and the very
    same set when the group was collapsed to begin with. *)
Theorem toggle_group_flips_membership (groupId : string) (prev : JsSet.t) :
  (∀ x, x ∈ toggleGroupExpansion groupId prev ↔
        (x = groupId ∧ groupId ∉ prev) ∨ (x ≠ groupId ∧ x ∈ prev)) ∧
  (NoDup prev → NoDup (toggleGroupExpansion groupId prev)) ∧
  (∀ x, x ∈ toggleGroupExpansion groupId (toggleGroupExpansion groupId prev) ↔
        x ∈ prev) ∧
  (groupId ∉ prev →
     toggleGroupExpansion groupId (toggleGroupExpansion groupId prev) = prev).
Proof.
  assert (Helem : ∀ s x, x ∈ toggleGroupExpansion groupId s ↔
            (x = groupId ∧ groupId ∉ s) ∨ (x ≠ groupId ∧ x ∈ s)).
  { intros s x. unfold toggleGroupExpansion.
    destruct (JsSet.has groupId s) eqn:Hhas.
    - apply JsSet_has_true in Hhas. rewrite JsSet_elem_of_delete. naive_solver.
    - apply arrayIncludes_false in Hhas. rewrite JsSet_elem_of_add. split.
      + intros [-> | Hx]; [by left|].
        destruct (decide (x = groupId)) as [-> | Hne]; [done | by right].
      + intros [[-> _] | [_ Hx]]; [by left | by right]. }
  split_and!.
  - apply Helem.
  - intros Hnd. unfold toggleGroupExpansion. destruct (JsSet.has groupId prev).
    + by apply NoDup_List_filter.
    + by apply JsSet_NoDup_add.
  - intros x. rewrite !Helem. destruct (decide (x = groupId)) as [-> | Hne].
    + destruct (decide (groupId ∈ prev)); tauto.
    + tauto.
  - intros Hout. unfold toggleGroupExpansion at 2.
    apply arrayIncludes_false in Hout as Hhas. unfold JsSet.has. rewrite Hhas.
    unfold JsSet.add, JsSet.has. rewrite Hhas.
    unfold toggleGroupExpansion, JsSet.has.
    assert (Hin : Js.arrayIncludes (prev ++ [groupId]) groupId = true).
    { apply arrayIncludes_true, elem_of_app. right. left. }
    rewrite Hin. unfold JsSet_delete. rewrite List.filter_app. simpl.
    rewrite String.eqb_refl. simpl. rewrite app_nil_r.
    apply List_filter_all. intros y Hy.
    apply negb_true_iff, String.eqb_neq. by intros ->.
Qed.

Lemma toggle_group_flips_membership_witness :
  NoDup (toggleGroupExpansion "ds-1" ["ds-2"]) ∧
  toggleGroupExpansion "ds-1" (toggleGroupExpansion "ds-1" ["ds-2"]) = ["ds-2"].
Proof.
  pose proof (toggle_group_flips_membership "ds-1" ["ds-2"]) as (_ & Hnd & _ & Hback).
  split.
  - apply Hnd. apply NoDup_singleton.
  - apply Hback. intros Hin. apply list_elem_of_singleton in Hin. discriminate.
Defined.

(** Expanding a second group and collapsing the first moves no member but
    the one toggled; the order of the set is the order of expansion. *)
Example toggle_group_example :
  toggleGroupExpansion "ds-1" (toggleGroupExpansion "ds-2" ["ds-1"]) = ["ds-2"] ∧
  toggleGroupExpansion "ds-1" (toggleGroupExpansion "ds-1" ["ds-1"; "ds-2"])
    = ["ds-2"; "ds-1"].
Proof. by split. Qed.

(** ** Datasource names *)

Lemma JsMap_get_update {V} (k k' : string) (f : V → V) (m : JsMap.t V) :
  JsMap.get k (JsMap.update k' f m) =
  if String.eqb k k' then f <$> JsMap.get k m else JsMap.get k m.
Proof.
  induction m as [|e m IH]; simpl.
  - by destruct (String.eqb k k').
  - destruct (String.eqb k' e.1) eqn:Hk'; simpl.
    + apply String.eqb_eq in Hk'. subst k'.
      by destruct (String.eqb k e.1).
    + rewrite IH. destruct (String.eqb k k') eqn:Hk; [|done].
      apply String.eqb_eq in Hk. subst k'. by rewrite Hk'.
Qed.

Lemma JsMap_get_app {V} (k : string) (m m' : JsMap.t V) :
  JsMap.get k (m ++ m') =
  match JsMap.get k m with Some v => Some v | None => JsMap.get k m' end.
Proof.
  induction m as [|e m IH]; simpl; [done|]. by destruct (String.eqb k e.1).
Qed.

Lemma JsMap_has_get {V} (k : string) (m : JsMap.t V) :
  JsMap.has k m = bool_decide (is_Some (JsMap.get k m)).
Proof.
  induction m as [|e m IH]; simpl; [done|].
  destruct (String.eqb k e.1); simpl; [reflexivity | exact IH].
Qed.

Lemma JsMap_get_set {V} (k k' : string) (v : V) (m : JsMap.t V) :
  JsMap.get k (JsMap.set k' v m) =
  if String.eqb k k' then Some v else JsMap.get k m.
Proof.
  unfold JsMap.set. rewrite JsMap_has_get.
  destruct (String.eqb k k') eqn:Hk.
  - apply String.eqb_eq in Hk. subst k'. case_bool_decide as Hsome.
    + rewrite JsMap_get_update, String.eqb_refl. by destruct Hsome as [w ->].
    + rewrite JsMap_get_app. simpl. rewrite String.eqb_refl.
      destruct (JsMap.get k m) eqn:Hget; [|done]. destruct Hsome. by eexists.
  - case_bool_decide.
    + by rewrite JsMap_get_update, Hk.
    + rewrite JsMap_get_app. simpl. rewrite Hk. by destruct (JsMap.get k m).
Qed.

Lemma last_filter_cons {A} (p : A → bool) (x : A) (l : list A) :
  last (List.filter p (x :: l)) =
  match last (List.filter p l) with
  | Some y => Some y
  | None => if p x then Some x else None
  end.
Proof.
  simpl. destruct (p x); [apply last_cons|]. by destruct (last (List.filter p l)).
Qed.

Lemma dsNameMap_get (datasources : list Datasource.t) (m : JsMap.t string)
    (id : string) :
  JsMap.get id
    (fold_left (fun m d => JsMap.set (Datasource.id d) (Datasource.name d) m)
       datasources m)
  = match last (List.filter (fun d => String.eqb (Datasource.id d) id) datasources) with
    | Some d => Some (Datasource.name d)
    | None => JsMap.get id m
    end.
Proof.
  revert m. induction datasources as [|d ds IH]; intros m; [done|].
  rewrite last_filter_cons. simpl fold_left. rewrite IH, JsMap_get_set.
  destruct (last (List.filter _ ds)); [done|].
  rewrite (String.eqb_sym id). by destruct (String.eqb (Datasource.id d) id).
Qed.

(** X4. The name shown for a datasource id is the name of the last
    datasource in the list carrying that id, when that name is non-empty;
    when no datasource carries the id, or that name is empty, the id itself
    is shown. *)
Theorem display_name_falls_back_to_id (datasources : list Datasource.t)
    (id : string) :
  displayName (dsNameMap datasources) id =
    match last (List.filter (fun d => String.eqb (Datasource.id d) id) datasources) with
    | Some d => if Js.truthy (Datasource.name d) then Datasource.name d else id
    | None => id
    end ∧
  ((∀ d, d ∈ datasources → Datasource.id d ≠ id) →
     displayName (dsNameMap datasources) id = id).
Proof.
  assert (Hform : displayName (dsNameMap datasources) id =
    match last (List.filter (fun d => String.eqb (Datasource.id d) id) datasources) with
    | Some d => if Js.truthy (Datasource.name d) then Datasource.name d else id
    | None => id
    end).
  { unfold displayName, dsNameMap. rewrite dsNameMap_get.
    by destruct (last (List.filter _ datasources)). }
  split; [exact Hform|]. intros Hnone. rewrite Hform.
  assert (Hempty : List.filter (fun d => String.eqb (Datasource.id d) id) datasources = []).
  { apply List_filter_none. intros d Hd. by apply String.eqb_neq, Hnone. }
  by rewrite Hempty.
Qed.

Lemma display_name_falls_back_to_id_witness :
  displayName (dsNameMap [Fixture.ds1; Fixture.ds2]) "ds-9" = "ds-9".
Proof.
  apply (proj2 (display_name_falls_back_to_id [Fixture.ds1; Fixture.ds2] "ds-9")).
  intros d Hd. elem_cases Hd; discriminate.
Defined.

Example display_name_example :
  displayName (dsNameMap [Fixture.ds1; Fixture.ds2; Fixture.ds1']) <$>
    ["ds-1"; "ds-2"; "ds-3"]
  = ["OpenSearch (renamed)"; "ds-2"; "ds-3"].
Proof. reflexivity. Qed.

(** ** Rules made on the page *)

(** A decimal numeral has no dash, so in [ai-<reading>-<index>] the index
    is what follows the last dash, whatever the reading. *)
Lemma hasDash_pretty_N_go (x : N) (s : string) :
  hasDash (pretty_N_go x s) = hasDash s.
Proof.
  revert s. induction (N.lt_wf_0 x) as [x _ IH]; intros s.
  assert (x = 0 ∨ 0 < x)%N as [-> | Hpos] by lia; [by rewrite pretty_N_go_0|].
  rewrite pretty_N_go_step by done. rewrite IH by (by apply N.div_lt).
  simpl. unfold pretty_N_char. by repeat case_match.
Qed.

Lemma hasDash_pretty_nat (i : nat) : hasDash (pretty i) = false.
Proof.
  unfold pretty, pretty_nat, pretty, pretty_N.
  destruct (decide (N.of_nat i = 0%N)); [done | apply hasDash_pretty_N_go].
Qed.

Lemma hasDash_app_dash (x d : string) : hasDash (x +:+ "-" +:+ d) = true.
Proof. induction x as [|c x IH]; simpl; [done|]. by rewrite IH, orb_true_r. Qed.

Lemma afterLastDash_app (x d : string) :
  hasDash d = false → afterLastDash (x +:+ "-" +:+ d) = d.
Proof.
  intros Hd. induction x as [|c x IH]; simpl.
  - change ("" +:+ d) with d. by rewrite Hd.
  - by rewrite hasDash_app_dash.
Qed.

Lemma ai_id_inj (a b : Z) (i j : nat) :
  "ai-" +:+ pretty a +:+ "-" +:+ pretty i =
  "ai-" +:+ pretty b +:+ "-" +:+ pretty j → i = j.
Proof.
  intros Heq. apply (inj (String.app "ai-")) in Heq.
  apply (f_equal afterLastDash) in Heq.
  rewrite !afterLastDash_app in Heq by apply hasDash_pretty_nat.
  by apply (inj pretty).
Qed.

(** X5. The wizard puts one new rule per template in front of the rule
    list, in template order: each takes name, severity, query, condition,
    labels and annotations from its template, is enabled with status
    active, and is marked as made by [ai-wizard]; its id is made of the
    clock reading taken for it and its index, so that the ids of one batch
    are pairwise distinct whatever the clock reads.  The rules already
    there and the other cells of the page are kept; the wizard is closed
    and the other dialog flag is kept. *)
Theorem ai_wizard_prepends_batch {F} (templates : list AlertTemplate.t)
    (clock : nat → Z) (stamp : string) (st : PageState.t F) (dialogs : Dialogs.t) :
  ∃ newRules,
    PageState.rules (handleAiCreateMonitors templates clock stamp st dialogs).1 =
      newRules ++ PageState.rules st ∧
    length newRules = length templates ∧
    (∀ i t, templates !! i = Some t →
       ∃ r, newRules !! i = Some r ∧
            Rule.id r = "ai-" +:+ pretty (clock i) +:+ "-" +:+ pretty i ∧
            Rule.name r = AlertTemplate.name t ∧
            Rule.severity r = AlertTemplate.severity t ∧
            Rule.query r = Some (AlertTemplate.query t) ∧
            Rule.condition r = AlertTemplate.condition t ∧
            Rule.labels r = AlertTemplate.labels t ∧
            Rule.annotations r = AlertTemplate.annotations t ∧
            Rule.enabled r = true ∧ Rule.status r = StatusActive ∧
            Rule.createdBy r = "ai-wizard" ∧
            Rule.createdAt r = stamp ∧ Rule.lastModified r = stamp) ∧
    NoDup (Rule.id <$> newRules) ∧
    sameButRules st (handleAiCreateMonitors templates clock stamp st dialogs).1 ∧
    Dialogs.showAiWizard (handleAiCreateMonitors templates clock stamp st dialogs).2
      = false ∧
    Dialogs.showCreateMonitor (handleAiCreateMonitors templates clock stamp st dialogs).2
      = Dialogs.showCreateMonitor dialogs.
Proof.
  eexists. split; [reflexivity|]. split_and!.
  - apply length_imap.
  - intros i t Hi. rewrite list_lookup_imap, Hi. simpl.
    eexists. split; [reflexivity|]. by split_and!.
  - apply NoDup_alt. intros i j x.
    rewrite !list_lookup_fmap, !list_lookup_imap.
    destruct (templates !! i) as [ti|]; [|done].
    destruct (templates !! j) as [tj|]; [|done]. simpl.
    intros Hi Hj. rewrite <- Hj in Hi. apply (inj Some) in Hi.
    by apply (ai_id_inj (clock i) (clock j)).
  - by repeat split.
  - reflexivity.
  - reflexivity.
Qed.

(** Two templates, the clock moving on by a millisecond in between. *)
Lemma ai_wizard_prepends_batch_witness :
  ∃ newRules,
    PageState.rules
      (handleAiCreateMonitors
         [Fixture.template "CPU" "cpu high"; Fixture.template "Disk" "disk full"]
         (fun i => 1700000000000 + Z.of_nat i)%Z "2023-11-14T22:13:20.000Z"
         Sample.page (Dialogs.mk false true)).1
      = newRules ++ [Sample.r1; Sample.r2] ∧
    length newRules = 2 ∧
    (∃ r, newRules !! 1 = Some r ∧ Rule.id r = "ai-1700000000001-1" ∧
          Rule.name r = "Disk") ∧
    NoDup (Rule.id <$> newRules).
Proof.
  destruct (ai_wizard_prepends_batch
              [Fixture.template "CPU" "cpu high"; Fixture.template "Disk" "disk full"]
              (fun i => 1700000000000 + Z.of_nat i)%Z "2023-11-14T22:13:20.000Z"
              Sample.page (Dialogs.mk false true))
    as (newRules & Hrules & Hlen & Heach & Hids & _).
  exists newRules. split_and!; [exact Hrules | exact Hlen | | exact Hids].
  destruct (Heach 1 (Fixture.template "Disk" "disk full") eq_refl)
    as (r & Hr & Hid & Hname & _).
  exists r. split_and!; [exact Hr | exact Hid | exact Hname].
Defined.

Lemma rowsToObject_lookup_from (rows : list KeyValue.t) (obj : gmap string string)
    (k : string) :
  k ≠ "__proto__" →
  fold_left
    (fun obj l =>
       if Js.truthy (KeyValue.key l) && Js.truthy (KeyValue.value l)
       then Js.assign obj (KeyValue.key l) (KeyValue.value l)
       else obj)
    rows obj !! k
  = match decidingRow rows k with
    | Some l => Some (KeyValue.value l)
    | None => obj !! k
    end.
Proof.
  intros Hk. unfold decidingRow. revert obj.
  induction rows as [|l rows IH]; intros obj; [done|].
  rewrite last_filter_cons. simpl fold_left. rewrite IH.
  destruct (last (List.filter _ rows)); [done|].
  destruct (Js.truthy (KeyValue.key l) && Js.truthy (KeyValue.value l));
    [|by rewrite andb_false_r].
  rewrite andb_true_r. unfold Js.assign.
  destruct (String.eqb (KeyValue.key l) k) eqn:Hkey.
  - apply String.eqb_eq in Hkey. subst k.
    apply String.eqb_neq in Hk. by rewrite Hk, lookup_insert_eq.
  - apply String.eqb_neq in Hkey.
    destruct (String.eqb (KeyValue.key l) "__proto__"); [done|].
    by rewrite lookup_insert_ne.
Qed.

Lemma rowsToObject_no_proto_from (rows : list KeyValue.t) (obj : gmap string string) :
  obj !! "__proto__" = None →
  fold_left
    (fun obj l =>
       if Js.truthy (KeyValue.key l) && Js.truthy (KeyValue.value l)
       then Js.assign obj (KeyValue.key l) (KeyValue.value l)
       else obj)
    rows obj !! "__proto__" = None.
Proof.
  revert obj. induction rows as [|l rows IH]; intros obj Hobj; [done|].
  simpl. apply IH.
  destruct (Js.truthy (KeyValue.key l) && Js.truthy (KeyValue.value l)); [|done].
  unfold Js.assign. destruct (String.eqb (KeyValue.key l) "__proto__") eqn:Hkey; [done|].
  apply String.eqb_neq in Hkey. by rewrite lookup_insert_ne.
Qed.

Lemma rowsToObject_lookup (rows : list KeyValue.t) (k : string) :
  rowsToObject rows !! k
  = if String.eqb k "__proto__" then None
    else KeyValue.value <$> decidingRow rows k.
Proof.
  unfold rowsToObject. destruct (String.eqb_spec k "__proto__") as [-> | Hk].
  - by apply rowsToObject_no_proto_from.
  - rewrite rowsToObject_lookup_from by done. by destruct (decidingRow rows k).
Qed.

Lemma decidingRow_Some (rows : list KeyValue.t) (k : string) (l : KeyValue.t) :
  decidingRow rows k = Some l →
  l ∈ rows ∧ KeyValue.key l = k ∧ KeyValue.key l ≠ "" ∧ KeyValue.value l ≠ "".
Proof.
  unfold decidingRow. intros Hlast.
  assert (Hin : l ∈ List.filter
            (fun l => String.eqb (KeyValue.key l) k
                      && (Js.truthy (KeyValue.key l) && Js.truthy (KeyValue.value l)))
            rows).
  { apply last_Some in Hlast as [l' ->]. apply elem_of_app. right. left. }
  apply elem_of_List_filter in Hin as [Hin Hp].
  apply andb_true_iff in Hp as [Hk Hp]. apply andb_true_iff in Hp as [Hkey Hval].
  by rewrite String.eqb_eq in Hk; rewrite truthy_true in Hkey, Hval.
Qed.

(** X6. Creating a monitor from the form puts one new rule at the head of
    the rule list, keeps the rest and the other cells of the page, and
    closes the dialog.  The rule is enabled as the form says, with status
    active when enabled and disabled when not.  Its labels and annotations
    come from the form rows: a row with an empty key or an empty value is
    dropped, a row with the key [__proto__] stores nothing, and of several
    rows with the same key the last one counts. *)
Theorem create_monitor_prepends_rule {F Num} (renderNumber : Num → string)
    (numberJson : Num → Js.Json) (formState : MonitorForm.t Num) (now : Z)
    (stamp : string) (st : PageState.t F) (dialogs : Dialogs.t) :
  let result :=
    handleCreateMonitor renderNumber numberJson formState now stamp st dialogs in
  ∃ newRule,
    PageState.rules result.1 = newRule :: PageState.rules st ∧
    sameButRules st result.1 ∧
    Dialogs.showCreateMonitor result.2 = false ∧
    Dialogs.showAiWizard result.2 = Dialogs.showAiWizard dialogs ∧
    Rule.id newRule = "new-" +:+ pretty now ∧
    Rule.name newRule = MonitorForm.name formState ∧
    Rule.enabled newRule = MonitorForm.enabled formState ∧
    (Rule.status newRule = StatusActive ↔ Rule.enabled newRule = true) ∧
    (Rule.status newRule = StatusDisabled ↔ Rule.enabled newRule = false) ∧
    (∀ k, Rule.labels newRule !! k =
          if String.eqb k "__proto__" then None
          else KeyValue.value <$> decidingRow (MonitorForm.labels formState) k) ∧
    (∀ k, Rule.annotations newRule !! k =
          if String.eqb k "__proto__" then None
          else KeyValue.value <$> decidingRow (MonitorForm.annotations formState) k) ∧
    (∀ k v, Rule.labels newRule !! k = Some v ∨ Rule.annotations newRule !! k = Some v →
            k ≠ "" ∧ k ≠ "__proto__" ∧ v ≠ "").
Proof.
  intros result. eexists. split; [reflexivity|]. simpl.
  split_and!; [by repeat split | reflexivity | reflexivity | reflexivity
              | reflexivity | reflexivity
              | by destruct (MonitorForm.enabled formState)
              | by destruct (MonitorForm.enabled formState)
              | apply rowsToObject_lookup | apply rowsToObject_lookup |].
  intros k v [Hk | Hk]; rewrite rowsToObject_lookup in Hk;
    destruct (String.eqb_spec k "__proto__") as [-> | Hproto]; try done;
    destruct (decidingRow _ k) as [l|] eqn:Hrow; simplify_eq/=;
    apply decidingRow_Some in Hrow as (_ & Hkey & ? & ?);
    rewrite Hkey in *; done.
Qed.

Lemma create_monitor_prepends_rule_witness :
  ∃ newRule,
    PageState.rules
      (handleCreateMonitor pretty Js.JNum (Fixture.form false) 1700000000000
         "2023-11-14T22:13:20.000Z" Sample.page (Dialogs.mk true false)).1
      = [newRule; Sample.r1; Sample.r2] ∧
    Rule.status newRule = StatusDisabled ∧
    Rule.labels newRule !! "team" = Some "db" ∧
    "team" ≠ "" ∧ "team" ≠ "__proto__" ∧ "db" ≠ "".
Proof.
  destruct (create_monitor_prepends_rule pretty Js.JNum (Fixture.form false)
              1700000000000 "2023-11-14T22:13:20.000Z" Sample.page
              (Dialogs.mk true false))
    as (newRule & Hrules & _ & _ & _ & _ & _ & Hen & _ & Hdis & Hlab & _ & Hrows).
  assert (Hteam : Rule.labels newRule !! "team" = Some "db").
  { rewrite Hlab. reflexivity. }
  exists newRule. split; [exact Hrules|]. split; [apply Hdis; by rewrite Hen|].
  split; [exact Hteam|]. apply (Hrows "team" "db"). left. exact Hteam.
Defined.

Example create_monitor_example :
  (fun r => (Rule.id r, Rule.status r, map_to_list (Rule.labels r),
             Rule.condition r))
    <$> head (PageState.rules
                (handleCreateMonitor pretty Js.JNum (Fixture.form false)
                   1700000000000 "2023-11-14T22:13:20.000Z" Sample.page
                   (Dialogs.mk true false)).1)
  = Some ("new-1700000000000", StatusDisabled, [("team", "db")], "> 90%").
Proof. vm_compute. reflexivity. Qed.

(** A row with the key [__proto__] leaves no label. *)
Example create_monitor_proto_row :
  rowsToObject [KeyValue.mk "__proto__" "x"; KeyValue.mk "team" "sre"]
  = {[ "team" := "sre" ]}.
Proof. reflexivity. Qed.

(** ** Breakdown badges of a group *)

Lemma occurrences_cons {A} (keyOf : A → string) (x : A) (l : list A) (k : string) :
  occurrences keyOf (x :: l) k =
  (if String.eqb (keyOf x) k then 1 else 0) + occurrences keyOf l k.
Proof. unfold occurrences. simpl. by destruct (String.eqb (keyOf x) k). Qed.

(** Counting by [acc[k] = (acc[k] || 0) + 1], from any start. *)
Lemma count_loop_lookup {A} (keyOf : A → string) (l : list A)
    (acc : gmap string nat) (k : string) :
  default 0
    (fold_left (fun acc x => <[keyOf x := default 0 (acc !! keyOf x) + 1]> acc) l acc
       !! k)
  = default 0 (acc !! k) + occurrences keyOf l k.
Proof.
  revert acc. induction l as [|x l IH]; intros acc.
  - unfold occurrences. simpl. lia.
  - simpl fold_left. rewrite IH, occurrences_cons.
    destruct (String.eqb (keyOf x) k) eqn:Hk.
    + apply String.eqb_eq in Hk. subst k. rewrite lookup_insert_eq. simpl. lia.
    + apply String.eqb_neq in Hk. rewrite lookup_insert_ne by done. lia.
Qed.

Lemma count_loop_positive {A} (keyOf : A → string) (l : list A)
    (acc : gmap string nat) :
  (∀ k n, acc !! k = Some n → 0 < n) →
  ∀ k n,
    fold_left (fun acc x => <[keyOf x := default 0 (acc !! keyOf x) + 1]> acc) l acc
      !! k = Some n → 0 < n.
Proof.
  revert acc. induction l as [|x l IH]; intros acc Hpos; [done|].
  simpl fold_left. apply IH. intros k n.
  destruct (decide (keyOf x = k)) as [<- | Hne].
  - rewrite lookup_insert_eq. intros [= <-]. lia.
  - rewrite lookup_insert_ne by done. apply Hpos.
Qed.

Lemma total_insert_fresh (counts : gmap string nat) (k : string) (n : nat) :
  counts !! k = None → total (<[k := n]> counts) = n + total counts.
Proof.
  intros Hk. unfold total. rewrite map_fold_insert_L; [done| |done].
  intros. lia.
Qed.

Lemma total_bump (counts : gmap string nat) (k : string) :
  total (<[k := default 0 (counts !! k) + 1]> counts) = S (total counts).
Proof.
  destruct (counts !! k) as [n|] eqn:Hk; simpl.
  - rewrite <- insert_delete_eq.
    rewrite total_insert_fresh by apply lookup_delete_eq.
    rewrite <- (insert_delete_id counts k n) at 2 by done.
    rewrite total_insert_fresh by apply lookup_delete_eq. lia.
  - by rewrite total_insert_fresh.
Qed.

Lemma total_empty : total ∅ = 0.
Proof. apply map_fold_empty. Qed.

Lemma count_loop_total {A} (keyOf : A → string) (l : list A) (acc : gmap string nat) :
  total (fold_left (fun acc x => <[keyOf x := default 0 (acc !! keyOf x) + 1]> acc) l acc)
  = total acc + length l.
Proof.
  revert acc. induction l as [|x l IH]; intros acc; simpl; [lia|].
  rewrite IH, total_bump. lia.
Qed.

(** X7. In every row of the grouped alert table the state badges and the
    severity badges each add up to the count of the group; a badge shows
    the number of the group's alerts with that state or severity, and no
    badge shows zero. *)
Theorem breakdown_adds_up_to_count (groupedAlerts : JsMap.t (list Alert.t))
    (row : AlertGroupRow.t) :
  row ∈ alertGroupRows groupedAlerts →
  total (AlertGroupRow.stateBreakdown row) = AlertGroupRow.count row ∧
  total (AlertGroupRow.severityBreakdown row) = AlertGroupRow.count row ∧
  (∀ k, default 0 (AlertGroupRow.stateBreakdown row !! k) =
        occurrences Alert.state (AlertGroupRow.alerts row) k) ∧
  (∀ k, default 0 (AlertGroupRow.severityBreakdown row !! k) =
        occurrences Alert.severity (AlertGroupRow.alerts row) k) ∧
  (∀ k n, AlertGroupRow.stateBreakdown row !! k = Some n ∨
          AlertGroupRow.severityBreakdown row !! k = Some n → 0 < n).
Proof.
  unfold alertGroupRows, JsMap.entries. intros Hrow.
  apply list_elem_of_fmap in Hrow as ([groupKey groupAlerts] & -> & _). simpl.
  unfold breakdown. split_and!.
  - by rewrite count_loop_total, total_empty.
  - by rewrite count_loop_total, total_empty.
  - intros k. by rewrite count_loop_lookup, lookup_empty.
  - intros k. by rewrite count_loop_lookup, lookup_empty.
  - intros k n [Hn | Hn]; eapply count_loop_positive in Hn; try done;
      intros k' n'; by rewrite lookup_empty.
Qed.

Lemma breakdown_adds_up_to_count_witness :
  total (breakdown Alert.state [Sample.a1; Sample.a3]) = 2 ∧
  default 0 (breakdown Alert.state [Sample.a1; Sample.a3] !! "active") = 1.
Proof.
  destruct (breakdown_adds_up_to_count
              [("ds-1", [Sample.a1; Sample.a3]); ("ds-2", [Sample.a2])]
              (AlertGroupRow.mk "ds-1" 2 [Sample.a1; Sample.a3]
                 (breakdown Alert.state [Sample.a1; Sample.a3])
                 (breakdown Alert.severity [Sample.a1; Sample.a3])))
    as (Htotal & _ & Hstate & _).
  - left.
  - split; [exact Htotal | exact (Hstate "active")].
Defined.

(** ** Facet counts *)


Lemma entries_singleton {V} (k : string) (v : V) :
  Js.entries ({[ k := v ]} : gmap string V) = [(k, v)].
Proof. unfold Js.entries. apply map_to_list_singleton. Qed.

Lemma arrayIncludes_singleton (v x : string) :
  Js.arrayIncludes [v] x = String.eqb x v.
Proof. unfold Js.arrayIncludes. simpl. apply orb_false_r. Qed.


Lemma filteredAlerts_single_label {engine : Js.Engine}
    (alerts : list Alert.t) (key v : string)
    (g : GroupBy) :
  v ≠ "" →
  filteredAlerts alerts "" (onlyLabel key v g)
    = List.filter (fun a => String.eqb (labelOf key a) v) alerts.
Proof.
  intros Hv. rewrite filteredAlerts_passes. apply List.filter_ext. intros a.
  unfold passes, queryStage, facetStage, onlyLabel. simpl.
  rewrite entries_singleton. simpl.
  unfold labelStage. simpl. rewrite andb_true_r.
  apply eq_iff_eq_true. rewrite labelPasses_spec, String.eqb_eq. unfold labelOf.
  split.
  - intros (w & Hw & _ & Hin). apply list_elem_of_singleton in Hin. subst w.
    by rewrite Hw.
  - intros Heq. exists v. split_and!; [|done|by left].
    destruct (Alert.labels a !! key) as [w|]; simpl in Heq; by subst.
Qed.




Example facet_counts_example :
  let engine : Js.Engine := Js.asciiEngine in
  let counts := (facetCounts [Sample.a1; Sample.a2; Sample.a3] ["service"]).1 in
  shownCount (FacetCounts.state counts) <$> ["active"; "resolved"; "pending"]
    = [2; 1; 0] ∧
  length (filteredAlerts [Sample.a1; Sample.a2; Sample.a3] ""
            (onlyState "active" GroupNone)) = 2.
Proof. vm_compute. done. Qed.

(** The slots of [labelCounts]. *)
Lemma slot_write (key key' : string) (c : gmap string Count) (lc : LabelCounts.t) :
  LabelCounts.slot key' (LabelCounts.write key c lc)
  = if String.eqb key' key then Some c else LabelCounts.slot key' lc.
Proof.
  unfold LabelCounts.slot, LabelCounts.write.
  destruct (String.eqb key "__proto__") eqn:Hk; simpl.
  - apply String.eqb_eq in Hk. subst key.
    destruct (String.eqb key' "__proto__"); reflexivity.
  - destruct (String.eqb key' key) eqn:Hkk.
    + apply String.eqb_eq in Hkk. subst key'. by rewrite Hk, lookup_insert_eq.
    + apply String.eqb_neq in Hkk.
      destruct (String.eqb key' "__proto__"); [done|].
      by rewrite lookup_insert_ne.
Qed.

Lemma labelCountsOf_slot (lc : LabelCounts.t) (key : string) (c : gmap string Count) :
  LabelCounts.slot key lc = Some c → labelCountsOf lc key = Some c.
Proof.
  unfold LabelCounts.slot, labelCountsOf.
  destruct (String.eqb key "__proto__"); [done|]. by intros ->.
Qed.

Section LabelCounting.
Context {engine : Js.Engine} (key : string).

Lemma inner_loop_slot (alerts : list Alert.t) (lc : LabelCounts.t)
    (c : gmap string Count) :
  LabelCounts.slot key lc = Some c →
  LabelCounts.slot key (fold_left (countTurn key) alerts lc)
  = Some (fold_left (counterTurn key) alerts c).
Proof using Type.
  revert lc c. induction alerts as [|a alerts IH]; intros lc c Hslot; simpl; [done|].
  apply IH. unfold countTurn, counterTurn.
  destruct (Js.truthyValue (Js.get (Alert.labels a) key)); [|done].
  rewrite slot_write, String.eqb_refl. unfold LabelCounts.counter.
  by rewrite Hslot.
Qed.

Lemma inner_loop_other (alerts : list Alert.t) (lc : LabelCounts.t) (key' : string) :
  key' ≠ key →
  LabelCounts.slot key' (fold_left (countTurn key) alerts lc) = LabelCounts.slot key' lc.
Proof using Type.
  intros Hne. revert lc. induction alerts as [|a alerts IH]; intros lc; simpl; [done|].
  rewrite IH. unfold countTurn.
  destruct (Js.truthyValue (Js.get (Alert.labels a) key)); [|done].
  rewrite slot_write. apply String.eqb_neq in Hne. by rewrite Hne.
Qed.

Lemma turn_other (c : gmap string Count) (a : Alert.t) (name : string) :
  countedAs key a ≠ Some name → counterTurn key c a !! name = c !! name.
Proof using Type.
  unfold counterTurn, countedAs.
  destruct (Js.truthyValue (Js.get (Alert.labels a) key)); [|done].
  intros Hne. unfold Js.assign.
  destruct (String.eqb (Js.toText (Js.get (Alert.labels a) key)) "__proto__"); [done|].
  apply lookup_insert_ne. congruence.
Qed.

Lemma turn_counted (c : gmap string Count) (a : Alert.t) (name : string) :
  countedAs key a = Some name →
  counterTurn key c a = Js.assign c name (bump c name).
Proof using Type.
  unfold counterTurn, countedAs.
  destruct (Js.truthyValue (Js.get (Alert.labels a) key)); [|done].
  by intros [= ->].
Qed.

Lemma timesCounted_snoc (alerts : list Alert.t) (a : Alert.t) (name : string) :
  timesCounted key (alerts ++ [a]) name
  = timesCounted key alerts name
    + (if bool_decide (countedAs key a = Some name) then 1 else 0).
Proof using Type.
  unfold timesCounted. rewrite List.filter_app, length_app. simpl.
  by destruct (bool_decide (countedAs key a = Some name)).
Qed.

(** Under a name that [Object.prototype] does not have, the counter holds
    the number of alerts counted under it, and nothing when there is
    none. *)
Lemma counter_ordinary (alerts : list Alert.t) (name : string) :
  Js.inherited name = false →
  countLabel key alerts !! name
  = if timesCounted key alerts name =? 0 then None
    else Some (CNum (timesCounted key alerts name)).
Proof using Type.
  intros Hname. induction alerts as [|a alerts IH] using rev_ind; [done|].
  unfold countLabel in *. rewrite fold_left_app, timesCounted_snoc. simpl.
  set (c := fold_left (counterTurn key) alerts ∅) in *.
  destruct (bool_decide (countedAs key a = Some name)) eqn:Hcounted.
  - apply bool_decide_eq_true in Hcounted.
    rewrite (turn_counted c a name Hcounted). unfold Js.assign.
    assert (Hproto : String.eqb name "__proto__" = false).
    { apply String.eqb_neq. intros ->. by vm_compute in Hname. }
    rewrite Hproto, lookup_insert_eq. unfold bump. rewrite IH, Hname.
    destruct (timesCounted key alerts name); simpl; reflexivity.
  - apply bool_decide_eq_false in Hcounted.
    rewrite turn_other by done. rewrite IH, Nat.add_0_r. reflexivity.
Qed.

(** Under a name that [Object.prototype] has, the counter never holds a
    number: it holds nothing, or a text that is not empty. *)
Lemma counter_member (alerts : list Alert.t) (name : string) :
  Js.inherited name = true →
  countLabel key alerts !! name = None ∨
  ∃ s, countLabel key alerts !! name = Some (CText s) ∧ s ≠ "".
Proof using Type.
  intros Hname. induction alerts as [|a alerts IH] using rev_ind; [by left|].
  unfold countLabel in *. rewrite fold_left_app. simpl.
  set (c := fold_left (counterTurn key) alerts ∅) in *.
  destruct (decide (countedAs key a = Some name)) as [Hcounted | Hcounted].
  - rewrite (turn_counted c a name Hcounted).
    unfold Js.assign. destruct (String.eqb name "__proto__"); [exact IH|].
    right. rewrite lookup_insert_eq. unfold bump. rewrite Hname.
    destruct IH as [-> | (s & -> & Hs)].
    + eexists. split; [reflexivity|]. by destruct (Js.toText (Js.VInherited name)).
    + apply truthy_true in Hs. rewrite Hs.
      eexists. split; [reflexivity|]. by destruct s.
  - by rewrite turn_other.
Qed.
End LabelCounting.

(** The outer loop leaves, for every key it goes through, the counter that
    the inner loop builds for that key from an empty object. *)
Lemma label_loop_other {engine : Js.Engine} (labelKeys : list string)
    (alerts : list Alert.t) (lc : LabelCounts.t) (key : string) :
  key ∉ labelKeys →
  LabelCounts.slot key
    (fold_left
       (fun labelCounts k =>
          fold_left (countTurn k) alerts (LabelCounts.write k ∅ labelCounts))
       labelKeys lc) = LabelCounts.slot key lc.
Proof.
  revert lc. induction labelKeys as [|k ks IH]; intros lc Hkey; simpl; [done|].
  apply not_elem_of_cons in Hkey as [Hne Hkey].
  rewrite IH by done. rewrite inner_loop_other by done.
  rewrite slot_write. apply String.eqb_neq in Hne. by rewrite Hne.
Qed.

Lemma label_loop_slot {engine : Js.Engine} (labelKeys : list string)
    (alerts : list Alert.t) (lc : LabelCounts.t) (key : string) :
  key ∈ labelKeys →
  LabelCounts.slot key
    (fold_left
       (fun labelCounts k =>
          fold_left (countTurn k) alerts (LabelCounts.write k ∅ labelCounts))
       labelKeys lc)
  = Some (countLabel key alerts).
Proof.
  revert lc. induction labelKeys as [|k ks IH]; intros lc Hkey; simpl.
  - by apply elem_of_nil in Hkey.
  - destruct (decide (key ∈ ks)) as [Hin | Hout]; [by apply IH|].
    apply elem_of_cons in Hkey as [-> | ?]; [|done].
    rewrite label_loop_other by done.
    apply inner_loop_slot. by rewrite slot_write, String.eqb_refl.
Qed.

(** An ordinary value is counted for the alerts that carry it. *)
Lemma countedAs_ordinary {engine : Js.Engine} (key v : string) (a : Alert.t) :
  v ≠ "" →
  (key ∈ Js.objectPrototype → Js.toText (Js.VInherited key) ≠ v) →
  countedAs key a = Some v ↔ Alert.labels a !! key = Some v.
Proof.
  intros Hv Hkey. unfold countedAs, Js.get.
  destruct (Alert.labels a !! key) as [w|]; simpl.
  - destruct (Js.truthy w) eqn:Hw.
    + split; by intros [= ->].
    + apply truthy_false in Hw. subst w. split; [done | by intros [= <-]].
  - destruct (Js.inherited key) eqn:Hin; simpl; [|done].
    apply arrayIncludes_true in Hin. split; [|done].
    intros [= Heq]. by destruct (Hkey Hin).
Qed.

(** X9. For a label key among the keys the panel lists, the loop leaves a
    counter.  Next to a value that is not empty and not named like a
    member of [Object.prototype] it shows the number of alerts carrying
    that value under the key, which is also the number of alerts the table
    lists when that value alone is selected (for a key named like such a
    member, provided the value is not the text of that member); a value
    the panel offers has a number above zero.  Next to a value named like
    a member of [Object.prototype] it never shows a number. *)
Theorem label_counts_match_filter {engine : Js.Engine} (alerts : list Alert.t)
    (labelKeys : list string) (key v : string) (g : GroupBy) :
  key ∈ labelKeys →
  ∃ counter,
    labelCountsOf (facetCounts alerts labelKeys).2 key = Some counter ∧
    (v ≠ "" → (v ∉ Js.objectPrototype) →
     (key ∈ Js.objectPrototype → Js.toText (Js.VInherited key) ≠ v) →
       shownLabelCount counter v
         = ShownNumber (length (filteredAlerts alerts "" (onlyLabel key v g)))) ∧
    (Js.VStr v ∈ collectLabelValues alerts key → (v ∉ Js.objectPrototype) →
       ∃ n, shownLabelCount counter v = ShownNumber n ∧ 0 < n) ∧
    (v ∈ Js.objectPrototype → ∀ n, shownLabelCount counter v ≠ ShownNumber n).
Proof.
  intros Hkey. exists (countLabel key alerts).
  split; [apply labelCountsOf_slot, (label_loop_slot labelKeys alerts _ key Hkey)|].
  split_and!.
  - intros Hv Hord Hnot. apply arrayIncludes_false in Hord.
    unfold shownLabelCount. rewrite counter_ordinary by exact Hord.
    fold (Js.inherited v) in Hord.
    rewrite filteredAlerts_single_label by done.
    assert (Hsame : timesCounted key alerts v
              = length (List.filter (fun a => String.eqb (labelOf key a) v) alerts)).
    { unfold timesCounted. f_equal. apply List_filter_ext. intros a _.
      apply eq_iff_eq_true.
      rewrite bool_decide_eq_true, countedAs_ordinary, String.eqb_eq by done.
      unfold labelOf. destruct (Alert.labels a !! key) as [w|]; simpl.
      - split; [by intros [= ->] | by intros ->].
      - split; [done | by intros <-]. }
    rewrite Hsame.
    destruct (length (List.filter (fun a => String.eqb (labelOf key a) v) alerts));
      simpl; [by rewrite Hord | done].
  - intros Hoffered Hord. apply arrayIncludes_false in Hord.
    apply collectLabelValues_options in Hoffered as (Hne & a & Ha & Hlabel).
    unfold shownLabelCount. rewrite counter_ordinary by exact Hord.
    assert (Hpos : 0 < timesCounted key alerts v).
    { unfold timesCounted.
      assert (Hin : a ∈ List.filter
                          (fun a => bool_decide (countedAs key a = Some v)) alerts).
      { apply elem_of_List_filter. split; [done|]. apply bool_decide_eq_true.
        unfold countedAs, Js.get. rewrite Hlabel. simpl.
        apply truthy_true in Hne. by rewrite Hne. }
      revert Hin.
      generalize (List.filter (fun a => bool_decide (countedAs key a = Some v)) alerts).
      intros [|y l] Hin; [by apply elem_of_nil in Hin | simpl; lia]. }
    destruct (timesCounted key alerts v) as [|n]; [lia|].
    simpl. exists (S n). split; [done | lia].
  - intros Hmember n. apply arrayIncludes_true in Hmember.
    unfold shownLabelCount.
    destruct (counter_member key alerts v Hmember) as [-> | (s & -> & Hs)].
    + fold (Js.inherited v) in Hmember. by rewrite Hmember.
    + apply truthy_true in Hs. by rewrite Hs.
Qed.

Lemma label_counts_match_filter_witness :
  let engine : Js.Engine := Js.asciiEngine in
  ∃ counter,
    labelCountsOf
      (facetCounts [Sample.a1; Sample.a2; Sample.a3; Sample.a4] ["env"; "service"]).2
      "service" = Some counter ∧
    shownLabelCount counter "a"
    = ShownNumber
        (length (filteredAlerts [Sample.a1; Sample.a2; Sample.a3; Sample.a4] ""
                   (onlyLabel "service" "a" GroupNone))).
Proof.
  intros engine.
  destruct (label_counts_match_filter [Sample.a1; Sample.a2; Sample.a3; Sample.a4]
              ["env"; "service"] "service" "a" GroupNone)
    as (counter & Hcounter & Hshown & _).
  - right. left.
  - exists counter. split; [exact Hcounter|]. apply Hshown.
    + discriminate.
    + intros Hin. apply arrayIncludes_true in Hin. vm_compute in Hin. discriminate Hin.
    + intros Hin. apply arrayIncludes_true in Hin. vm_compute in Hin. discriminate Hin.
Defined.

Example label_counts_example :
  let engine : Js.Engine := Js.asciiEngine in
  let labelCounts :=
    (facetCounts [Sample.a1; Sample.a2; Sample.a3; Sample.a4] ["env"; "service"]).2 in
  (fun counter => shownLabelCount counter <$> ["a"; "b"; "c"])
    <$> labelCountsOf labelCounts "service"
    = Some [ShownNumber 1; ShownNumber 1; ShownNumber 0] ∧
  map_to_list <$> labelCountsOf labelCounts "env" = Some [].
Proof. vm_compute. done. Qed.

(** Two alerts carry the value [toString] under [service]: the first count
    goes through the inherited function and becomes a text, the second
    appends to it. *)
Example label_counts_member_example :
  let engine : Js.Engine := Js.asciiEngine in
  let named :=
    Sample.alert "b1" "ds-1" "active" "low" {[ "service" := "toString" ]} in
  (fun counter => shownLabelCount counter "toString")
    <$> labelCountsOf (facetCounts [named; named] ["service"]).2 "service"
  = Some (ShownText "function toString() { [native code] }11").
Proof. vm_compute. reflexivity. Qed.

(** ** Editing the selection *)

(** X10. Clicking a facet checkbox flips the membership of its option in
    the selection and of no other value; a selection without repetition
    stays so; when the option was not selected, a second click gives back
    the selection as it was. *)
Theorem checkbox_flips_option (selected : list string) (opt : string) :
  (∀ x, x ∈ facetCheckboxChange selected opt ↔
        (x = opt ∧ opt ∉ selected) ∨ (x ≠ opt ∧ x ∈ selected)) ∧
  (NoDup selected → NoDup (facetCheckboxChange selected opt)) ∧
  (opt ∉ selected →
     facetCheckboxChange (facetCheckboxChange selected opt) opt = selected) ∧
  (opt ∈ selected → NoDup selected →
     length (facetCheckboxChange selected opt) + 1 = length selected).
Proof.
  unfold facetCheckboxChange. split_and!.
  - intros x. destruct (Js.arrayIncludes selected opt) eqn:Hin.
    + apply arrayIncludes_true in Hin.
      rewrite elem_of_List_filter, negb_true_iff, String.eqb_neq. tauto.
    + apply arrayIncludes_false in Hin.
      rewrite elem_of_app, list_elem_of_singleton.
      destruct (decide (x = opt)) as [-> | Hne]; tauto.
  - intros Hnd. destruct (Js.arrayIncludes selected opt) eqn:Hin.
    + by apply NoDup_List_filter.
    + apply arrayIncludes_false in Hin. apply NoDup_app.
      split_and!; [done| |apply NoDup_singleton].
      intros x Hx ->%list_elem_of_singleton. done.
  - intros Hout. apply arrayIncludes_false in Hout as Hfalse. rewrite Hfalse.
    assert (Hin : Js.arrayIncludes (selected ++ [opt]) opt = true).
    { apply arrayIncludes_true, elem_of_app. right. left. }
    rewrite Hin, List.filter_app. simpl. rewrite String.eqb_refl. simpl.
    rewrite app_nil_r. apply List_filter_all. intros y Hy.
    apply negb_true_iff, String.eqb_neq. by intros ->.
  - intros Hin Hnd. apply arrayIncludes_true in Hin as Htrue. rewrite Htrue.
    clear Htrue. induction Hnd as [|x l Hx Hl IH]; [by apply elem_of_nil in Hin|].
    simpl. destruct (String.eqb x opt) eqn:Hxo; simpl.
    + apply String.eqb_eq in Hxo. subst x.
      rewrite List_filter_all; [lia|]. intros y Hy.
      apply negb_true_iff, String.eqb_neq. by intros ->.
    + apply String.eqb_neq in Hxo. apply elem_of_cons in Hin as [-> | Hin]; [done|].
      specialize (IH Hin). lia.
Qed.

Lemma checkbox_flips_option_witness :
  facetCheckboxChange (facetCheckboxChange ["active"] "resolved") "resolved"
    = ["active"] ∧
  length (facetCheckboxChange ["active"; "resolved"] "active") + 1 = 2.
Proof.
  pose proof (checkbox_flips_option ["active"] "resolved") as (_ & _ & Hback & _).
  pose proof (checkbox_flips_option ["active"; "resolved"] "active")
    as (_ & _ & _ & Hlen).
  split.
  - apply Hback. intros Hin. apply list_elem_of_singleton in Hin. discriminate.
  - apply Hlen; [left|]. apply NoDup_cons. split; [|apply NoDup_singleton].
    intros Hin. apply list_elem_of_singleton in Hin. discriminate.
Defined.

(** ** The count of active filters *)

Lemma count_values_fold (l : list (list string)) (count : nat) :
  fold_left (fun count vals => count + length vals) l count
  = count + sum_list (length <$> l).
Proof.
  revert count. induction l as [|vals l IH]; intros count.
  - cbn. lia.
  - cbn [fold_left]. rewrite IH, fmap_cons. cbn. lia.
Qed.

Lemma sum_lengths_zero (l : list (list string)) :
  sum_list (length <$> l) = 0 ↔ ∀ vals, vals ∈ l → vals = [].
Proof.
  induction l as [|vals l IH].
  - split; [|done]. intros _ vals Hin. by apply elem_of_nil in Hin.
  - rewrite fmap_cons.
    change (sum_list (length vals :: (length <$> l)))
      with (length vals + sum_list (length <$> l)).
    split.
    + intros Hsum vals' Hin. apply elem_of_cons in Hin as [-> | Hin].
      * apply length_zero_iff_nil. lia.
      * apply IH; [lia | done].
    + intros Hall. rewrite (Hall vals) by left. simpl. apply IH.
      intros vals' Hin. apply Hall. by right.
Qed.

Lemma activeFilterCount_zero (filters : AlertFilterState.t) :
  activeFilterCount filters = 0 ↔
  AlertFilterState.state filters = [] ∧
  AlertFilterState.severity filters = [] ∧
  AlertFilterState.datasourceType filters = [] ∧
  AlertFilterState.datasourceId filters = [] ∧
  (∀ key values, AlertFilterState.labels filters !! key = Some values → values = []).
Proof.
  unfold activeFilterCount. rewrite count_values_fold.
  assert (Hlabels : sum_list (length <$> Js_values (AlertFilterState.labels filters)) = 0
    ↔ ∀ key values, AlertFilterState.labels filters !! key = Some values → values = []).
  { rewrite sum_lengths_zero. unfold Js_values. split.
    - intros Hall key values Hkey. apply Hall, list_elem_of_fmap.
      exists (key, values). split; [done | by apply elem_of_map_to_list].
    - intros Hall values ([key values'] & -> & Hin)%list_elem_of_fmap.
      apply elem_of_map_to_list in Hin. by eapply Hall. }
  rewrite <- Hlabels, <- !length_zero_iff_nil. lia.
Qed.

(** X11. The count on the Clear button is zero exactly when no value is
    selected in any facet or under any label key; in that case, with an
    empty query, the table lists every alert, in order.  Clearing the
    filters brings the count to zero and also switches grouping off. *)
Theorem no_active_filter_lists_all {engine : Js.Engine} (alerts : list Alert.t)
    (filters : AlertFilterState.t) :
  (activeFilterCount filters = 0 ↔
     AlertFilterState.state filters = [] ∧
     AlertFilterState.severity filters = [] ∧
     AlertFilterState.datasourceType filters = [] ∧
     AlertFilterState.datasourceId filters = [] ∧
     (∀ key values, AlertFilterState.labels filters !! key = Some values →
                    values = [])) ∧
  (activeFilterCount filters = 0 → filteredAlerts alerts "" filters = alerts) ∧
  activeFilterCount clearAllFilters = 0 ∧
  AlertFilterState.groupBy clearAllFilters = GroupNone.
Proof.
  split; [apply activeFilterCount_zero|]. split_and!; [|done..].
  intros (Hst & Hsev & Hdt & Hdi & Hlab)%activeFilterCount_zero.
  rewrite filteredAlerts_passes. apply List_filter_all. intros a _.
  apply passes_spec. unfold satisfies, facetAllows.
  rewrite Hst, Hsev, Hdt, Hdi. split_and!; try done.
  intros key values Hkey Hne. by apply Hlab in Hkey.
Qed.

Lemma no_active_filter_lists_all_witness :
  let engine : Js.Engine := Js.asciiEngine in
  filteredAlerts [Sample.a1; Sample.a2; Sample.a3] ""
    (updateLabelFilter emptyAlertFilters "service" [])
  = [Sample.a1; Sample.a2; Sample.a3].
Proof.
  apply (no_active_filter_lists_all [Sample.a1; Sample.a2; Sample.a3]
           (updateLabelFilter emptyAlertFilters "service" [])).
  vm_compute. reflexivity.
Defined.

(** ** The filter as an operation *)

Lemma List_filter_idem {A} (f : A → bool) (l : list A) :
  List.filter f (List.filter f l) = List.filter f l.
Proof.
  apply List_filter_all. intros x Hx. by apply elem_of_List_filter in Hx as [_ ?].
Qed.

(** X12. Filtering the filtered alerts again, with the same query and
    filters, changes nothing; the filtered list is a sublist of the input,
    so nothing is added or reordered and no alert is listed more often
    than it occurs; and the empty collection stays empty. *)
Theorem filter_is_idempotent {engine : Js.Engine} (alerts : list Alert.t) (q : string)
    (filters : AlertFilterState.t) :
  filteredAlerts (filteredAlerts alerts q filters) q filters
    = filteredAlerts alerts q filters ∧
  filteredAlerts alerts q filters `sublist_of` alerts ∧
  length (filteredAlerts alerts q filters) ≤ length alerts ∧
  filteredAlerts [] q filters = [].
Proof.
  rewrite !filteredAlerts_passes. split_and!.
  - apply List_filter_idem.
  - apply List_filter_sublist.
  - apply sublist_length, List_filter_sublist.
  - done.
Qed.

(** X13. Setting the selection of a label key to the empty list, as the
    panel does when the last value of the key is unchecked, leaves the key
    in the filter state but constrains nothing: the table then lists what
    it would list with the key removed.  The update touches that key only:
    the selections of the other label keys and of the standard facets and
    the grouping are as before. *)
Theorem empty_label_selection_is_no_constraint {engine : Js.Engine}
    (alerts : list Alert.t)
    (q : string) (filters : AlertFilterState.t) (key : string) :
  AlertFilterState.labels (updateLabelFilter filters key []) !! key = Some [] ∧
  (∀ key', key' ≠ key →
     AlertFilterState.labels (updateLabelFilter filters key []) !! key'
       = AlertFilterState.labels filters !! key') ∧
  filteredAlerts alerts q (updateLabelFilter filters key [])
    = filteredAlerts alerts q
        (updateFilter filters (EditLabels (delete key (AlertFilterState.labels filters)))) ∧
  AlertFilterState.state (updateLabelFilter filters key [])
    = AlertFilterState.state filters ∧
  AlertFilterState.severity (updateLabelFilter filters key [])
    = AlertFilterState.severity filters ∧
  AlertFilterState.datasourceType (updateLabelFilter filters key [])
    = AlertFilterState.datasourceType filters ∧
  AlertFilterState.datasourceId (updateLabelFilter filters key [])
    = AlertFilterState.datasourceId filters ∧
  AlertFilterState.groupBy (updateLabelFilter filters key [])
    = AlertFilterState.groupBy filters.
Proof.
  split_and!; try reflexivity.
  - apply lookup_insert_eq.
  - intros key' Hne. by apply lookup_insert_ne.
  - rewrite !filteredAlerts_passes. apply List.filter_ext. intros a.
    apply eq_true_iff_eq. rewrite !passes_spec. unfold satisfies. simpl.
    split; intros (Hq & Hst & Hsev & Hdt & Hdi & Hlab); split_and!; try done.
    + intros k values Hk Hne. apply lookup_delete_Some in Hk as [Hkk Hk].
      apply (Hlab k values); [|done]. by rewrite lookup_insert_ne.
    + intros k values Hk Hne. destruct (decide (k = key)) as [-> | Hkk].
      * rewrite lookup_insert_eq in Hk. by injection Hk as <-.
      * rewrite lookup_insert_ne in Hk by done. apply (Hlab k values); [|done].
        by apply lookup_delete_Some.
Qed.

Lemma empty_label_selection_is_no_constraint_witness :
  let engine : Js.Engine := Js.asciiEngine in
  AlertFilterState.labels
    (updateLabelFilter (onlyLabel "env" "prod" GroupNone) "service" []) !! "env"
  = Some ["prod"].
Proof.
  intros engine.
  destruct (empty_label_selection_is_no_constraint [Sample.a1] ""
              (onlyLabel "env" "prod" GroupNone) "service") as (_ & Hother & _).
  rewrite Hother by discriminate. reflexivity.
Defined.

Example empty_label_selection_example :
  let engine : Js.Engine := Js.asciiEngine in
  let filters := updateLabelFilter emptyAlertFilters "service" ["a"] in
  let unchecked :=
    updateLabelFilter filters "service"
      (facetCheckboxChange (default [] (AlertFilterState.labels filters !! "service")) "a") in
  Alert.id <$> filteredAlerts [Sample.a1; Sample.a2; Sample.a3] "" filters = ["a1"] ∧
  AlertFilterState.labels unchecked !! "service" = Some [] ∧
  Alert.id <$> filteredAlerts [Sample.a1; Sample.a2; Sample.a3] "" unchecked
    = ["a1"; "a2"; "a3"].
Proof. vm_compute. done. Qed.

(** ** The rule filter of the earlier page *)

Lemma optIncludes_spec {engine : Js.Engine} (field : option string) (q : string) :
  optIncludes field (Js.toLowerCase q) = true ↔
  ∃ s, field = Some s ∧ containsIgnoringCase s q.
Proof.
  unfold optIncludes, containsIgnoringCase. destruct field as [s|].
  - rewrite includes_spec. split; [by exists s | by intros (s' & [= <-] & ?)].
  - split; [done | by intros (s & ? & _)].
Qed.

Lemma ruleQuery_spec {engine : Js.Engine} (q : string) (rule : Rule.t) :
  negb (Js.truthy q)
  || (Js.includes (Js.toLowerCase (Rule.name rule)) (Js.toLowerCase q)
      || optIncludes (Rule.query rule) (Js.toLowerCase q)
      || optIncludes (Rule.group rule) (Js.toLowerCase q)) = true ↔
  (q ≠ "" → ∃ field, field ∈ ruleTextFields rule ∧ containsIgnoringCase field q).
Proof.
  rewrite orb_true_iff, negb_true_iff, truthy_false, !orb_true_iff.
  rewrite !optIncludes_spec, includes_spec. unfold ruleTextFields. split.
  - intros [Hq | Hhit] Hne; [done|].
    destruct Hhit as [[Hn | (s & Hs & Hhit)] | (s & Hs & Hhit)].
    + exists (Rule.name rule). split; [by left | done].
    + exists s. split; [|done]. rewrite Hs. simpl. right. by left.
    + exists s. split; [|done]. rewrite Hs.
      apply elem_of_cons. right. apply elem_of_app. right. simpl. by left.
  - intros Hspec. destruct (decide (q = "")) as [Hq | Hq]; [by left|].
    right. destruct (Hspec Hq) as (field & Hin & Hhit).
    apply elem_of_cons in Hin as [-> | Hin]; [by left; left|].
    apply elem_of_app in Hin as [Hin | Hin].
    + left. right. destruct (Rule.query rule) as [s|]; simpl in Hin;
        [|by apply elem_of_nil in Hin].
      apply list_elem_of_singleton in Hin as ->. by exists s.
    + right. destruct (Rule.group rule) as [s|]; simpl in Hin;
        [|by apply elem_of_nil in Hin].
      apply list_elem_of_singleton in Hin as ->. by exists s.
Qed.

Lemma leave_early (c m rest : bool) :
  (if (if c then negb m else false) then false else rest) = (negb c || m) && rest.
Proof. by destruct c, m. Qed.

Lemma ruleCallback_spec {engine : Js.Engine} (q : string)
    (statusFilter severityFilter backendFilter : list string) (rule : Rule.t) :
  (negb (Js.truthy q)
   || (Js.includes (Js.toLowerCase (Rule.name rule)) (Js.toLowerCase q)
       || optIncludes (Rule.query rule) (Js.toLowerCase q)
       || optIncludes (Rule.group rule) (Js.toLowerCase q)))
  && (facetStage statusFilter (if Rule.enabled rule then "enabled" else "disabled")
      && (facetStage severityFilter (Rule.severity rule)
          && facetStage backendFilter (Rule.datasourceType rule))) = true ↔
  ruleSatisfies q statusFilter severityFilter backendFilter rule.
Proof.
  rewrite !andb_true_iff, ruleQuery_spec, !facetStage_spec.
  unfold ruleSatisfies. tauto.
Qed.

Lemma filteredRules_stages {engine : Js.Engine} (rules : list Rule.t) (q : string)
    (statusFilter severityFilter backendFilter : list string) :
  filteredRules rules q statusFilter severityFilter backendFilter =
  List.filter
    (fun rule =>
       (negb (Js.truthy q)
        || (Js.includes (Js.toLowerCase (Rule.name rule)) (Js.toLowerCase q)
            || optIncludes (Rule.query rule) (Js.toLowerCase q)
            || optIncludes (Rule.group rule) (Js.toLowerCase q)))
       && (facetStage statusFilter (if Rule.enabled rule then "enabled" else "disabled")
           && (facetStage severityFilter (Rule.severity rule)
               && facetStage backendFilter (Rule.datasourceType rule))))
    rules.
Proof.
  unfold filteredRules. apply List.filter_ext. intros rule.
  rewrite !leave_early, andb_true_r. reflexivity.
Qed.

Lemma filteredRules_elem_satisfies {engine : Js.Engine} (rules : list Rule.t) (q : string)
    (statusFilter severityFilter backendFilter : list string) (rule : Rule.t) :
  rule ∈ filteredRules rules q statusFilter severityFilter backendFilter →
  ruleSatisfies q statusFilter severityFilter backendFilter rule.
Proof.
  rewrite filteredRules_stages. intros [_ Hkeep]%elem_of_List_filter.
  by apply ruleCallback_spec.
Qed.

(** X14. The rule filter of the earlier page returns exactly the rules of
    the input, in input order, that meet every active constraint: a
    non-empty query occurs, letter case aside, in the name, the query or
    the group of the rule (a missing query or group does not match); a
    non-empty status selection contains [enabled] or [disabled] as the rule
    is; non-empty severity and backend selections contain the rule's
    value. *)
Theorem rule_filter_keeps_exactly_satisfying {engine : Js.Engine}
    (rules : list Rule.t) (q : string)
    (statusFilter severityFilter backendFilter : list string) :
  ∃ keep : Rule.t → bool,
    (∀ rule, keep rule = true ↔
             ruleSatisfies q statusFilter severityFilter backendFilter rule) ∧
    filteredRules rules q statusFilter severityFilter backendFilter
      = List.filter keep rules.
Proof.
  eexists. split; [|apply filteredRules_stages]. intros rule.
  apply ruleCallback_spec.
Qed.

(** The query is lowered by the engine: with an engine that lowers
    Cyrillic capitals, as Unicode has it, the query [диск] finds the rule
    named [ДИСК]. *)
Example rule_filter_lowers_beyond_ascii :
  ∃ engine : Js.Engine,
    Js.toLowerCase "ДИСК" = "диск" ∧
    Rule.id <$> filteredRules [Sample.rule "r7" "ДИСК" "u1" StatusActive None; Sample.r1]
                  "диск" [] [] []
    = ["r7"].
Proof.
  unshelve eexists
    (Js.Build_Engine
       (fun s => if String.eqb s "ДИСК" then "диск" else Js.asciiLower s)
       Js.asciiUpper (fun name => name) _ _).
  - intros s Hs. cbv beta.
    destruct (String.eqb_spec s "ДИСК") as [-> | _];
      [by vm_compute in Hs | reflexivity].
  - by intros s _.
  - vm_compute. by split_and!.
Qed.

Lemma filteredRules_unconstrained {engine : Js.Engine} (rules : list Rule.t) :
  filteredRules rules "" [] [] [] = rules.
Proof. unfold filteredRules. simpl. by apply List_filter_all. Qed.

Example rule_filter_example :
  let engine : Js.Engine := Js.asciiEngine in
  Rule.id <$> filteredRules [Sample.r1; Sample.r2; Sample.r3] "INFRA" [] [] [] = ["r2"] ∧
  Rule.id <$> filteredRules [Sample.r1; Sample.r2; Sample.r3] "" ["disabled"] [] [] = [] ∧
  Rule.id <$> filteredRules [Sample.r1; Sample.r2; Sample.r3] "" ["enabled"; "disabled"]
                ["high"] ["prometheus"] = ["r1"; "r2"; "r3"].
Proof. vm_compute. done. Qed.

(** ** The option lists of the earlier page *)

Lemma lowerUnit_upperUnit (c : ascii) :
  Js.lowerUnit (Js.upperUnit c) = Js.lowerUnit c.
Proof. by destruct c as [[] [] [] [] [] [] [] []]. Qed.

Lemma upperUnit_ascii (c : ascii) :
  (Ascii.N_of_ascii c <? 128)%N = true →
  (Ascii.N_of_ascii (Js.upperUnit c) <? 128)%N = true.
Proof. by destruct c as [[] [] [] [] [] [] [] []]. Qed.

(** Capitalising and lowering again gives back a string of ASCII text
    without capital letters, whatever the engine. *)
Lemma capitalised_lowered {engine : Js.Engine} (s : string) :
  Js.isAscii s = true → Js.asciiLower s = s →
  Js.toLowerCase (capitalised s) = s.
Proof.
  destruct s as [|c s]; intros Hascii Hlower.
  - unfold capitalised. simpl.
    rewrite (Js.toUpperCase_ascii "") by done. simpl.
    by rewrite (Js.toLowerCase_ascii "").
  - simpl in Hascii. apply andb_true_iff in Hascii as [Hc Hs].
    unfold capitalised. simpl. apply N.ltb_lt in Hc as Hlt.
    destruct (N.ltb_spec (Ascii.N_of_ascii c) 192) as [_ | Hge]; [|lia].
    simpl. rewrite (Js.toUpperCase_ascii (String c "")) by (simpl; by rewrite Hc).
    simpl. rewrite Js.toLowerCase_ascii.
    + simpl. rewrite lowerUnit_upperUnit. exact Hlower.
    + simpl. change ("" +:+ s) with s. by rewrite (upperUnit_ascii c Hc), Hs.
Qed.

Lemma distinctValues_firstAppearance (values : list string) :
  distinctValues values = firstAppearance values.
Proof.
  unfold distinctValues, JsSet.toArray, JsSet.empty.
  induction values as [|v values IH] using rev_ind; [done|].
  rewrite List.fold_left_app, firstAppearance_snoc. simpl. rewrite IH.
  unfold JsSet.add. destruct (decide (v ∈ values)) as [Hin | Hout].
  - apply firstAppearance_elem, JsSet_has_true in Hin. by rewrite Hin.
  - assert (Hhas : JsSet.has v (firstAppearance values) = false).
    { apply arrayIncludes_false. by rewrite firstAppearance_elem. }
    by rewrite Hhas.
Qed.

Lemma List_filter_map {A B} (f : A → B) (p : B → bool) (l : list A) :
  List.filter p (map f l) = map f (List.filter (fun x => p (f x)) l).
Proof.
  induction l as [|x l IH]; simpl; [done|].
  destruct (p (f x)); simpl; by rewrite IH.
Qed.

Lemma options_round_trip {engine : Js.Engine} (values selection : list string) :
  map (fun o => Js.toLowerCase (SelectableOption.label o))
    (List.filter isOn
       (map (fun s =>
               SelectableOption.mk (capitalised s)
                 (if Js.arrayIncludes selection s then Some "on" else None))
          (distinctValues values)))
  = (fun s => Js.toLowerCase (capitalised s)) <$>
      List.filter (Js.arrayIncludes selection) (firstAppearance values).
Proof.
  rewrite List_filter_map, List.map_map, distinctValues_firstAppearance.
  rewrite (List.filter_ext _ (Js.arrayIncludes selection)); [done|].
  intros s. unfold isOn. simpl. by destruct (Js.arrayIncludes selection s).
Qed.

Lemma options_round_trip_exact {engine : Js.Engine} (values selection : list string) :
  (∀ s, s ∈ values → Js.toLowerCase (capitalised s) = s) →
  (fun s => Js.toLowerCase (capitalised s)) <$>
    List.filter (Js.arrayIncludes selection) (firstAppearance values)
  = List.filter (Js.arrayIncludes selection) (firstAppearance values).
Proof.
  intros Hback. rewrite <- (list_fmap_id (List.filter _ _)) at 2.
  apply list_fmap_ext. intros i s Hs. simpl. apply Hback.
  apply list_elem_of_lookup_2 in Hs. apply elem_of_List_filter in Hs as [Hs _].
  by apply firstAppearance_elem.
Qed.

(** X15. Handing the options of a popover back to its change handler as
    they are shown gives, in order of first appearance among the rules,
    the selected severities (or backends) that occur among the rules,
    each capitalised and lowered again; selected values that no rule has
    are dropped.  When capitalising and lowering gives every value of the
    rules back, as it does for ASCII text without capital letters, the
    result is the selection itself, restricted to what occurs.  For the
    status popover it is the selected ones of [enabled] and [disabled].
    Whatever the options, a handler stores only results of [toLowerCase],
    so with a non-empty severity selection made through the popover the
    table lists only rules whose severity is such a result. *)
Theorem popover_options_round_trip {engine : Js.Engine} (rules : list Rule.t)
    (statusFilter severityFilter backendFilter : list string) :
  handleStatusFilterChange (statusOptions statusFilter)
    = List.filter (Js.arrayIncludes statusFilter) ["enabled"; "disabled"] ∧
  handleSeverityFilterChange (severityOptions rules severityFilter)
    = (fun s => Js.toLowerCase (capitalised s)) <$>
        List.filter (Js.arrayIncludes severityFilter)
          (firstAppearance (Rule.severity <$> rules)) ∧
  handleBackendFilterChange (backendOptions rules backendFilter)
    = (fun s => Js.toLowerCase (capitalised s)) <$>
        List.filter (Js.arrayIncludes backendFilter)
          (firstAppearance (Rule.datasourceType <$> rules)) ∧
  ((∀ rule, rule ∈ rules →
      Js.toLowerCase (capitalised (Rule.severity rule)) = Rule.severity rule) →
   handleSeverityFilterChange (severityOptions rules severityFilter)
     = List.filter (Js.arrayIncludes severityFilter)
         (firstAppearance (Rule.severity <$> rules))) ∧
  ((∀ rule, rule ∈ rules →
      Js.toLowerCase (capitalised (Rule.datasourceType rule))
        = Rule.datasourceType rule) →
   handleBackendFilterChange (backendOptions rules backendFilter)
     = List.filter (Js.arrayIncludes backendFilter)
         (firstAppearance (Rule.datasourceType <$> rules))) ∧
  (∀ s, Js.isAscii s = true → Js.asciiLower s = s →
        Js.toLowerCase (capitalised s) = s) ∧
  (∀ options x, x ∈ handleSeverityFilterChange options →
                ∃ label, x = Js.toLowerCase label) ∧
  (∀ options q rule,
     handleSeverityFilterChange options ≠ [] →
     rule ∈ filteredRules rules q statusFilter
              (handleSeverityFilterChange options) backendFilter →
     ∃ label, Rule.severity rule = Js.toLowerCase label).
Proof.
  assert (Hlower : ∀ options x,
    x ∈ handleSeverityFilterChange options → ∃ label, x = Js.toLowerCase label).
  { intros options x Hx. unfold handleSeverityFilterChange in Hx.
    apply list_elem_of_In, List.in_map_iff in Hx as (o & <- & _). by eexists. }
  split_and!.
  - unfold handleStatusFilterChange, statusOptions.
    destruct (Js.arrayIncludes statusFilter "enabled") eqn:He,
             (Js.arrayIncludes statusFilter "disabled") eqn:Hd;
      cbn [List.filter isOn SelectableOption.checked SelectableOption.label map
           String.eqb Ascii.eqb Bool.eqb];
      rewrite ?He, ?Hd, ?(Js.toLowerCase_ascii "Enabled"),
        ?(Js.toLowerCase_ascii "Disabled") by reflexivity; reflexivity.
  - apply options_round_trip.
  - apply options_round_trip.
  - intros Hback. unfold handleSeverityFilterChange, severityOptions.
    rewrite options_round_trip. apply options_round_trip_exact.
    intros s Hs. apply list_elem_of_fmap in Hs as (rule & -> & Hrule).
    by apply Hback.
  - intros Hback. unfold handleBackendFilterChange, backendOptions.
    rewrite options_round_trip. apply options_round_trip_exact.
    intros s Hs. apply list_elem_of_fmap in Hs as (rule & -> & Hrule).
    by apply Hback.
  - apply capitalised_lowered.
  - exact Hlower.
  - intros options q rule Hsel Hrule.
    destruct (filteredRules_elem_satisfies rules q statusFilter
                (handleSeverityFilterChange options) backendFilter rule Hrule)
      as (_ & _ & Hsev & _).
    apply (Hlower options), Hsev, Hsel.
Qed.

Lemma popover_options_round_trip_witness :
  let engine : Js.Engine := Js.asciiEngine in
  handleSeverityFilterChange (severityOptions [Sample.r1; Sample.r2] ["high"; "low"])
  = ["high"].
Proof.
  intros engine.
  destruct (popover_options_round_trip [Sample.r1; Sample.r2] [] ["high"; "low"] [])
    as (_ & _ & _ & Hexact & _).
  rewrite Hexact; [reflexivity|].
  intros rule Hrule.
  apply elem_of_cons in Hrule as [-> | Hrule]; [reflexivity|].
  apply list_elem_of_singleton in Hrule as ->. reflexivity.
Defined.

(** Where capitalising and lowering does not give the value back, the
    round trip changes the selection: with an engine that writes the
    capital of [ß] as [SS], as Unicode has it, the selected severity
    [ßeta] comes back as [sseta], which no rule has. *)
Example popover_round_trip_changes_selection :
  ∃ engine : Js.Engine,
    Js.toUpperCase "ß" = "SS" ∧
    handleSeverityFilterChange
      (severityOptions
         [Sample.rule "r9" "X" "u1" StatusActive None; Sample.r1] ["high"])
    = ["high"] ∧
    let beta :=
      Rule.mk "r8" "ds-2" "prometheus" "B" true "ßeta" None "> 0" Js.JNull ∅ ∅
              "metric" StatusActive "healthy" None "u1" "t" "t" Js.JNull Js.JNull in
    handleSeverityFilterChange (severityOptions [beta] ["ßeta"]) = ["sseta"].
Proof.
  unshelve eexists
    (Js.Build_Engine Js.asciiLower
       (fun s => if String.eqb s "ß" then "SS" else Js.asciiUpper s)
       (fun name => name) _ _).
  - by intros s _.
  - intros s Hs. cbv beta.
    destruct (String.eqb_spec s "ß") as [-> | _]; [by vm_compute in Hs | reflexivity].
  - vm_compute. by split_and!.
Qed.

(** ** What the tables show *)

Lemma length_eqb_zero {A} (l : list A) : (length l =? 0) = true ↔ l = [].
Proof. rewrite Nat.eqb_eq. apply length_zero_iff_nil. Qed.

Lemma bucketsOf_nonempty {A} (keyOf : A → string) (R : list A) :
  R ≠ [] → bucketsOf keyOf R ≠ [].
Proof. by destruct R. Qed.

Lemma filteredRules_empty_means_constraint {engine : Js.Engine}
    (rules : list Rule.t) (q : string)
    (statusFilter severityFilter backendFilter : list string) :
  rules ≠ [] →
  filteredRules rules q statusFilter severityFilter backendFilter = [] →
  Js.truthy q || (0 <? ruleActiveFilterCount statusFilter severityFilter backendFilter)
    = true.
Proof.
  intros Hrules Hempty. destruct (Js.truthy q) eqn:Hq; [done|]. simpl.
  apply truthy_false in Hq. subst q. apply Nat.ltb_lt.
  unfold ruleActiveFilterCount.
  destruct statusFilter, severityFilter, backendFilter; simpl; try lia.
  by rewrite filteredRules_unconstrained in Hempty.
Qed.

(** X16. Once loading is over, the rules tab of the earlier page shows the
    "No Rules" prompt exactly when there are no rules, the "No Matching
    Rules" prompt exactly when there are rules and the filter keeps none,
    and otherwise a table that is never empty: the filtered rules, or
    their groups when grouping is on. *)
Theorem rules_tab_never_shows_empty_table {engine : Js.Engine}
    (rules : list Rule.t) (q : string)
    (statusFilter severityFilter backendFilter : list string)
    (groupByEnabled : bool) :
  let shown := filteredRules rules q statusFilter severityFilter backendFilter in
  let view :=
    renderRulesTable false rules shown q
      (ruleActiveFilterCount statusFilter severityFilter backendFilter)
      groupByEnabled (groupedRules shown) in
  (view = NoRulesPrompt ↔ rules = []) ∧
  (view = NoMatchingRulesPrompt ↔ rules ≠ [] ∧ shown = []) ∧
  (∀ items, view = FlatRulesTable items →
            groupByEnabled = false ∧ items = shown ∧ items ≠ []) ∧
  (∀ items, view = GroupedRulesTable items →
            groupByEnabled = true ∧ items = groupedRules shown ∧ items ≠ []).
Proof.
  intros shown view. unfold view, renderRulesTable. simpl.
  destruct (length rules =? 0) eqn:Hrules.
  - apply length_eqb_zero in Hrules.
    split_and!; [done | split; [done | by intros [? _]] | done | done].
  - assert (Hne : rules ≠ []).
    { intros Heq. apply length_eqb_zero in Heq. congruence. }
    destruct (length shown =? 0) eqn:Hshown; simpl.
    + apply length_eqb_zero in Hshown as Hnil.
      rewrite (filteredRules_empty_means_constraint rules q statusFilter
                 severityFilter backendFilter Hne Hnil).
      split_and!; [split; [done | by intros ->] | done | done | done].
    + assert (Hsome : shown ≠ []).
      { intros Heq. apply length_eqb_zero in Heq. congruence. }
      assert (Hgroups : groupedRules shown ≠ []).
      { unfold groupedRules, JsMap.entries. rewrite grouping_loop.
        intros Heq. apply fmap_nil_inv in Heq.
        by apply (bucketsOf_nonempty ruleGroupName shown). }
      destruct groupByEnabled.
      * split_and!; [split; [done | by intros ->] | split; [done | by intros [_ ?]]
                    | done | by intros items [= <-]].
      * split_and!; [split; [done | by intros ->] | split; [done | by intros [_ ?]]
                    | by intros items [= <-] | done].
Qed.

Lemma rules_tab_never_shows_empty_table_witness :
  let engine : Js.Engine := Js.asciiEngine in
  [Sample.r1; Sample.r2] = filteredRules [Sample.r1; Sample.r2] "" [] [] [] ∧
  [Sample.r1; Sample.r2] ≠ [].
Proof.
  intros engine.
  destruct (rules_tab_never_shows_empty_table [Sample.r1; Sample.r2] "" [] [] [] false)
    as (_ & _ & Hflat & _).
  destruct (Hflat [Sample.r1; Sample.r2] eq_refl) as (_ & Hitems & Hsome).
  split; [exact Hitems | exact Hsome].
Defined.

Example rules_tab_example :
  let engine : Js.Engine := Js.asciiEngine in
  renderRulesTable false [Sample.r1; Sample.r2]
    (filteredRules [Sample.r1; Sample.r2] "" ["disabled"] [] []) ""
    (ruleActiveFilterCount ["disabled"] [] []) true
    (groupedRules (filteredRules [Sample.r1; Sample.r2] "" ["disabled"] [] []))
  = NoMatchingRulesPrompt.
Proof. reflexivity. Qed.

Lemma filteredAlerts_empty_means_constraint {engine : Js.Engine}
    (alerts : list Alert.t) (q : string)
    (filters : AlertFilterState.t) :
  alerts ≠ [] → filteredAlerts alerts q filters = [] →
  q ≠ "" ∨ 0 < activeFilterCount filters.
Proof.
  intros Halerts Hempty. destruct (decide (q = "")) as [-> | Hq]; [|by left].
  right. destruct (activeFilterCount filters) as [|n] eqn:Hcount; [|lia].
  apply activeFilterCount_zero in Hcount as (Hst & Hsev & Hdt & Hdi & Hlab).
  rewrite filteredAlerts_passes in Hempty.
  rewrite List_filter_all in Hempty; [done|]. intros a _.
  apply passes_spec. unfold satisfies, facetAllows.
  rewrite Hst, Hsev, Hdt, Hdi. split_and!; try done.
  intros key values Hkey Hne. by apply Hlab in Hkey.
Qed.

(** X17. Once loading is over, the alerts tab shows "No Active Alerts"
    exactly when there are no alerts and "No Matching Alerts" exactly when
    there are alerts and the filter keeps none, which needs a non-empty
    query or at least one selected filter value; otherwise it shows a table
    that is never empty: the filtered alerts when grouping is off, one row
    per group when it is on. *)
Theorem alerts_tab_never_shows_empty_table {engine : Js.Engine}
    (alerts : list Alert.t) (q : string)
    (filters : AlertFilterState.t) :
  let shown := filteredAlerts alerts q filters in
  let view :=
    renderAlertsTable false alerts shown
      (groupedAlerts shown (AlertFilterState.groupBy filters)) in
  (view = NoActiveAlertsPrompt ↔ alerts = []) ∧
  (view = NoMatchingAlertsPrompt ↔ alerts ≠ [] ∧ shown = []) ∧
  (view = NoMatchingAlertsPrompt → q ≠ "" ∨ 0 < activeFilterCount filters) ∧
  (∀ items, view = FlatAlertsTable items →
            AlertFilterState.groupBy filters = GroupNone ∧ items = shown ∧ items ≠ []) ∧
  (∀ items, view = GroupedAlertsTable items →
            AlertFilterState.groupBy filters ≠ GroupNone ∧ items ≠ [] ∧
            AlertGroupRow.groupKey <$> items
              = firstAppearance
                  (alertGroupKey (AlertFilterState.groupBy filters) <$> shown)).
Proof.
  intros shown view. unfold view, renderAlertsTable. simpl.
  destruct (length shown =? 0) eqn:Hshown.
  - apply length_eqb_zero in Hshown as Hnil.
    destruct (length alerts =? 0) eqn:Halerts.
    + apply length_eqb_zero in Halerts.
      split_and!; [done | split; [done | by intros [? _]] | done | done | done].
    + assert (Hne : alerts ≠ []).
      { intros Heq. apply length_eqb_zero in Heq. congruence. }
      split_and!; [split; [done | by intros ?] | done | | done | done].
      intros _. by apply (filteredAlerts_empty_means_constraint alerts q filters).
  - assert (Hsome : shown ≠ []).
    { intros Heq. apply length_eqb_zero in Heq. congruence. }
    assert (Halerts : alerts ≠ []).
    { intros ->. apply Hsome. unfold shown. by rewrite filteredAlerts_passes. }
    assert (Hrows : ∀ groupBy,
      alertGroupRows (bucketsOf (alertGroupKey groupBy) shown) ≠ [] ∧
      AlertGroupRow.groupKey <$> alertGroupRows (bucketsOf (alertGroupKey groupBy) shown)
        = firstAppearance (alertGroupKey groupBy <$> shown)).
    { intros groupBy. unfold alertGroupRows, JsMap.entries. split.
      - intros Heq%fmap_nil_inv.
        by apply (bucketsOf_nonempty (alertGroupKey groupBy) shown).
      - rewrite <- list_fmap_compose, <- bucketsOf_keys.
        apply list_fmap_ext. by intros i [k ms] _. }
    unfold groupedAlerts.
    destruct (AlertFilterState.groupBy filters) eqn:Hmode.
    + split_and!; [split; [done | by intros ?] | split; [done | by intros [_ ?]]
                  | done | by intros items [= <-] | done].
    + rewrite grouping_loop.
      split_and!; [split; [done | by intros ?] | split; [done | by intros [_ ?]]
                  | done | done |].
      intros items [= <-]. destruct (Hrows GroupDatasource). by split_and!.
    + rewrite grouping_loop.
      split_and!; [split; [done | by intros ?] | split; [done | by intros [_ ?]]
                  | done | done |].
      intros items [= <-]. destruct (Hrows GroupState). by split_and!.
Qed.

Lemma alerts_tab_never_shows_empty_table_witness :
  "critical" ≠ "" ∨ 0 < activeFilterCount (onlyState "pending" GroupState).
Proof.
  apply (alerts_tab_never_shows_empty_table (engine := Js.asciiEngine)
           [Sample.a1; Sample.a2; Sample.a3] "critical" (onlyState "pending" GroupState)).
  reflexivity.
Defined.

(** While loading, the grouped table can come up without rows. *)
Example alerts_tab_loading_example :
  let engine : Js.Engine := Js.asciiEngine in
  renderAlertsTable true [] (filteredAlerts [] "" (onlyState "active" GroupState))
    (groupedAlerts (filteredAlerts [] "" (onlyState "active" GroupState)) GroupState)
  = GroupedAlertsTable [].
Proof. reflexivity. Qed.

(** ** Enabled and disabled counts of rule groups *)

Lemma length_filter_concat {A} (f : A → bool) (ls : list (list A)) :
  length (List.filter f (concat ls))
  = sum_list ((fun l => length (List.filter f l)) <$> ls).
Proof.
  induction ls as [|l ls IH]; [done|].
  rewrite fmap_cons. simpl concat. rewrite List.filter_app, length_app, IH. done.
Qed.

Lemma length_filter_Permutation {A} (f : A → bool) (l l' : list A) :
  l ≡ₚ l' → length (List.filter f l) = length (List.filter f l').
Proof.
  induction 1 as [|x l l' _ IH|x y l|l l' l'' _ IH1 _ IH2]; simpl.
  - done.
  - destruct (f x); simpl; by rewrite IH.
  - by destruct (f x), (f y).
  - by rewrite IH1.
Qed.

Lemma length_filter_split {A} (f : A → bool) (l : list A) :
  length (List.filter f l) + length (List.filter (fun x => negb (f x)) l) = length l.
Proof. by rewrite <- length_app, filter_split_Permutation. Qed.

(** X18. In every rule group the enabled and the disabled count add up to
    the rule count, the enabled count being the number of enabled rules of
    the group; over all groups the enabled counts add up to the number of
    enabled rules in the filtered list, and the disabled counts to the
    number of disabled ones. *)
Theorem rule_group_counts_add_up (filteredRules : list Rule.t) :
  (∀ g, g ∈ groupedRules filteredRules →
     RuleGroup.enabledCount g + RuleGroup.disabledCount g = RuleGroup.ruleCount g ∧
     RuleGroup.enabledCount g = length (List.filter Rule.enabled (RuleGroup.rules g)) ∧
     RuleGroup.disabledCount g
       = length (List.filter (fun r => negb (Rule.enabled r)) (RuleGroup.rules g)) ∧
     0 < RuleGroup.ruleCount g) ∧
  sum_list (RuleGroup.enabledCount <$> groupedRules filteredRules)
    = length (List.filter Rule.enabled filteredRules) ∧
  sum_list (RuleGroup.disabledCount <$> groupedRules filteredRules)
    = length (List.filter (fun r => negb (Rule.enabled r)) filteredRules).
Proof.
  unfold groupedRules, JsMap.entries. rewrite grouping_loop.
  destruct (bucketsOf_partitions ruleGroupName filteredRules)
    as (_ & _ & Hmembers & Hperm & _ & Hone).
  split_and!.
  - intros g ([k ms] & -> & Hin)%list_elem_of_fmap. simpl.
    pose proof (length_filter_split Rule.enabled ms) as Hsplit.
    split_and!; [lia | done | lia |].
    apply list_elem_of_lookup in Hin as [i Hi].
    apply bucketsOf_lookup in Hi as [Hk Hms]. simpl in *.
    apply list_elem_of_lookup_2, firstAppearance_elem, list_elem_of_fmap in Hk
      as (r & -> & Hr).
    assert (Hin : r ∈ ms).
    { rewrite Hms. apply elem_of_List_filter. split; [done | apply String.eqb_refl]. }
    destruct ms; [by apply elem_of_nil in Hin | simpl; lia].
  - rewrite <- (length_filter_Permutation _ _ _ Hperm), length_filter_concat.
    rewrite <- !list_fmap_compose. f_equal. apply list_fmap_ext. by intros i [k ms] _.
  - rewrite <- (length_filter_Permutation _ _ _ Hperm), length_filter_concat.
    rewrite <- !list_fmap_compose. f_equal. apply list_fmap_ext.
    intros i [k ms] _. simpl.
    pose proof (length_filter_split Rule.enabled ms). lia.
Qed.

Lemma rule_group_counts_add_up_witness :
  RuleGroup.enabledCount (RuleGroup.mk "Ungrouped" [Sample.r1; Sample.r3] 2 2 0)
  + RuleGroup.disabledCount (RuleGroup.mk "Ungrouped" [Sample.r1; Sample.r3] 2 2 0)
  = RuleGroup.ruleCount (RuleGroup.mk "Ungrouped" [Sample.r1; Sample.r3] 2 2 0).
Proof.
  apply (proj1 (rule_group_counts_add_up [Sample.r1; Sample.r2; Sample.r3])).
  left.
Defined.

(** ** Silencing and visibility *)

(** X19. Silencing never changes which rules are visible: the visible list
    keeps its ids, in order, and its length; the set of deleted ids is
    untouched, so a deleted rule stays hidden. *)
Theorem silence_keeps_visibility {F} (id : string) (st : PageState.t F) :
  Rule.id <$> visibleRules (handleSilenceRule id st) = Rule.id <$> visibleRules st ∧
  length (visibleRules (handleSilenceRule id st)) = length (visibleRules st) ∧
  PageState.deletedRuleIds (handleSilenceRule id st) = PageState.deletedRuleIds st ∧
  (∀ r, r ∈ visibleRules (handleSilenceRule id st) →
        Rule.id r ∉ PageState.deletedRuleIds st).
Proof.
  set (toggle := fun r : Rule.t =>
         if String.eqb (Rule.id r) id then
           Rule.withStatus
             match Rule.status r with
             | StatusMuted => StatusActive
             | _ => StatusMuted
             end r
         else r).
  assert (Hid : ∀ r, Rule.id (toggle r) = Rule.id r).
  { intros r. unfold toggle. by destruct (String.eqb (Rule.id r) id). }
  assert (Hvis : visibleRules (handleSilenceRule id st) = map toggle (visibleRules st)).
  { unfold visibleRules, handleSilenceRule. simpl. fold toggle.
    rewrite List_filter_map. f_equal. apply List.filter_ext. intros r.
    by rewrite Hid. }
  assert (Hids : Rule.id <$> visibleRules (handleSilenceRule id st)
                 = Rule.id <$> visibleRules st).
  { rewrite Hvis. change (map toggle (visibleRules st)) with (toggle <$> visibleRules st).
    rewrite <- list_fmap_compose. apply list_fmap_ext. intros i r _. apply Hid. }
  split_and!.
  - exact Hids.
  - by rewrite <- (length_fmap Rule.id), Hids, length_fmap.
  - reflexivity.
  - intros r Hr. unfold visibleRules in Hr.
    apply elem_of_List_filter in Hr as [_ Hr].
    apply negb_true_iff in Hr. by apply arrayIncludes_false in Hr.
Qed.

Lemma silence_keeps_visibility_witness :
  Rule.id (Rule.withStatus StatusMuted Sample.r1)
    ∉ PageState.deletedRuleIds (handleDeleteRules ["r2"] Sample.page).
Proof.
  destruct (silence_keeps_visibility "r1" (handleDeleteRules ["r2"] Sample.page))
    as (_ & _ & _ & Hhidden).
  apply Hhidden. left.
Defined.

Example silence_keeps_visibility_example :
  (fun r => (Rule.id r, Rule.status r))
    <$> visibleRules (handleSilenceRule "r1" (handleDeleteRules ["r1"] Sample.page))
    = [("r2", StatusMuted)] ∧
  (fun r => (Rule.id r, Rule.status r))
    <$> PageState.rules (handleSilenceRule "r1" (handleDeleteRules ["r1"] Sample.page))
    = [("r1", StatusMuted); ("r2", StatusMuted)].
Proof. by split. Qed.

(** ** Expanded groups *)

Lemma JsMap_get_tabulated {V} (g : string → V) (ks : list string) (k : string) :
  JsMap.get k ((fun k' => (k', g k')) <$> ks) =
  if decide (k ∈ ks) then Some (g k) else None.
Proof.
  induction ks as [|k0 ks IH]; [done|].
  rewrite fmap_cons. simpl. destruct (String.eqb k k0) eqn:Hk.
  - apply String.eqb_eq in Hk. subst k0. rewrite decide_True by left. done.
  - apply String.eqb_neq in Hk. rewrite IH.
    destruct (decide (k ∈ ks)) as [Hin | Hout].
    + rewrite decide_True by (by right). done.
    + rewrite decide_False; [done|]. by intros [?|?]%elem_of_cons.
Qed.

Lemma get_bucket_or_empty {A} (keyOf : A → string) (R : list A) (k : string) :
  default [] (JsMap.get k (bucketsOf keyOf R)) = membersOf keyOf R k.
Proof.
  unfold bucketsOf. rewrite JsMap_get_tabulated.
  destruct (decide (k ∈ firstAppearance (keyOf <$> R))) as [Hin | Hout]; [done|].
  simpl. symmetry. apply membersOf_absent. by rewrite <- firstAppearance_elem.
Qed.

Lemma fromEntries_tabulated {V} (g : string → V) (ks : list string)
    (obj : gmap string V) (k : string) :
  fold_left (fun obj '(k', v) => <[k' := v]> obj) (map (fun k' => (k', g k')) ks) obj
    !! k
  = if decide (k ∈ ks) then Some (g k) else obj !! k.
Proof.
  revert obj. induction ks as [|k0 ks IH]; intros obj; simpl; [done|].
  rewrite IH. destruct (decide (k ∈ ks)) as [Hin | Hout].
  - rewrite decide_True by (by right). done.
  - destruct (decide (k = k0)) as [-> | Hne].
    + rewrite decide_True by left. apply lookup_insert_eq.
    + rewrite lookup_insert_ne by done. rewrite decide_False; [done|].
      by intros [?|?]%elem_of_cons.
Qed.

(** X20. With grouping on, the nested table of an expanded group lists
    exactly the filtered alerts with that group key, in their order; an
    expanded id that is the key of no group, because the filter removed
    its alerts, gets an empty table; ids that are not expanded get none. *)
Theorem expanded_group_lists_its_alerts (shown : list Alert.t) (groupBy : GroupBy)
    (expandedGroupIds : JsSet.t) (groups : JsMap.t (list Alert.t)) (groupId : string) :
  groupedAlerts shown groupBy = Some groups →
  (groupId ∈ expandedGroupIds →
     expandedRowItems groups expandedGroupIds !! groupId
       = Some (List.filter
                 (fun a => String.eqb (alertGroupKey groupBy a) groupId) shown)) ∧
  (groupId ∈ expandedGroupIds → groupId ∉ alertGroupKey groupBy <$> shown →
     expandedRowItems groups expandedGroupIds !! groupId = Some []) ∧
  (groupId ∉ expandedGroupIds →
     expandedRowItems groups expandedGroupIds !! groupId = None).
Proof.
  intros Hgroups.
  assert (Hbuckets : groups = bucketsOf (alertGroupKey groupBy) shown).
  { unfold groupedAlerts in Hgroups.
    destruct groupBy; [done|..]; rewrite grouping_loop in Hgroups; congruence. }
  subst groups.
  assert (Hlook : expandedRowItems (bucketsOf (alertGroupKey groupBy) shown)
                    expandedGroupIds !! groupId
    = if decide (groupId ∈ expandedGroupIds)
      then Some (membersOf (alertGroupKey groupBy) shown groupId) else None).
  { unfold expandedRowItems, JsSet.toArray.
    rewrite (List.map_ext _
               (fun k => (k, membersOf (alertGroupKey groupBy) shown k))).
    - rewrite (fromEntries_tabulated
                 (membersOf (alertGroupKey groupBy) shown) expandedGroupIds ∅ groupId).
      rewrite lookup_empty. reflexivity.
    - intros k. by rewrite get_bucket_or_empty. }
  rewrite Hlook. split_and!.
  - intros Hin. by rewrite decide_True.
  - intros Hin Hout. rewrite decide_True by done. f_equal.
    by apply membersOf_absent.
  - intros Hout. by rewrite decide_False.
Qed.

Lemma expanded_group_lists_its_alerts_witness :
  expandedRowItems
    (bucketsOf (alertGroupKey GroupState) [Sample.a1; Sample.a3])
    ["resolved"; "pending"] !! "pending" = Some [].
Proof.
  destruct (expanded_group_lists_its_alerts [Sample.a1; Sample.a3] GroupState
              ["resolved"; "pending"]
              (bucketsOf (alertGroupKey GroupState) [Sample.a1; Sample.a3]) "pending")
    as (_ & Hstale & _).
  - reflexivity.
  - apply Hstale.
    + right. left.
    + intros Hin. simpl in Hin.
      apply elem_of_cons in Hin as [Heq | Hin]; [discriminate Heq|].
      apply elem_of_cons in Hin as [Heq | Hin]; [discriminate Heq|].
      by apply elem_of_nil in Hin.
Defined.

(** ** Reloading, and deleting a clone *)

Lemma JsSet_has_add (x id : string) (s : JsSet.t) :
  JsSet.has x (JsSet.add id s) = String.eqb x id || JsSet.has x s.
Proof.
  apply eq_iff_eq_true.
  rewrite orb_true_iff, !JsSet_has_true, JsSet_elem_of_add, String.eqb_eq.
  reflexivity.
Qed.



(** X22. Deleting a clone by the id it was given hides it again: the
    visible rules are then those visible before the clone, minus any that
    carried the clone's id, so they are the same list when no visible rule
    had that id.  A clone whose id is already among the deleted ids never
    becomes visible. *)
Theorem delete_hides_clone {F} (monitor : Rule.t) (now : Z)
    (stampCreated stampModified : string) (st : PageState.t F) :
  let cloned := handleCloneRule monitor now stampCreated stampModified st in
  visibleRules (handleDeleteRules ["clone-" +:+ pretty now] cloned)
    = List.filter (fun r => negb (String.eqb (Rule.id r) ("clone-" +:+ pretty now)))
        (visibleRules st) ∧
  ((∀ r, r ∈ visibleRules st → Rule.id r ≠ "clone-" +:+ pretty now) →
     visibleRules (handleDeleteRules ["clone-" +:+ pretty now] cloned)
       = visibleRules st) ∧
  ("clone-" +:+ pretty now ∈ PageState.deletedRuleIds st →
     visibleRules cloned = visibleRules st) ∧
  ("clone-" +:+ pretty now ∉ PageState.deletedRuleIds st →
     length (visibleRules cloned) = S (length (visibleRules st))).
Proof.
  intros cloned.
  assert (Hdel :
    visibleRules (handleDeleteRules ["clone-" +:+ pretty now] cloned)
    = List.filter (fun r => negb (String.eqb (Rule.id r) ("clone-" +:+ pretty now)))
        (visibleRules st)).
  { unfold visibleRules, cloned, handleDeleteRules, handleCloneRule. simpl.
    rewrite JsSet_has_add, String.eqb_refl. simpl.
    rewrite filter_filter_andb. apply List_filter_ext. intros r _.
    rewrite JsSet_has_add.
    destruct (String.eqb (Rule.id r) ("clone-" +:+ pretty now));
      destruct (JsSet.has (Rule.id r) (PageState.deletedRuleIds st)); reflexivity. }
  split_and!.
  - exact Hdel.
  - intros Hfresh. rewrite Hdel. apply List_filter_all. intros r Hr.
    apply negb_true_iff, String.eqb_neq, Hfresh, Hr.
  - intros Hin. apply JsSet_has_true in Hin.
    unfold visibleRules, cloned, handleCloneRule. simpl. rewrite Hin. reflexivity.
  - intros Hout. rewrite <- JsSet_has_true in Hout. apply not_true_is_false in Hout.
    unfold visibleRules, cloned, handleCloneRule. simpl. rewrite Hout. reflexivity.
Qed.

Lemma delete_hides_clone_witness :
  visibleRules
    (handleDeleteRules ["clone-" +:+ pretty 1700000000000%Z]
       (handleCloneRule Sample.r1 1700000000000 "2023-11-14T22:13:20.000Z"
          "2023-11-14T22:13:20.000Z" Sample.page))
  = visibleRules Sample.page.
Proof.
  destruct (delete_hides_clone Sample.r1 1700000000000 "2023-11-14T22:13:20.000Z"
              "2023-11-14T22:13:20.000Z" Sample.page) as (_ & Hfresh & _).
  apply Hfresh. intros r Hr.
  apply elem_of_cons in Hr as [-> | Hr]; [vm_compute; discriminate|].
  apply list_elem_of_singleton in Hr as ->. vm_compute. discriminate.
Defined.
